(** * The extract pipe of the log query engine: pattern parser, matcher and
      sharded processor, embedded from lib/protoparser/opentelemetry/pb/common.go
      (the logstorage part of the file), with the JSON integers of the same
      file and RemoveIf of the vendored ScopeMetricsSlice. *)

From Stdlib Require Import ZArith Ascii Lia.
From stdpp Require Import base list strings gmap.

Local Open Scope Z_scope.

#[local] Arguments String.append !s1 s2 : simpl nomatch.

(** ** Bytes that cannot be written inside a literal here *)

Definition dquote : ascii := "034"%char.
Definition squote : ascii := "039"%char.
Definition backtick : ascii := "096"%char.
Definition backslash : ascii := "092"%char.
Definition newline : ascii := "010"%char.
Definition carriage : ascii := "013"%char.

(** A string made of one byte. *)
Definition str1 (c : ascii) : string := String c EmptyString.

(** ** Go strings: byte sequences, sliced by integer offsets *)

Module GoStrings.

(** len(s) *)
Definition len (s : string) : Z := Z.of_nat (String.length s).

Fixpoint drop_bytes (n : nat) (s : string) : string :=
  match n, s with
  | O, _ => s
  | S n', String _ s' => drop_bytes n' s'
  | S _, EmptyString => EmptyString
  end.

Fixpoint take_bytes (n : nat) (s : string) : string :=
  match n, s with
  | O, _ => EmptyString
  | S n', String c s' => String c (take_bytes n' s')
  | S _, EmptyString => EmptyString
  end.

(** s[a:]; every use in the embedded code has 0 <= a <= len(s), where Go
    does not panic. *)
Definition slice_from (s : string) (a : Z) : string := drop_bytes (Z.to_nat a) s.

(** s[:b], with 0 <= b <= len(s) at every use. *)
Definition slice_to (s : string) (b : Z) : string := take_bytes (Z.to_nat b) s.

(** strings.HasPrefix(s, prefix) *)
Fixpoint HasPrefix (s prefix : string) {struct prefix} : bool :=
  match prefix, s with
  | EmptyString, _ => true
  | String a p', String b s' => if Ascii.eqb a b then HasPrefix s' p' else false
  | String _ _, EmptyString => false
  end.

(** Offset of the first occurrence of substr in s. *)
Fixpoint index_from (s substr : string) : option nat :=
  if HasPrefix s substr then Some O
  else match s with
       | EmptyString => None
       | String _ s' => S <$> index_from s' substr
       end.

(** strings.Index(s, substr): -1 when substr does not occur. *)
Definition Index (s substr : string) : Z :=
  match index_from s substr with
  | Some n => Z.of_nat n
  | None => -1
  end.

Fixpoint index_byte (s : string) (c : ascii) : option nat :=
  match s with
  | EmptyString => None
  | String b s' => if Ascii.eqb b c then Some O else S <$> index_byte s' c
  end.

(** strings.IndexByte(s, c): -1 when c does not occur. *)
Definition IndexByte (s : string) (c : ascii) : Z :=
  match index_byte s c with
  | Some n => Z.of_nat n
  | None => -1
  end.

End GoStrings.

(** ** unicode/utf8 of the Go standard library *)

Module Utf8.
Import GoStrings.

Definition RuneError : Z := 0xFFFD.
Definition RuneSelf : Z := 0x80.
Definition MaxRune : Z := 0x10FFFF.
Definition surrogateMin : Z := 0xD800.
Definition surrogateMax : Z := 0xDFFF.
Definition rune1Max : Z := 0x7F.
Definition rune2Max : Z := 0x7FF.
Definition rune3Max : Z := 0xFFFF.

Definition byte_val (c : ascii) : Z := Z.of_N (N_of_ascii c).
Definition byte_of (v : Z) : ascii := ascii_of_N (Z.to_N (v mod 256)).

(** The table first[] joined with acceptRanges[]: for a leading byte of a
    multi-byte sequence, the size of the sequence and the range accepted
    for its second byte; None for the bytes marked invalid. *)
Definition first (b : Z) : option (Z * Z * Z) :=
  if b <? 0xC2 then None
  else if b <=? 0xDF then Some (2, 0x80, 0xBF)
  else if b =? 0xE0 then Some (3, 0xA0, 0xBF)
  else if b <=? 0xEC then Some (3, 0x80, 0xBF)
  else if b =? 0xED then Some (3, 0x80, 0x9F)
  else if b <=? 0xEF then Some (3, 0x80, 0xBF)
  else if b =? 0xF0 then Some (4, 0x90, 0xBF)
  else if b <=? 0xF3 then Some (4, 0x80, 0xBF)
  else if b =? 0xF4 then Some (4, 0x80, 0x8F)
  else None.

Definition outside (lo hi b : Z) : bool := (b <? lo) || (hi <? b).

(** utf8.DecodeRuneInString: the rune and its width in bytes;
    (RuneError, 1) for an invalid encoding, (RuneError, 0) for no input. *)
Definition DecodeRuneInString (s : string) : Z * Z :=
  match s with
  | EmptyString => (RuneError, 0)
  | String c0 t0 =>
    let s0 := byte_val c0 in
    if s0 <? RuneSelf then (s0, 1)
    else match first s0 with
    | None => (RuneError, 1)
    | Some (sz, lo, hi) =>
      if len s <? sz then (RuneError, 1)
      else match t0 with
      | EmptyString => (RuneError, 1)
      | String c1 t1 =>
        let s1 := byte_val c1 in
        if outside lo hi s1 then (RuneError, 1)
        else if sz <=? 2 then
          (Z.lor (Z.shiftl (Z.land s0 0x1F) 6) (Z.land s1 0x3F), 2)
        else match t1 with
        | EmptyString => (RuneError, 1)
        | String c2 t2 =>
          let s2 := byte_val c2 in
          if outside 0x80 0xBF s2 then (RuneError, 1)
          else if sz <=? 3 then
            (Z.lor (Z.lor (Z.shiftl (Z.land s0 0x0F) 12)
                          (Z.shiftl (Z.land s1 0x3F) 6))
                   (Z.land s2 0x3F), 3)
          else match t2 with
          | EmptyString => (RuneError, 1)
          | String c3 _ =>
            let s3 := byte_val c3 in
            if outside 0x80 0xBF s3 then (RuneError, 1)
            else
              (Z.lor (Z.lor (Z.lor (Z.shiftl (Z.land s0 0x07) 18)
                                   (Z.shiftl (Z.land s1 0x3F) 12))
                            (Z.shiftl (Z.land s2 0x3F) 6))
                     (Z.land s3 0x3F), 4)
          end
        end
      end
    end
  end.

(** utf8.ValidString: no position decodes to (RuneError, 1).  Every turn
    drops at least one byte, so the length of s bounds the turns. *)
Fixpoint valid_from (turns : nat) (s : string) : bool :=
  match s with
  | EmptyString => true
  | String _ _ =>
    match turns with
    | O => false
    | S turns' =>
      let '(r, size) := DecodeRuneInString s in
      if (r =? RuneError) && (size =? 1) then false
      else valid_from turns' (slice_from s size)
    end
  end.

Definition ValidString (s : string) : bool := valid_from (String.length s) s.

(** utf8.ValidRune *)
Definition ValidRune (r : Z) : bool :=
  ((0 <=? r) && (r <? surrogateMin)) || ((surrogateMax <? r) && (r <=? MaxRune)).

(** utf8.AppendRune, as the bytes appended. *)
Definition EncodeRune (r0 : Z) : string :=
  if (0 <=? r0) && (r0 <=? rune1Max) then str1 (byte_of r0)
  else if (0 <=? r0) && (r0 <=? rune2Max) then
    String (byte_of (Z.lor 0xC0 (Z.shiftr r0 6)))
      (str1 (byte_of (Z.lor 0x80 (Z.land r0 0x3F))))
  else
    let bad := (r0 <? 0) || (MaxRune <? r0)
               || ((surrogateMin <=? r0) && (r0 <=? surrogateMax)) in
    let r := if bad then RuneError else r0 in
    if r <=? rune3Max then
      String (byte_of (Z.lor 0xE0 (Z.shiftr r 12)))
        (String (byte_of (Z.lor 0x80 (Z.land (Z.shiftr r 6) 0x3F)))
          (str1 (byte_of (Z.lor 0x80 (Z.land r 0x3F)))))
    else
      String (byte_of (Z.lor 0xF0 (Z.shiftr r 18)))
        (String (byte_of (Z.lor 0x80 (Z.land (Z.shiftr r 12) 0x3F)))
          (String (byte_of (Z.lor 0x80 (Z.land (Z.shiftr r 6) 0x3F)))
            (str1 (byte_of (Z.lor 0x80 (Z.land r 0x3F)))))).

End Utf8.

(** ** strconv of the Go standard library: QuotedPrefix and Unquote *)

Module Strconv.
Import GoStrings Utf8.

(** The error value of both functions is ErrSyntax alone, so a result is
    an option: None stands for ErrSyntax. *)

Definition contains (s : string) (c : ascii) : bool := 0 <=? IndexByte s c.

Definition between (lo hi c : ascii) : bool :=
  (byte_val lo <=? byte_val c) && (byte_val c <=? byte_val hi).

Definition unhex (c : ascii) : option Z :=
  if between "0" "9" c then Some (byte_val c - byte_val "0")
  else if between "a" "f" c then Some (byte_val c - byte_val "a" + 10)
  else if between "A" "F" c then Some (byte_val c - byte_val "A" + 10)
  else None.

(** A rune is an int32: the value of v<<4 | x after wrap-around. *)
Definition to_int32 (v : Z) : Z := (v + 2 ^ 31) mod 2 ^ 32 - 2 ^ 31.

(** The loop over the n hexadecimal digits at the start of s. *)
Fixpoint read_hex (n : nat) (s : string) (v : Z) : option Z :=
  match n with
  | O => Some v
  | S n' =>
    match s with
    | EmptyString => None
    | String c s' =>
      match unhex c with
      | None => None
      | Some x => read_hex n' s' (to_int32 (Z.lor (Z.shiftl v 4) x))
      end
    end
  end.

(** The loop over the two octal digits that follow the first one. *)
Fixpoint read_octal (n : nat) (s : string) (v : Z) : option Z :=
  match n with
  | O => Some v
  | S n' =>
    match s with
    | EmptyString => None
    | String c s' =>
      let x := byte_val c - byte_val "0" in
      if (x <? 0) || (7 <? x) then None
      else read_octal n' s' (Z.lor (Z.shiftl v 3) x)
    end
  end.

(** The hard case of UnquoteChar: c is the byte after the backslash and s
    the text after c. *)
Definition unquote_escape (c : ascii) (s : string) (quote : ascii)
  : option (Z * bool * string) :=
  if Ascii.eqb c "a" then Some (7, false, s)
  else if Ascii.eqb c "b" then Some (8, false, s)
  else if Ascii.eqb c "f" then Some (12, false, s)
  else if Ascii.eqb c "n" then Some (10, false, s)
  else if Ascii.eqb c "r" then Some (13, false, s)
  else if Ascii.eqb c "t" then Some (9, false, s)
  else if Ascii.eqb c "v" then Some (11, false, s)
  else if Ascii.eqb c "x" || Ascii.eqb c "u" || Ascii.eqb c "U" then
    let n := if Ascii.eqb c "x" then 2%nat
             else if Ascii.eqb c "u" then 4%nat else 8%nat in
    if len s <? Z.of_nat n then None
    else match read_hex n s 0 with
         | None => None
         | Some v =>
           let s' := slice_from s (Z.of_nat n) in
           if Ascii.eqb c "x" then Some (v, false, s')
           else if negb (ValidRune v) then None
           else Some (v, true, s')
         end
  else if between "0" "7" c then
    let v := byte_val c - byte_val "0" in
    if len s <? 2 then None
    else match read_octal 2 s v with
         | None => None
         | Some v' =>
           if 255 <? v' then None else Some (v', false, slice_from s 2)
         end
  else if Ascii.eqb c backslash then Some (byte_val backslash, false, s)
  else if Ascii.eqb c squote || Ascii.eqb c dquote then
    if negb (Ascii.eqb c quote) then None else Some (byte_val c, false, s)
  else None.

(** strconv.UnquoteChar: value, multibyte, tail. *)
Definition UnquoteChar (s : string) (quote : ascii) : option (Z * bool * string) :=
  match s with
  | EmptyString => None
  | String c rest =>
    if Ascii.eqb c quote && (Ascii.eqb quote squote || Ascii.eqb quote dquote)
    then None
    else if RuneSelf <=? byte_val c then
      let '(r, size) := DecodeRuneInString s in
      Some (r, true, slice_from s size)
    else if negb (Ascii.eqb c backslash) then Some (byte_val c, false, rest)
    else match rest with
         | EmptyString => None
         | String c1 s2 => unquote_escape c1 s2 quote
         end
  end.

(** The loop of unquote over the body of a quoted string with escape
    sequences: it stops in front of the closing quote, or at the end of the
    input.  It returns the buffer and what is left of the input.  Every turn
    drops at least one byte, so the length of the input bounds the turns. *)
Fixpoint unquote_chars (turns : nat) (inp : string) (quote : ascii)
    (unescape : bool) (buf : string) : option (string * string) :=
  match inp with
  | EmptyString => Some (buf, inp)
  | String c0 _ =>
    if Ascii.eqb c0 quote then Some (buf, inp)
    else match turns with
    | O => None
    | S turns' =>
      match UnquoteChar inp quote with
      | None => None
      | Some (r, multibyte, rem) =>
        if Ascii.eqb c0 newline then None
        else
          let buf' :=
            if unescape then
              if (r <? RuneSelf) || negb multibyte
              then buf +:+ str1 (byte_of r)
              else buf +:+ EncodeRune r
            else buf in
          if Ascii.eqb quote squote then Some (buf', rem)
          else unquote_chars turns' rem quote unescape buf'
      end
    end
  end.

(** The carriage returns of a raw string are dropped from its value. *)
Fixpoint drop_carriage (s : string) : string :=
  match s with
  | EmptyString => EmptyString
  | String c s' =>
    if Ascii.eqb c carriage then drop_carriage s' else String c (drop_carriage s')
  end.

(** strconv.unquote(in, unescape): the quoted prefix of the input (its
    value when unescape is set) and the rest of the input. *)
Definition unquote (inp : string) (unescape : bool) : option (string * string) :=
  if len inp <? 2 then None
  else match inp with
  | EmptyString => None
  | String quote body =>
    let e := IndexByte body quote in
    if e <? 0 then None
    else
      let end_ := e + 2 in
      if Ascii.eqb quote backtick then
        let out :=
          if negb unescape then slice_to inp end_
          else if negb (contains (slice_to inp end_) carriage)
               then slice_to (slice_from inp 1) (end_ - 2)
               else drop_carriage (slice_to (slice_from inp 1) (end_ - 2)) in
        Some (out, slice_from inp end_)
      else if Ascii.eqb quote dquote || Ascii.eqb quote squote then
        let plain :=
          negb (contains (slice_to inp end_) backslash)
          && negb (contains (slice_to inp end_) newline)
          && (if Ascii.eqb quote dquote
              then ValidString (slice_to (slice_from inp 1) (end_ - 2))
              else let '(r, n) :=
                     DecodeRuneInString (slice_to (slice_from inp 1) (end_ - 2)) in
                   (1 + n + 1 =? end_) && (negb (r =? RuneError) || negb (n =? 1))) in
        if plain then
          Some (if unescape then slice_to (slice_from inp 1) (end_ - 2)
                else slice_to inp end_,
                slice_from inp end_)
        else
          match unquote_chars (String.length body) body quote unescape EmptyString with
          | None => None
          | Some (buf, rest) =>
            match rest with
            | EmptyString => None
            | String c rest' =>
              if negb (Ascii.eqb c quote) then None
              else if unescape then Some (buf, rest')
              else Some (slice_to inp (len inp - len rest'), rest')
            end
          end
      else None
  end.

(** strconv.QuotedPrefix *)
Definition QuotedPrefix (s : string) : option string :=
  match unquote s false with
  | Some (out, _) => Some out
  | None => None
  end.

(** strconv.Unquote *)
Definition Unquote (s : string) : option string :=
  match unquote s true with
  | Some (out, rem) => if 0 <? len rem then None else Some out
  | None => None
  end.

End Strconv.

(** ** html of the Go standard library *)

Module Html.
Import GoStrings.

(** html.UnescapeString returns its argument as it is when the argument
    holds no ampersand.  The decoder of the entities of a string that holds
    one (with its table of named entities) is a parameter: no property
    below depends on what it returns. *)
Definition UnescapeString (decodeEntities : string -> string) (s : string) : string :=
  if IndexByte s "&" <? 0 then s else decodeEntities s.

End Html.

(** ** Results of code that can panic *)

Inductive outcome (A : Type) : Type :=
| Ret (a : A)
| Panic (msg : string).
Arguments Ret {A} a.
Arguments Panic {A} msg.

Definition bind {A B : Type} (o : outcome A) (k : A -> outcome B) : outcome B :=
  match o with
  | Ret a => k a
  | Panic msg => Panic msg
  end.

Notation "x <-- o ;; k" := (bind o (fun x => k))
  (at level 100, o at next level, right associativity).

(** ** The data of the extract pipe *)

Record extractFormatStep : Type := mkStep {
  prefix : string;
  field : string
}.

(** The pointer value of an extractField points into the matches of its
    extractFormat: it is embedded as the index of that slot. *)
Record extractField : Type := mkField {
  name : string;
  value : nat
}.

Record extractFormat : Type := mkFormat {
  steps : list extractFormatStep;
  matches : list string;
  fields : list extractField
}.

(** The fields field and steps of pipeExtract carry the prefix pe_, since
    extractFormatStep and extractFormat have fields of the same names. *)
Record pipeExtract : Type := mkPipe {
  pe_field : string;
  pe_steps : list extractFormatStep;
  pe_stepsStr : string
}.

(** ** parseExtractFormatSteps *)

Inductive loop_exit : Type :=
| Break (stepsAcc : list extractFormatStep) (hasNamedField : bool)
| Fail (msg : string).

(** The for loop of parseExtractFormatSteps.  A turn that goes round again
    has dropped at least two bytes of s; turns bounds the number of rounds,
    and None is the result of running out of them. *)
Fixpoint parse_loop (turns : nat) (pfx s : string)
    (stepsAcc : list extractFormatStep) (hasNamedField : bool) : option loop_exit :=
  match turns with
  | O => None
  | S turns' =>
    let n := GoStrings.IndexByte s ">" in
    if n <? 0 then Some (Fail ("missing '>' for <" +:+ s))
    else
      let fld := GoStrings.slice_to s n in
      let s := GoStrings.slice_from s (n + 1) in
      let fld := if String.eqb fld "_" || String.eqb fld "*" then EmptyString else fld in
      let stepsAcc := stepsAcc ++ [mkStep pfx fld] in
      let hasNamedField :=
        if negb hasNamedField && negb (String.eqb fld EmptyString)
        then true else hasNamedField in
      if GoStrings.len s =? 0 then Some (Break stepsAcc hasNamedField)
      else
        let n := GoStrings.IndexByte s "<" in
        if n <? 0 then Some (Break (stepsAcc ++ [mkStep s EmptyString]) hasNamedField)
        else if n =? 0 then Some (Fail ("missing delimiter after <" +:+ fld +:+ ">"))
        else parse_loop turns' (GoStrings.slice_to s n) (GoStrings.slice_from s (n + 1))
               stepsAcc hasNamedField
  end.

(** The two results of parseExtractFormatSteps: the steps (nil on error) and
    the error (None for nil).  The outer option is None only if the loop ran
    out of turns, which never happens: see parse_error_iff. *)
Definition parseExtractFormatSteps (decodeEntities : string -> string) (s : string)
  : option (list extractFormatStep * option string) :=
  let n := GoStrings.IndexByte s "<" in
  if n <? 0 then Some ([], Some "missing <...> fields")
  else
    let pfx := GoStrings.slice_to s n in
    let s := GoStrings.slice_from s (n + 1) in
    match parse_loop (S (String.length s)) pfx s [] false with
    | None => None
    | Some (Fail msg) => Some ([], Some msg)
    | Some (Break stepsAcc hasNamedField) =>
      if negb hasNamedField then Some ([], Some "missing named fields like <name>")
      else Some (map (fun step =>
                        mkStep (Html.UnescapeString decodeEntities (prefix step))
                               (field step)) stepsAcc,
                 None)
    end.

(** ** newExtractFormat *)

(** The loop that collects the named steps, i counting the steps passed. *)
Fixpoint collect_fields (sts : list extractFormatStep) (i : nat)
    (acc : list extractField) : list extractField :=
  match sts with
  | [] => acc
  | step :: rest =>
    collect_fields rest (S i)
      (if negb (String.eqb (field step) EmptyString)
       then acc ++ [mkField (field step) i] else acc)
  end.

Definition newExtractFormat (sts : list extractFormatStep) : outcome extractFormat :=
  if Nat.eqb (length sts) 0 then Panic "BUG: steps cannot be empty"
  else
    let ms := replicate (length sts) EmptyString in
    let fs := collect_fields sts 0 [] in
    if Nat.eqb (length fs) 0 then Panic "BUG: fields cannot be empty"
    else Ret (mkFormat sts ms fs).

(** ** tryUnquoteString and apply *)

Definition tryUnquoteString (s : string) : string * Z * bool :=
  match s with
  | EmptyString => (s, 0, false)
  | String c _ =>
    if negb (Ascii.eqb c dquote) && negb (Ascii.eqb c backtick) then (s, 0, false)
    else match Strconv.QuotedPrefix s with
         | None => (s, 0, false)
         | Some qp =>
           match Strconv.Unquote qp with
           | None => (s, 0, false)
           | Some us => (us, GoStrings.len qp, true)
           end
         end
  end.

(** matches[i] = v; Go panics when i is out of range. *)
Definition store (i : nat) (v : string) (ms : list string) : outcome (list string) :=
  if decide (i < length ms)%nat then Ret (<[i:=v]> ms)
  else Panic "index out of range".

(** nextPrefix at a turn of the loop of apply, rest' being steps[i+1:]: the
    prefix of steps[i+1], or the empty string at the last step. *)
Definition next_prefix (rest' : list extractFormatStep) : string :=
  match rest' with
  | [] => EmptyString
  | next :: _ => prefix next
  end.

(** The for loop of apply from its turn i on: rest is steps[i:], s the input
    not yet consumed, ms the matches so far.  The result is the matches when
    the loop is left, by return or at its end. *)
Fixpoint apply_loop (rest : list extractFormatStep) (i : nat) (s : string)
    (ms : list string) : outcome (list string) :=
  match rest with
  | [] => Ret ms
  | _ :: rest' =>
    let nextPrefix := next_prefix rest' in
    match tryUnquoteString s with
    | (us, nOffset, true) =>
      ms' <-- store i us ms ;;
      let s := GoStrings.slice_from s nOffset in
      if negb (GoStrings.HasPrefix s nextPrefix) then Ret ms'
      else apply_loop rest' (S i) (GoStrings.slice_from s (GoStrings.len nextPrefix)) ms'
    | (_, _, false) =>
      if String.eqb nextPrefix EmptyString then store i s ms
      else
        let n := GoStrings.Index s nextPrefix in
        if n <? 0 then Ret ms
        else
          ms' <-- store i (GoStrings.slice_to s n) ms ;;
          apply_loop rest' (S i)
            (GoStrings.slice_from s (n + GoStrings.len nextPrefix)) ms'
    end
  end.

(** clear(ef.matches): every slot becomes the empty string, in place. *)
Definition clear (ms : list string) : list string :=
  replicate (length ms) EmptyString.

(** ef.apply(s), as the extractFormat after the call: only matches changes. *)
Definition apply (ef : extractFormat) (s : string) : outcome extractFormat :=
  let ms := clear (matches ef) in
  match steps ef with
  | [] => Panic "index out of range"
  | step0 :: _ =>
    let pfx := prefix step0 in
    let start :=
      if negb (String.eqb pfx EmptyString) then
        let n := GoStrings.Index s pfx in
        if n <? 0 then None
        else Some (GoStrings.slice_from s (n + GoStrings.len pfx))
      else Some s in
    match start with
    | None => Ret (mkFormat (steps ef) ms (fields ef))
    | Some s =>
      ms' <-- apply_loop (steps ef) 0 s ms ;;
      Ret (mkFormat (steps ef) ms' (fields ef))
    end
  end.

(** What a reader of ef.fields sees: the name of every field with the
    string its pointer leads to. *)
Definition deref (ef : extractFormat) (f : extractField) : string :=
  default EmptyString (matches ef !! value f).

Definition field_values (ef : extractFormat) : list (string * string) :=
  map (fun f => (name f, deref ef f)) (fields ef).

(** ** The pipe: needed fields *)

(** Modelled from the spec: the type fieldsSet and its methods add and remove
    are declared outside the source file.  The spec has two sets of field
    names, add putting a name into a set and remove taking it out. *)
Abbreviation fieldsSet := (gset string).

Definition fs_add (f : string) (fs : fieldsSet) : fieldsSet := {[f]} ∪ fs.
Definition fs_remove (f : string) (fs : fieldsSet) : fieldsSet := fs ∖ {[f]}.

(** The loop of updateNeededFields over pe.steps. *)
Fixpoint remove_step_fields (sts : list extractFormatStep) (unneededFields : fieldsSet)
  : fieldsSet :=
  match sts with
  | [] => unneededFields
  | step :: rest =>
    remove_step_fields rest
      (if negb (String.eqb (field step) EmptyString)
       then fs_remove (field step) unneededFields else unneededFields)
  end.

(** pe.updateNeededFields(neededFields, unneededFields): both sets are
    updated in place, so the result is the pair of sets after the call. *)
Definition updateNeededFields (pe : pipeExtract) (neededFields unneededFields : fieldsSet)
  : fieldsSet * fieldsSet :=
  (fs_add (pe_field pe) neededFields, remove_step_fields (pe_steps pe) unneededFields).

(** ** The pipe: blocks and the sharded processor *)

(** Modelled from the spec: blockResult, getColumnByName and getValues are
    declared outside the source file.  The spec has a block with a timestamp
    for every row and named columns with one value for every row;
    getColumnByName(name).getValues(block) is a sequence of strings as long
    as the block has rows.  For a name that no column has, the model takes the
    empty string at every row. *)
Record blockResult : Type := mkBlock {
  timestamps : list Z;
  columns : list (string * list string)
}.

Fixpoint getColumnByName (cols : list (string * list string)) (nm : string)
  : option (list string) :=
  match cols with
  | [] => None
  | (n, vs) :: rest => if String.eqb n nm then Some vs else getColumnByName rest nm
  end.

Definition getValues (br : blockResult) (nm : string) : list string :=
  match getColumnByName (columns br) nm with
  | Some vs => vs
  | None => replicate (length (timestamps br)) EmptyString
  end.

(** Modelled from the spec: the interface pipeProcessor is declared outside
    the source file.  The next stage is embedded as the list of the
    writeBlock calls it has received, each with its worker and block. *)
Record pipeProcessor : Type := mkNext {
  received : list (nat * blockResult)
}.

(** A shard is its matcher: the struct pipeExtractProcessorShardNopad that
    the source embeds holds ef alone, and the padding after it is a matter of
    memory layout. *)
Record pipeExtractProcessorShard : Type := mkShard {
  ef : extractFormat
}.

Record pipeExtractProcessor : Type := mkProcessor {
  pe : pipeExtract;
  ppBase : pipeProcessor;
  shards : list pipeExtractProcessorShard
}.

(** The loop of newPipeProcessor that fills the shards. *)
Fixpoint make_shards (workersCount : nat) (sts : list extractFormatStep)
  : outcome (list pipeExtractProcessorShard) :=
  match workersCount with
  | O => Ret []
  | S n =>
    e <-- newExtractFormat sts ;;
    rest <-- make_shards n sts ;;
    Ret (mkShard e :: rest)
  end.

Definition newPipeProcessor (p : pipeExtract) (workersCount : nat) (next : pipeProcessor)
  : outcome pipeExtractProcessor :=
  shs <-- make_shards workersCount (pe_steps p) ;;
  Ret (mkProcessor p next shs).

(** The loop of writeBlock over the values of the column: the matcher of the
    shard after apply has run on every value in turn. *)
Fixpoint apply_values (e : extractFormat) (values : list string) : outcome extractFormat :=
  match values with
  | [] => Ret e
  | v :: rest => e' <-- apply e v ;; apply_values e' rest
  end.

(** pep.writeBlock(workerID, br), as the processor after the call.  The
    source calls nothing of ppBase, so its record of received blocks is
    carried over as it is. *)
Definition writeBlock (pep : pipeExtractProcessor) (workerID : nat) (br : blockResult)
  : outcome pipeExtractProcessor :=
  if Nat.eqb (length (timestamps br)) 0 then Ret pep
  else
    match shards pep !! workerID with
    | None => Panic "index out of range"
    | Some shard =>
      let values := getValues br (pe_field (pe pep)) in
      e' <-- apply_values (ef shard) values ;;
      Ret (mkProcessor (pe pep) (ppBase pep) (<[workerID := mkShard e']> (shards pep)))
    end.

(** ** The rows of several shards against one matcher *)

(** The captured values of every row, in the order of the rows, as one
    matcher is applied to them in turn. *)
Fixpoint run_rows (e : extractFormat) (rows : list string)
  : outcome (list (list (string * string))) :=
  match rows with
  | [] => Ret []
  | r :: rest =>
    e' <-- apply e r ;;
    out <-- run_rows e' rest ;;
    Ret (field_values e' :: out)
  end.

(** Every shard runs its own matcher over its own rows. *)
Fixpoint run_shards (shs : list pipeExtractProcessorShard) (parts : list (list string))
  : outcome (list (list (list (string * string)))) :=
  match shs, parts with
  | sh :: shs', rows :: parts' =>
    out <-- run_rows (ef sh) rows ;;
    outs <-- run_shards shs' parts' ;;
    Ret (out :: outs)
  | _, _ => Ret []
  end.

(** ** Patterns, as the spec describes them *)

(** The byte c occurs in s. *)
Definition has_byte (c : ascii) (s : string) : Prop :=
  exists a b, s = a +:+ String c b.

Definition lacks (c : ascii) (s : string) : Prop := ~ has_byte c s.

(** A capture that is not the last one, written from its name on: the name,
    the closing bracket, the literal after it and the opening bracket of the
    next capture. *)
Fixpoint chain (caps : list (string * string)) : string :=
  match caps with
  | [] => EmptyString
  | (f, p) :: rest => f +:+ ">" +:+ p +:+ "<" +:+ chain rest
  end.

(** Such a capture is well formed when its name ends at the first closing
    bracket and the literal after it is not empty and reaches to the next
    opening bracket. *)
Definition inner_ok (caps : list (string * string)) : Prop :=
  Forall (fun fp => lacks ">" (fst fp) /\ snd fp <> EmptyString /\ lacks "<" (snd fp)) caps.

(** The pattern has no opening bracket at all. *)
Definition missing_fields (s : string) : Prop := lacks "<" s.

(** The opening bracket of a capture has no closing bracket after it. *)
Definition unterminated (s : string) : Prop :=
  exists p0 caps r,
    lacks "<" p0 /\ inner_ok caps /\ lacks ">" r /\
    s = p0 +:+ "<" +:+ chain caps +:+ r.

(** Two captures with a literal of length zero between them: an opening
    bracket right after the closing bracket of the capture before. *)
Definition missing_delimiter (s : string) : Prop :=
  exists p0 caps f r,
    lacks "<" p0 /\ inner_ok caps /\ lacks ">" f /\
    s = p0 +:+ "<" +:+ chain caps +:+ f +:+ "><" +:+ r.

(** A pattern of captures that are all closed and all apart: the literal p0,
    the captures caps with their literals, the last capture f and the text
    tail after it. *)
Definition complete (s p0 : string) (caps : list (string * string)) (f tail : string) : Prop :=
  lacks "<" p0 /\ inner_ok caps /\ lacks ">" f /\ lacks "<" tail /\
  s = p0 +:+ "<" +:+ chain caps +:+ f +:+ ">" +:+ tail.

(** The names that stand for an anonymous capture; the empty name is one of
    them, since a step with an empty field is anonymous. *)
Definition anonymous (f : string) : Prop :=
  f = EmptyString \/ f = "_" \/ f = "*".

Definition normalize (f : string) : string :=
  if String.eqb f "_" || String.eqb f "*" then EmptyString else f.

(** No capture of a complete pattern has a name. *)
Definition no_named (s : string) : Prop :=
  exists p0 caps f tail,
    complete s p0 caps f tail /\ Forall anonymous (map fst caps ++ [f]).

(** The steps of a complete pattern, before its literals are unescaped. *)
Fixpoint steps_of_chain (pfx : string) (caps : list (string * string)) (f tail : string)
  : list extractFormatStep :=
  match caps with
  | [] =>
    mkStep pfx (normalize f)
    :: (if String.eqb tail EmptyString then [] else [mkStep tail EmptyString])
  | (f1, p1) :: rest => mkStep pfx (normalize f1) :: steps_of_chain p1 rest f tail
  end.

Definition unescape_steps (decodeEntities : string -> string)
    (sts : list extractFormatStep) : list extractFormatStep :=
  map (fun step => mkStep (Html.UnescapeString decodeEntities (prefix step)) (field step)) sts.

(** ** Inputs built from a step list and values *)

(** The literal prefixes of the steps with a value after each, in order. *)
Fixpoint render (sts : list extractFormatStep) (vals : list string) : string :=
  match sts, vals with
  | st :: sts', v :: vals' => prefix st +:+ v +:+ render sts' vals'
  | _, _ => EmptyString
  end.

(** The named fields of the steps with the values given to them. *)
Fixpoint expected_fields (sts : list extractFormatStep) (vals : list string)
  : list (string * string) :=
  match sts, vals with
  | st :: sts', v :: vals' =>
    if negb (String.eqb (field st) EmptyString)
    then (field st, v) :: expected_fields sts' vals'
    else expected_fields sts' vals'
  | _, _ => []
  end.

(** No value contains the literal prefix of the step after it. *)
Fixpoint values_avoid_next (sts : list extractFormatStep) (vals : list string) : Prop :=
  match sts, vals with
  | _ :: sts', v :: vals' =>
    match sts' with
    | [] => True
    | next :: _ => GoStrings.Index v (prefix next) < 0
    end /\ values_avoid_next sts' vals'
  | _, _ => True
  end.

Definition starts_quoted (s : string) : bool :=
  match s with
  | EmptyString => false
  | String c _ => Ascii.eqb c dquote || Ascii.eqb c backtick
  end.

(** Every literal prefix after the first one is not empty. *)
Definition inner_prefixes_nonempty (sts : list extractFormatStep) : Prop :=
  Forall (fun st => prefix st <> EmptyString) (tail sts).

(** No capture starts at a quoted string that tryUnquoteString accepts, and
    for every step but the last the first place where the next literal prefix
    occurs in the value followed by that prefix is the end of the value. *)
Fixpoint values_delimited (sts : list extractFormatStep) (vals : list string) : Prop :=
  match sts, vals with
  | _ :: sts', v :: vals' =>
    snd (tryUnquoteString (v +:+ render sts' vals')) = false /\
    match sts' with
    | [] => True
    | next :: _ =>
      GoStrings.Index (v +:+ prefix next) (prefix next) = GoStrings.len v
    end /\
    values_delimited sts' vals'
  | _, _ => True
  end.

(** The text of render after the prefix of its first step. *)
Definition render_tail (sts : list extractFormatStep) (vals : list string) : string :=
  match sts, vals with
  | _ :: sts', v :: vals' => v +:+ render sts' vals'
  | _, _ => EmptyString
  end.

(** The round trip as the spec words it, for the steps of a parsed pattern. *)
Definition roundtrip_as_stated : Prop :=
  forall (decodeEntities : string -> string) (pattern : string)
         (sts : list extractFormatStep) (vals : list string) (e : extractFormat),
    parseExtractFormatSteps decodeEntities pattern = Some (sts, None) ->
    length vals = length sts ->
    values_avoid_next sts vals ->
    newExtractFormat sts = Ret e ->
    exists e', apply e (render sts vals) = Ret e' /\
               field_values e' = expected_fields sts vals.

(** The contract of writeBlock as the spec words it: a block with a row is
    forwarded to the next stage, with the columns it had and a column for
    every named field that holds the extracted value of every row. *)
Definition extracted_column (sts : list extractFormatStep) (values : list string)
    (f : extractField) : string * list string :=
  (name f,
   map (fun v =>
          match newExtractFormat sts with
          | Ret e => match apply e v with
                     | Ret e' => deref e' f
                     | Panic _ => EmptyString
                     end
          | Panic _ => EmptyString
          end) values).

Definition forwarded_block (pep : pipeExtractProcessor) (br : blockResult) : blockResult :=
  let sts := pe_steps (pe pep) in
  let values := getValues br (pe_field (pe pep)) in
  mkBlock (timestamps br)
          (columns br ++ map (extracted_column sts values) (collect_fields sts 0 [])).

(** The shapes of the text after an opening bracket. *)
Definition body_shape (body : string) : Prop :=
  (exists caps r, inner_ok caps /\ lacks ">" r /\ body = chain caps +:+ r) \/
  (exists caps f r, inner_ok caps /\ lacks ">" f /\
                    body = chain caps +:+ f +:+ "><" +:+ r) \/
  (exists caps f tl, inner_ok caps /\ lacks ">" f /\ lacks "<" tl /\
                     body = chain caps +:+ f +:+ ">" +:+ tl).

(** ** The steps of a chain of captures *)

Definition named_field (f : string) : bool :=
  negb (String.eqb (normalize f) EmptyString).

(** The steps that the captures of a chain make, pfx being the literal in
    front of the first of them. *)
Fixpoint chain_steps (pfx : string) (caps : list (string * string))
  : list extractFormatStep :=
  match caps with
  | [] => []
  | (f, p) :: rest => mkStep pfx (normalize f) :: chain_steps p rest
  end.

(** The literal in front of the capture that follows the chain. *)
Fixpoint chain_last (pfx : string) (caps : list (string * string)) : string :=
  match caps with
  | [] => pfx
  | (_, p) :: rest => chain_last p rest
  end.

(** Some step has a name. *)
Definition has_named_step (sts : list extractFormatStep) : bool :=
  existsb (fun st => negb (String.eqb (field st) EmptyString)) sts.

(** The matchers that newExtractFormat makes, at any moment of their life. *)
Definition matcher_ok (e : extractFormat) : Prop :=
  steps e <> [] /\ length (matches e) = length (steps e).

(** Two matchers of the same steps and fields, whatever their matches hold. *)
Definition similar (e1 e2 : extractFormat) : Prop :=
  steps e1 = steps e2 /\ fields e1 = fields e2 /\
  length (matches e1) = length (matches e2).

(** ** Quoted strings with nothing to unescape *)

(** The text of a double-quoted string that needs no escape sequence. *)
Definition plain_body (body : string) : Prop :=
  lacks dquote body /\ lacks backslash body /\ lacks newline body /\
  Utf8.ValidString body = true.

(** ** Inputs of the examples *)

Definition quoted (s : string) : string := String dquote (s +:+ str1 dquote).

Definition no_entities (s : string) : string := s.

Definition steps_ip_msg : list extractFormatStep :=
  [mkStep "ip=" "ip"; mkStep " msg=" "msg"].

Definition steps_a_b : list extractFormatStep :=
  [mkStep "a=" "x"; mkStep " b=" "y"].

Definition steps_x_v : list extractFormatStep := [mkStep "x=" "v"].

Definition steps_x_y : list extractFormatStep :=
  [mkStep EmptyString "x"; mkStep " " "y"].

Definition matcher_of (sts : list extractFormatStep) : extractFormat :=
  mkFormat sts (replicate (length sts) EmptyString) (collect_fields sts 0 []).

(** The captured values of a row on a matcher that is fresh from
    newExtractFormat. *)
Definition row_values (sts : list extractFormatStep) (row : string)
  : list (string * string) :=
  match newExtractFormat sts with
  | Ret e => match apply e row with
             | Ret e' => field_values e'
             | Panic _ => []
             end
  | Panic _ => []
  end.

(** ** Inputs without quotes, and parts of an input *)

(** The input holds no double quote and no backtick, so that no capture can
    start at a quoted string. *)
Definition quote_free (s : string) : Prop := lacks dquote s /\ lacks backtick s.

(** v is a run of bytes of s. *)
Definition substring_of (v s : string) : Prop := exists a b, s = a +:+ v +:+ b.

(** ** Processors whose shards can run *)

(** Every shard holds a matcher with a slot for every step. *)
Definition processor_ok (pep : pipeExtractProcessor) : Prop :=
  Forall (fun sh => matcher_ok (ef sh)) (shards pep).

(** The named fields of the steps. *)
Definition named_fields (sts : list extractFormatStep) : list string :=
  filter (fun f => f <> EmptyString) (map field sts).

(** ** Patterns written from step lists *)

(** The name written between the brackets for a step: the underscore for a
    step without a field name. *)
Definition step_name (st : extractFormatStep) : string :=
  if String.eqb (field st) EmptyString then "_" else field st.

(** The capture written after the prefix of a step: none for a last step
    without a field name, which stands for the literal after the last
    capture. *)
Definition capture_text (st : extractFormatStep) (is_last : bool) : string :=
  if is_last && String.eqb (field st) EmptyString then EmptyString
  else "<" +:+ step_name st +:+ ">".

Fixpoint print_steps (sts : list extractFormatStep) : string :=
  match sts with
  | [] => EmptyString
  | st :: rest =>
    prefix st
    +:+ capture_text st (match rest with [] => true | _ :: _ => false end)
    +:+ print_steps rest
  end.

(** A field name as the parser leaves it: no closing bracket inside, and
    not one of the two marks of an anonymous capture. *)
Definition field_ok (st : extractFormatStep) : Prop :=
  lacks ">" (field st) /\ field st <> "_" /\ field st <> "*".

(** A literal prefix after the first one: not empty, no opening bracket. *)
Definition inner_prefix_ok (st : extractFormatStep) : Prop :=
  prefix st <> EmptyString /\ lacks "<" (prefix st).

(** The step lists that the parser returns for patterns without an
    ampersand. *)
Definition wf_steps (sts : list extractFormatStep) : Prop :=
  has_named_step sts = true /\
  (forall st0, head sts = Some st0 -> lacks "<" (prefix st0)) /\
  Forall inner_prefix_ok (tail sts) /\
  Forall field_ok sts /\
  Forall (fun st => lacks "&" (prefix st)) sts.

(** ** strconv.ParseUint and strconv.ParseInt, and the JSON integers *)

Module StrconvNum.

(** The Err of a NumError: ErrSyntax or ErrRange. *)
Inductive num_error : Type := ErrSyntax | ErrRange.

Definition maxUint64 : Z := 2 ^ 64 - 1.

(** lower(c) = c | ('x' - 'X') *)
Definition lower (c : Z) : Z := Z.lor c 0x20.

(** The loop of ParseUint over the bytes of s for base 10 and bitSize 64,
    where base0 is false, cutoff is maxUint64/10 + 1 and maxVal is maxUint64.
    n is a uint64: the product and the sum wrap around. *)
Fixpoint parse_digits (s : string) (n : Z) : Z * option num_error :=
  match s with
  | EmptyString => (n, None)
  | String ch rest =>
    let c := Utf8.byte_val ch in
    let d :=
      if (Utf8.byte_val "0" <=? c) && (c <=? Utf8.byte_val "9")
      then Some (c - Utf8.byte_val "0")
      else if (Utf8.byte_val "a" <=? lower c) && (lower c <=? Utf8.byte_val "z")
      then Some (lower c - Utf8.byte_val "a" + 10)
      else None in
    match d with
    | None => (0, Some ErrSyntax)
    | Some d =>
      if 10 <=? d then (0, Some ErrSyntax)
      else if maxUint64 / 10 + 1 <=? n then (maxUint64, Some ErrRange)
      else
        let n := (n * 10) mod 2 ^ 64 in
        let n1 := (n + d) mod 2 ^ 64 in
        if (n1 <? n) || (maxUint64 <? n1) then (maxUint64, Some ErrRange)
        else parse_digits rest n1
    end
  end.

(** strconv.ParseUint(s, 10, 64): the value and the error. *)
Definition ParseUint64 (s : string) : Z * option num_error :=
  match s with
  | EmptyString => (0, Some ErrSyntax)
  | String _ _ => parse_digits s 0
  end.

(** The conversion int64(un) of a uint64, and the negation of an int64. *)
Definition to_int64 (v : Z) : Z := (v + 2 ^ 63) mod 2 ^ 64 - 2 ^ 63.

(** strconv.ParseInt(s, 10, 64): the value and the error. *)
Definition ParseInt64 (s0 : string) : Z * option num_error :=
  match s0 with
  | EmptyString => (0, Some ErrSyntax)
  | String c rest =>
    let neg := Ascii.eqb c "-" in
    let s := if Ascii.eqb c "+" || Ascii.eqb c "-" then rest else s0 in
    match ParseUint64 s with
    | (_, Some ErrSyntax) => (0, Some ErrSyntax)
    | (un, _) =>
      let cutoff := 2 ^ 63 in
      if negb neg && (cutoff <=? un) then (cutoff - 1, Some ErrRange)
      else if neg && (cutoff <? un) then (- cutoff, Some ErrRange)
      else
        let n := to_int64 un in
        (if neg then to_int64 (- n) else n, None)
    end
  end.

End StrconvNum.

(** The errors of the two UnmarshalJSON functions, by their message:
    failed to unquote, or failed to parse with the error of strconv below. *)
Inductive json_error : Type :=
| FailedUnquote
| FailedParse (e : StrconvNum.num_error).

(** (u *Uint64) UnmarshalJSON(src): the value of u after the call, and the
    error.  u is written only when both steps succeed. *)
Definition Uint64_UnmarshalJSON (u : Z) (src : string) : Z * option json_error :=
  match Strconv.Unquote src with
  | None => (u, Some FailedUnquote)
  | Some vStr =>
    match StrconvNum.ParseUint64 vStr with
    | (_, Some e) => (u, Some (FailedParse e))
    | (v, None) => (v, None)
    end
  end.

(** (i *Int64) UnmarshalJSON(src) *)
Definition Int64_UnmarshalJSON (i : Z) (src : string) : Z * option json_error :=
  match Strconv.Unquote src with
  | None => (i, Some FailedUnquote)
  | Some vStr =>
    match StrconvNum.ParseInt64 vStr with
    | (_, Some e) => (i, Some (FailedParse e))
    | (v, None) => (v, None)
    end
  end.

(** ** Decimal numerals *)

Definition is_digit (c : ascii) : bool :=
  (Utf8.byte_val "0" <=? Utf8.byte_val c) && (Utf8.byte_val c <=? Utf8.byte_val "9").

Fixpoint all_digits (s : string) : bool :=
  match s with
  | EmptyString => true
  | String c rest => is_digit c && all_digits rest
  end.

(** The number that the digits of s write after the digits of acc. *)
Fixpoint digits_value (s : string) (acc : Z) : Z :=
  match s with
  | EmptyString => acc
  | String c rest => digits_value rest (acc * 10 + (Utf8.byte_val c - Utf8.byte_val "0"))
  end.

(** The number that a decimal numeral writes: digits, at least one. *)
Definition numeral_value (s : string) : option Z :=
  match s with
  | EmptyString => None
  | String _ _ => if all_digits s then Some (digits_value s 0) else None
  end.

(** The number that a numeral with an optional sign writes. *)
Definition signed_value (s : string) : option Z :=
  match s with
  | EmptyString => None
  | String c rest =>
    if Ascii.eqb c "+" then numeral_value rest
    else if Ascii.eqb c "-" then
      match numeral_value rest with Some v => Some (- v) | None => None end
    else numeral_value s
  end.

(** Every byte of s is below 128. *)
Fixpoint all_ascii (s : string) : bool :=
  match s with
  | EmptyString => true
  | String c rest => (Utf8.byte_val c <? Utf8.RuneSelf) && all_ascii rest
  end.

(** The bytes of a numeral with an optional sign. *)
Definition numeral_byte (c : ascii) : bool :=
  is_digit c || Ascii.eqb c "+" || Ascii.eqb c "-".

Fixpoint numeral_text (s : string) : bool :=
  match s with
  | EmptyString => true
  | String c rest => numeral_byte c && numeral_text rest
  end.

(** ** ScopeMetricsSlice of the vendored pdata package: RemoveIf *)

Module ScopeMetricsSlice.

(** The slice behind es.orig: nil, or the elements in order.  The elements
    are pointers to ScopeMetrics values; the model is generic in what an
    element is.  The capacity of the backing array is not modelled.  The type
    internal.State is declared outside the source file: the state is embedded
    as the flag that AssertMutable tests, and AssertMutable panics when the
    flag is not set. *)
Record t (A : Type) : Type := mk {
  orig : option (list A);
  mutable : bool
}.
Arguments mk {A} orig mutable.
Arguments orig {A} _.
Arguments mutable {A} _.

(** The loop of RemoveIf with todo turns left: i is the index of the turn,
    newLen the number of elements kept so far, l the backing array.  f is
    called on the element at i and is taken to look at this element alone;
    an element that stays is copied down to newLen unless it is there
    already. *)
Fixpoint removeIf_loop {A : Type} (f : A -> bool) (todo i newLen : nat) (l : list A)
  : outcome (list A * nat) :=
  match todo with
  | O => Ret (l, newLen)
  | S todo' =>
    match l !! i with
    | None => Panic "index out of range"
    | Some x =>
      if f x then removeIf_loop f todo' (S i) newLen l
      else if Nat.eqb newLen i then removeIf_loop f todo' (S i) (S newLen) l
      else if decide (newLen < length l)%nat
           then removeIf_loop f todo' (S i) (S newLen) (<[newLen := x]> l)
           else Panic "index out of range"
    end
  end.

(** es.RemoveIf(f), as the slice after the call. *)
Definition RemoveIf {A : Type} (es : t A) (f : A -> bool) : outcome (t A) :=
  if negb (mutable es) then Panic "invalid access to shared data"
  else
    match orig es with
    | None => Ret es
    | Some l =>
      r <-- removeIf_loop f (length l) 0 0 l ;;
      Ret (mk (Some (take (snd r) (fst r))) (mutable es))
    end.

End ScopeMetricsSlice.

(** * Facts *)

(** ** Strings *)

Module StringFacts.
Import GoStrings.

Lemma app_assoc_s (a b c : string) : (a +:+ b) +:+ c = a +:+ (b +:+ c).
Proof. induction a as [|x a IH]; simpl; congruence. Qed.

Lemma app_nil_r_s (a : string) : a +:+ EmptyString = a.
Proof. induction a as [|x a IH]; simpl; congruence. Qed.

Lemma length_app_s (a b : string) :
  String.length (a +:+ b) = (String.length a + String.length b)%nat.
Proof. induction a as [|x a IH]; simpl; congruence. Qed.

Lemma len_app (a b : string) : len (a +:+ b) = len a + len b.
Proof. unfold len. rewrite length_app_s. lia. Qed.

Lemma len_nonneg (a : string) : 0 <= len a.
Proof. unfold len. lia. Qed.

Lemma len_zero (a : string) : len a = 0 -> a = EmptyString.
Proof. destruct a; [reflexivity | unfold len; simpl; lia]. Qed.

Lemma drop_bytes_app (a b : string) : drop_bytes (String.length a) (a +:+ b) = b.
Proof. induction a as [|x a IH]; simpl; [now destruct b | exact IH]. Qed.

Lemma take_bytes_app (a b : string) : take_bytes (String.length a) (a +:+ b) = a.
Proof. induction a as [|x a IH]; simpl; [now destruct b | now rewrite IH]. Qed.

Lemma take_drop_bytes (n : nat) (s : string) : take_bytes n s +:+ drop_bytes n s = s.
Proof.
  revert s. induction n as [|n IH]; intros s; [reflexivity |].
  destruct s as [|x s]; simpl; [reflexivity | now rewrite IH].
Qed.

Lemma length_take_bytes (n : nat) (s : string) :
  (n <= String.length s)%nat -> String.length (take_bytes n s) = n.
Proof.
  revert s. induction n as [|n IH]; intros s Hn; [reflexivity |].
  destruct s as [|x s]; simpl in *; [lia | rewrite IH; lia].
Qed.

Lemma length_drop_bytes (n : nat) (s : string) :
  String.length (drop_bytes n s) = (String.length s - n)%nat.
Proof.
  revert s. induction n as [|n IH]; intros s; simpl; [lia |].
  destruct s as [|x s]; simpl; [reflexivity | apply IH].
Qed.

Lemma drop_bytes_add (n m : nat) (s : string) :
  drop_bytes m (drop_bytes n s) = drop_bytes (n + m) s.
Proof.
  revert s. induction n as [|n IH]; intros s; simpl; [reflexivity |].
  destruct s as [|x s]; [now destruct m | apply IH].
Qed.

Lemma slice_from_app (a b : string) : slice_from (a +:+ b) (len a) = b.
Proof. unfold slice_from, len. rewrite Nat2Z.id. apply drop_bytes_app. Qed.

Lemma slice_to_app (a b : string) : slice_to (a +:+ b) (len a) = a.
Proof. unfold slice_to, len. rewrite Nat2Z.id. apply take_bytes_app. Qed.

Lemma slice_from_0 (s : string) : slice_from s 0 = s.
Proof. reflexivity. Qed.

Lemma HasPrefix_app (p r : string) : HasPrefix (p +:+ r) p = true.
Proof.
  induction p as [|x p IH]; simpl; [reflexivity |].
  now rewrite Ascii.eqb_refl.
Qed.

Lemma HasPrefix_true (s p : string) :
  HasPrefix s p = true -> s = p +:+ drop_bytes (String.length p) s.
Proof.
  revert s. induction p as [|x p IH]; intros s H; [reflexivity |].
  destruct s as [|y s]; simpl in H; [discriminate |].
  destruct (Ascii.eqb_spec x y) as [->|]; [|discriminate].
  simpl. f_equal. now apply IH.
Qed.

Lemma HasPrefix_iff (s p : string) :
  HasPrefix s p = true <-> exists r, s = p +:+ r.
Proof.
  split.
  - intros H. eexists. now apply HasPrefix_true.
  - intros [r ->]. apply HasPrefix_app.
Qed.

(** A prefix test looks at no more bytes than the prefix has. *)
Lemma HasPrefix_app_l (a r p : string) :
  (String.length p <= String.length a)%nat ->
  HasPrefix (a +:+ r) p = HasPrefix a p.
Proof.
  revert a. induction p as [|x p IH]; intros a Hl; [reflexivity |].
  destruct a as [|y a]; simpl in *; [lia |].
  destruct (Ascii.eqb x y); [apply IH; lia | reflexivity].
Qed.

Lemma has_byte_cons (c x : ascii) (s : string) :
  has_byte c (String x s) <-> x = c \/ has_byte c s.
Proof.
  split.
  - intros [a [b H]]. destruct a as [|y a]; simpl in H.
    + left. congruence.
    + right. exists a, b. congruence.
  - intros [-> | [a [b ->]]].
    + exists EmptyString, s. reflexivity.
    + exists (String x a), b. reflexivity.
Qed.

Lemma lacks_nil (c : ascii) : lacks c EmptyString.
Proof. intros [a [b H]]. destruct a; discriminate. Qed.

Lemma lacks_cons (c x : ascii) (s : string) :
  lacks c (String x s) <-> x <> c /\ lacks c s.
Proof. unfold lacks. rewrite has_byte_cons. tauto. Qed.

Lemma index_byte_None (s : string) (c : ascii) :
  index_byte s c = None <-> lacks c s.
Proof.
  induction s as [|x s IH]; simpl.
  - split; [intros _; apply lacks_nil | reflexivity].
  - rewrite lacks_cons. destruct (Ascii.eqb_spec x c) as [->|Hne].
    + split; [discriminate | tauto].
    + destruct (index_byte s c); simpl.
      * split; [discriminate |]. intros [_ H]. apply IH in H. discriminate.
      * split; [|reflexivity]. intros _. split; [assumption | now apply IH].
Qed.

Lemma index_byte_app (a b : string) (c : ascii) :
  lacks c a -> index_byte (a +:+ String c b) c = Some (String.length a).
Proof.
  induction a as [|x a IH]; simpl; intros H.
  - now rewrite Ascii.eqb_refl.
  - apply lacks_cons in H as [Hne H].
    destruct (Ascii.eqb_spec x c); [contradiction |].
    now rewrite IH.
Qed.

Lemma index_byte_Some (s : string) (c : ascii) (n : nat) :
  index_byte s c = Some n ->
  exists a b, s = a +:+ String c b /\ String.length a = n /\ lacks c a.
Proof.
  revert n. induction s as [|x s IH]; simpl; intros n H; [discriminate |].
  destruct (Ascii.eqb_spec x c) as [->|Hne].
  - injection H as <-. exists EmptyString, s. repeat split. apply lacks_nil.
  - destruct (index_byte s c) as [m|]; simpl in H; [|discriminate].
    injection H as <-. destruct (IH m eq_refl) as [a [b [-> [<- Hl]]]].
    exists (String x a), b. repeat split. now apply lacks_cons.
Qed.

Lemma IndexByte_lacks (s : string) (c : ascii) :
  (IndexByte s c <? 0) = true <-> lacks c s.
Proof.
  unfold IndexByte. rewrite <- index_byte_None.
  destruct (index_byte s c); split; intros H; try discriminate; try reflexivity.
  apply Z.ltb_lt in H. lia.
Qed.

Lemma IndexByte_app (a b : string) (c : ascii) :
  lacks c a -> IndexByte (a +:+ String c b) c = len a.
Proof. intros H. unfold IndexByte. now rewrite index_byte_app. Qed.

(** A string with the byte c splits at the first c, and IndexByte and the
    slices of the code find the two parts. *)
Lemma IndexByte_split (s : string) (c : ascii) :
  (IndexByte s c <? 0) = false ->
  exists a b, s = a +:+ String c b /\ lacks c a /\
              IndexByte s c = len a /\
              slice_to s (IndexByte s c) = a /\
              slice_from s (IndexByte s c + 1) = b.
Proof.
  intros H. unfold IndexByte in *.
  destruct (index_byte s c) as [n|] eqn:E; [|discriminate].
  destruct (index_byte_Some _ _ _ E) as [a [b [-> [<- Hl]]]].
  exists a, b. repeat split; try assumption.
  - apply slice_to_app.
  - replace (Z.of_nat (String.length a) + 1) with (len (a +:+ str1 c)).
    + replace (a +:+ String c b) with ((a +:+ str1 c) +:+ b).
      * apply slice_from_app.
      * rewrite app_assoc_s. reflexivity.
    + rewrite len_app. reflexivity.
Qed.

Lemma lacks_app (c : ascii) (a b : string) :
  lacks c (a +:+ b) <-> lacks c a /\ lacks c b.
Proof.
  induction a as [|x a IH]; simpl.
  - split; [intros H; split; [apply lacks_nil | assumption] | tauto].
  - rewrite !lacks_cons, IH. tauto.
Qed.

(** Index *)

Lemma index_from_unfold (s p : string) :
  index_from s p =
  if HasPrefix s p then Some O
  else match s with
       | EmptyString => None
       | String _ s' => S <$> index_from s' p
       end.
Proof. now destruct s. Qed.

Lemma index_from_bound (s p : string) (n : nat) :
  index_from s p = Some n -> (n + String.length p <= String.length s)%nat.
Proof.
  revert n. induction s as [|x s IH]; intros n; simpl.
  - destruct p; simpl; [intros [= <-]; simpl; lia | discriminate].
  - destruct (HasPrefix (String x s) p) eqn:E.
    + intros [= <-]. apply HasPrefix_true in E.
      apply (f_equal String.length) in E. rewrite length_app_s in E.
      simpl in *. lia.
    + destruct (index_from s p) as [m|]; simpl; [|discriminate].
      intros [= <-]. specialize (IH m eq_refl). simpl. lia.
Qed.

Lemma index_from_found (s p : string) (n : nat) :
  index_from s p = Some n -> HasPrefix (drop_bytes n s) p = true.
Proof.
  revert n. induction s as [|x s IH]; intros n; simpl.
  - destruct p; simpl; [intros [= <-]; reflexivity | discriminate].
  - destruct (HasPrefix (String x s) p) eqn:E.
    + intros [= <-]. exact E.
    + destruct (index_from s p) as [m|]; simpl; [|discriminate].
      intros [= <-]. simpl. now apply IH.
Qed.





Lemma Index_bound (s p : string) :
  0 <= Index s p -> Index s p + len p <= len s.
Proof.
  unfold Index, len. destruct (index_from s p) as [n|] eqn:E; [|lia].
  intros _. apply index_from_bound in E. lia.
Qed.

(** The first occurrence of p in v followed by p, when it is at the end of
    v, is the first occurrence in any longer string too. *)
Lemma index_from_app_first (v p r : string) :
  index_from (v +:+ p) p = Some (String.length v) ->
  index_from ((v +:+ p) +:+ r) p = Some (String.length v).
Proof.
  induction v as [|x v IH]; simpl.
  - intros _. now rewrite index_from_unfold, HasPrefix_app.
  - change (String x ((v +:+ p) +:+ r)) with (String x (v +:+ p) +:+ r).
    rewrite (HasPrefix_app_l (String x (v +:+ p)) r p)
      by (simpl; rewrite length_app_s; lia).
    simpl.
    destruct (HasPrefix (String x (v +:+ p)) p); [discriminate |].
    destruct (index_from (v +:+ p) p) as [m|] eqn:E; simpl; [|discriminate].
    intros [= ->]. now rewrite IH.
Qed.

Lemma Index_app_first (v p r : string) :
  Index (v +:+ p) p = len v -> Index (v +:+ p +:+ r) p = len v.
Proof.
  rewrite <- app_assoc_s.
  unfold Index, len. destruct (index_from (v +:+ p) p) as [n|] eqn:E; [|lia].
  intros H. apply Nat2Z.inj in H. subst n.
  now rewrite (index_from_app_first _ _ _ E).
Qed.

End StringFacts.

(** ** The pattern parser *)

Module ParserFacts.
Import GoStrings StringFacts.

Lemma slice_from_app_cons (a b : string) (c : ascii) :
  slice_from (a +:+ String c b) (len a + 1) = b.
Proof.
  replace (len a + 1) with (len (a +:+ str1 c)) by (rewrite len_app; reflexivity).
  replace (a +:+ String c b) with ((a +:+ str1 c) +:+ b)
    by (rewrite app_assoc_s; reflexivity).
  apply slice_from_app.
Qed.

Lemma len_ltb_0 (a : string) : (len a <? 0) = false.
Proof. apply Z.ltb_ge, len_nonneg. Qed.

Lemma len_eqb_0 (a : string) : (len a =? 0) = String.eqb a EmptyString.
Proof. destruct a; reflexivity. Qed.

(** hasNamedField after a step: it is set by a named field and never reset. *)
Lemma named_update (h : bool) (fld : string) :
  (if negb h && negb (String.eqb fld EmptyString) then true else h)
  = h || negb (String.eqb fld EmptyString).
Proof. destruct h, (String.eqb fld EmptyString); reflexivity. Qed.

(** One turn of the loop on a capture name f closed by a bracket. *)
Lemma parse_loop_turn (t : nat) (pfx f s' : string)
    (acc : list extractFormatStep) (h : bool) :
  lacks ">" f ->
  parse_loop (S t) pfx (f +:+ String ">" s') acc h =
  let acc' := acc ++ [mkStep pfx (normalize f)] in
  let h' := h || named_field f in
  if String.eqb s' EmptyString then Some (Break acc' h')
  else
    let n := IndexByte s' "<" in
    if n <? 0 then Some (Break (acc' ++ [mkStep s' EmptyString]) h')
    else if n =? 0 then Some (Fail ("missing delimiter after <" +:+ normalize f +:+ ">"))
    else parse_loop t (slice_to s' n) (slice_from s' (n + 1)) acc' h'.
Proof.
  intros Hf. cbn [parse_loop].
  rewrite (IndexByte_app f s' ">" Hf), len_ltb_0, slice_to_app, slice_from_app_cons.
  fold (normalize f). rewrite named_update, len_eqb_0. reflexivity.
Qed.

(** The loop runs through a chain of well-formed captures, one turn each. *)
Lemma parse_loop_chain (caps : list (string * string)) :
  inner_ok caps ->
  forall (t : nat) (pfx rest : string) (acc : list extractFormatStep) (h : bool),
    parse_loop (length caps + t) pfx (chain caps +:+ rest) acc h =
    parse_loop t (chain_last pfx caps) rest (acc ++ chain_steps pfx caps)
      (h || existsb named_field (map fst caps)).
Proof.
  induction 1 as [|[f p] caps [Hf [Hp Hlt]] Hcaps IH]; intros t pfx rest acc h.
  - simpl. now rewrite app_nil_r, orb_false_r.
  - simpl in Hf, Hp, Hlt.
    change (length ((f, p) :: caps) + t)%nat with (S (length caps + t)).
    change (chain ((f, p) :: caps) +:+ rest)
      with ((f +:+ String ">" (p +:+ String "<" (chain caps))) +:+ rest).
    rewrite app_assoc_s. change (String ">" (p +:+ String "<" (chain caps)) +:+ rest)
      with (String ">" ((p +:+ String "<" (chain caps)) +:+ rest)).
    rewrite app_assoc_s.
    change (String "<" (chain caps) +:+ rest) with (String "<" (chain caps +:+ rest)).
    rewrite parse_loop_turn by assumption. cbv zeta.
    destruct (String.eqb_spec (p +:+ String "<" (chain caps +:+ rest)) EmptyString) as [E|_].
    { destruct p; discriminate. }
    rewrite (IndexByte_app p _ "<" Hlt), len_ltb_0, len_eqb_0.
    destruct (String.eqb_spec p EmptyString) as [E|_]; [contradiction |].
    rewrite slice_to_app, slice_from_app_cons, IH.
    simpl. rewrite <- app_assoc, orb_assoc. reflexivity.
Qed.

Lemma chain_length (caps : list (string * string)) :
  (length caps <= String.length (chain caps))%nat.
Proof.
  induction caps as [|[f p] caps IH]; simpl; [lia |].
  rewrite length_app_s. simpl. rewrite length_app_s. simpl. lia.
Qed.

(** The turns given to the loop are enough to pass a chain and take one
    turn more. *)
Lemma turns_enough (caps : list (string * string)) (rest : string) :
  exists t, S (String.length (chain caps +:+ rest)) = (length caps + S t)%nat.
Proof.
  exists (String.length (chain caps +:+ rest) - length caps)%nat.
  pose proof (chain_length caps). rewrite length_app_s. lia.
Qed.

Lemma steps_of_chain_eq (pfx : string) (caps : list (string * string)) (f tl : string) :
  steps_of_chain pfx caps f tl =
  chain_steps pfx caps ++
  mkStep (chain_last pfx caps) (normalize f)
  :: (if String.eqb tl EmptyString then [] else [mkStep tl EmptyString]).
Proof.
  revert pfx. induction caps as [|[f1 p1] caps IH]; intros pfx; simpl;
    [reflexivity | now rewrite IH].
Qed.

Lemma parse_loop_unterminated (t : nat) (pfx r : string)
    (acc : list extractFormatStep) (h : bool) :
  lacks ">" r ->
  parse_loop (S t) pfx r acc h = Some (Fail ("missing '>' for <" +:+ r)).
Proof.
  intros Hr. cbn [parse_loop]. apply IndexByte_lacks in Hr. now rewrite Hr.
Qed.

Lemma parse_loop_delimiter (t : nat) (pfx f r : string)
    (acc : list extractFormatStep) (h : bool) :
  lacks ">" f ->
  parse_loop (S t) pfx (f +:+ "><" +:+ r) acc h =
  Some (Fail ("missing delimiter after <" +:+ normalize f +:+ ">")).
Proof.
  intros Hf. change (f +:+ "><" +:+ r) with (f +:+ String ">" (String "<" r)).
  rewrite parse_loop_turn by assumption. reflexivity.
Qed.

Lemma parse_loop_last (t : nat) (pfx f tl : string)
    (acc : list extractFormatStep) (h : bool) :
  lacks ">" f -> lacks "<" tl ->
  parse_loop (S t) pfx (f +:+ ">" +:+ tl) acc h =
  Some (Break (acc ++ mkStep pfx (normalize f)
                 :: (if String.eqb tl EmptyString then [] else [mkStep tl EmptyString]))
              (h || named_field f)).
Proof.
  intros Hf Ht. change (f +:+ ">" +:+ tl) with (f +:+ String ">" tl).
  rewrite parse_loop_turn by assumption. cbv zeta.
  destruct (String.eqb tl EmptyString); [reflexivity |].
  apply IndexByte_lacks in Ht. rewrite Ht. now rewrite <- app_assoc.
Qed.

(** The function at a pattern split at its first opening bracket. *)
Lemma parse_at_bracket (d : string -> string) (p0 body : string) :
  lacks "<" p0 ->
  parseExtractFormatSteps d (p0 +:+ "<" +:+ body) =
  match parse_loop (S (String.length body)) p0 body [] false with
  | None => None
  | Some (Fail msg) => Some ([], Some msg)
  | Some (Break stepsAcc hasNamedField) =>
    if negb hasNamedField then Some ([], Some "missing named fields like <name>")
    else Some (unescape_steps d stepsAcc, None)
  end.
Proof.
  intros Hp. unfold parseExtractFormatSteps.
  change (p0 +:+ "<" +:+ body) with (p0 +:+ String "<" body).
  rewrite (IndexByte_app p0 body "<" Hp), len_ltb_0, slice_to_app, slice_from_app_cons.
  reflexivity.
Qed.

Lemma parse_missing_fields (d : string -> string) (s : string) :
  missing_fields s ->
  parseExtractFormatSteps d s = Some ([], Some "missing <...> fields").
Proof.
  intros H. unfold parseExtractFormatSteps. apply IndexByte_lacks in H. now rewrite H.
Qed.

Lemma parse_unterminated (d : string -> string) (s : string) :
  unterminated s ->
  exists msg, parseExtractFormatSteps d s = Some ([], Some msg).
Proof.
  intros (p0 & caps & r & Hp & Hc & Hr & ->).
  rewrite parse_at_bracket by assumption.
  destruct (turns_enough caps r) as [t ->].
  rewrite parse_loop_chain, parse_loop_unterminated by assumption. eauto.
Qed.

Lemma parse_missing_delimiter (d : string -> string) (s : string) :
  missing_delimiter s ->
  exists msg, parseExtractFormatSteps d s = Some ([], Some msg).
Proof.
  intros (p0 & caps & f & r & Hp & Hc & Hf & ->).
  rewrite parse_at_bracket by assumption.
  destruct (turns_enough caps (f +:+ "><" +:+ r)) as [t ->].
  rewrite parse_loop_chain, parse_loop_delimiter by assumption. eauto.
Qed.

Lemma parse_complete (d : string -> string) (s p0 : string)
    (caps : list (string * string)) (f tl : string) :
  complete s p0 caps f tl ->
  parseExtractFormatSteps d s =
  if existsb named_field (map fst caps ++ [f])
  then Some (unescape_steps d (steps_of_chain p0 caps f tl), None)
  else Some ([], Some "missing named fields like <name>").
Proof.
  intros (Hp & Hc & Hf & Ht & ->).
  rewrite parse_at_bracket by assumption.
  destruct (turns_enough caps (f +:+ ">" +:+ tl)) as [t ->].
  rewrite parse_loop_chain, parse_loop_last by assumption.
  rewrite steps_of_chain_eq, existsb_app. simpl.
  rewrite orb_false_r.
  now destruct (existsb named_field (map fst caps) || named_field f).
Qed.

Lemma anonymous_named_field (f : string) : anonymous f <-> named_field f = false.
Proof.
  unfold anonymous, named_field, normalize.
  destruct (String.eqb_spec f "_") as [->|H1]; [simpl; tauto |].
  destruct (String.eqb_spec f "*") as [->|H2]; [simpl; tauto |].
  simpl. destruct (String.eqb_spec f EmptyString) as [->|H3]; simpl; [tauto |].
  split; [intros [?|[?|?]]; contradiction | discriminate].
Qed.

Lemma all_anonymous (fs : list string) :
  Forall anonymous fs <-> existsb named_field fs = false.
Proof.
  induction fs as [|f fs IH]; simpl.
  - split; [reflexivity | constructor].
  - rewrite Forall_cons, orb_false_iff, IH, anonymous_named_field. reflexivity.
Qed.

Lemma body_shape_step (f p body : string) :
  lacks ">" f -> p <> EmptyString -> lacks "<" p ->
  body_shape body -> body_shape (f +:+ ">" +:+ p +:+ "<" +:+ body).
Proof.
  intros Hf Hp Hlt Hb.
  assert (Hok : forall caps, inner_ok caps -> inner_ok ((f, p) :: caps))
    by (intros caps Hc; constructor; [simpl; auto | exact Hc]).
  destruct Hb as [(caps & r & Hc & Hr & ->) | [(caps & g & r & Hc & Hg & ->)
                                            | (caps & g & tl & Hc & Hg & Ht & ->)]].
  - left. exists ((f, p) :: caps), r. split; [auto | split; [assumption |]].
    simpl. now repeat (rewrite app_assoc_s; simpl).
  - right; left. exists ((f, p) :: caps), g, r. split; [auto | split; [assumption |]].
    simpl. now repeat (rewrite app_assoc_s; simpl).
  - right; right. exists ((f, p) :: caps), g, tl.
    split; [auto | split; [assumption | split; [assumption |]]].
    simpl. now repeat (rewrite app_assoc_s; simpl).
Qed.

Lemma body_shape_total (n : nat) (body : string) :
  (String.length body <= n)%nat -> body_shape body.
Proof.
  revert body. induction n as [|n IH]; intros body Hn.
  - destruct body; [|simpl in Hn; lia].
    left. exists [], EmptyString. repeat split; [constructor | apply lacks_nil].
  - destruct (IndexByte body ">" <? 0) eqn:E.
    + left. exists [], body. apply IndexByte_lacks in E.
      repeat split; [constructor | assumption].
    + destruct (IndexByte_split _ _ E) as (f & s' & -> & Hf & _).
      destruct (IndexByte s' "<" <? 0) eqn:E2.
      * right; right. exists [], f, s'. apply IndexByte_lacks in E2.
        repeat split; [constructor | assumption | assumption].
      * destruct (IndexByte_split _ _ E2) as (p & body' & -> & Hp & _).
        destruct (String.eqb_spec p EmptyString) as [->|Hne].
        -- right; left. exists [], f, body'. repeat split; [constructor | assumption].
        -- apply (body_shape_step f p body' Hf Hne Hp). apply IH.
           rewrite length_app_s in Hn. simpl in Hn. rewrite length_app_s in Hn.
           simpl in Hn. lia.
Qed.

(** Every pattern has one of the four shapes. *)
Lemma pattern_shape (s : string) :
  missing_fields s \/ unterminated s \/ missing_delimiter s \/
  exists p0 caps f tl, complete s p0 caps f tl.
Proof.
  destruct (IndexByte s "<" <? 0) eqn:E.
  - left. now apply IndexByte_lacks.
  - destruct (IndexByte_split _ _ E) as (p0 & body & -> & Hp & _).
    destruct (body_shape_total _ body (Nat.le_refl _))
      as [(caps & r & Hc & Hr & ->) | [(caps & g & r & Hc & Hg & ->)
                                      | (caps & g & tl & Hc & Hg & Ht & ->)]].
    + right; left. exists p0, caps, r. auto.
    + right; right; left. exists p0, caps, g, r. auto.
    + right; right; right. exists p0, caps, g, tl. repeat split; assumption.
Qed.

End ParserFacts.

Import GoStrings StringFacts ParserFacts.

(** C2: parseExtractFormatSteps returns a result for every pattern; it
    returns an error if and only if the pattern has no opening bracket, or the
    opening bracket of a capture has no closing bracket after it, or two
    captures have a literal of length zero between them, or no capture has a
    name; an error comes with no steps; and a pattern of none of these shapes
    yields its ordered steps, and only such a pattern yields steps. *)
Theorem parse_error_iff (d : string -> string) (s : string) :
  (exists r, parseExtractFormatSteps d s = Some r) /\
  ((exists sts msg, parseExtractFormatSteps d s = Some (sts, Some msg)) <->
   missing_fields s \/ unterminated s \/ missing_delimiter s \/ no_named s) /\
  (forall sts msg, parseExtractFormatSteps d s = Some (sts, Some msg) -> sts = []) /\
  (forall p0 caps f tl,
      complete s p0 caps f tl -> ~ Forall anonymous (map fst caps ++ [f]) ->
      parseExtractFormatSteps d s =
      Some (unescape_steps d (steps_of_chain p0 caps f tl), None)) /\
  (forall sts,
      parseExtractFormatSteps d s = Some (sts, None) ->
      exists p0 caps f tl,
        complete s p0 caps f tl /\ ~ Forall anonymous (map fst caps ++ [f]) /\
        sts = unescape_steps d (steps_of_chain p0 caps f tl)).
Proof.
  assert (Hnamed : forall p0 caps f tl,
             complete s p0 caps f tl -> ~ Forall anonymous (map fst caps ++ [f]) ->
             parseExtractFormatSteps d s =
             Some (unescape_steps d (steps_of_chain p0 caps f tl), None)).
  { intros p0 caps f tl Hc Hn. rewrite (parse_complete d _ _ _ _ _ Hc).
    destruct (existsb named_field (map fst caps ++ [f])) eqn:E; [reflexivity |].
    apply all_anonymous in E. contradiction. }
  assert (Hanon : forall p0 caps f tl,
             complete s p0 caps f tl -> Forall anonymous (map fst caps ++ [f]) ->
             parseExtractFormatSteps d s =
             Some ([], Some "missing named fields like <name>")).
  { intros p0 caps f tl Hc Hn. rewrite (parse_complete d _ _ _ _ _ Hc).
    apply all_anonymous in Hn. now rewrite Hn. }
  assert (Hdec : forall fs, Forall anonymous fs \/ ~ Forall anonymous fs).
  { intros fs. destruct (existsb named_field fs) eqn:E.
    - right. rewrite all_anonymous. congruence.
    - left. now apply all_anonymous. }
  pose proof (pattern_shape s) as Hshape.
  split; [|split; [|split; [|split]]].
  - destruct Hshape as [H | [H | [H | (p0 & caps & f & tl & H)]]].
    + rewrite (parse_missing_fields d s H). eauto.
    + destruct (parse_unterminated d s H) as [msg ->]. eauto.
    + destruct (parse_missing_delimiter d s H) as [msg ->]. eauto.
    + destruct (Hdec (map fst caps ++ [f])) as [Ha | Ha].
      * rewrite (Hanon _ _ _ _ H Ha). eauto.
      * rewrite (Hnamed _ _ _ _ H Ha). eauto.
  - split.
    + intros (sts & msg & Hr).
      destruct Hshape as [H | [H | [H | (p0 & caps & f & tl & H)]]]; auto.
      destruct (Hdec (map fst caps ++ [f])) as [Ha | Ha].
      * right; right; right. exists p0, caps, f, tl. auto.
      * rewrite (Hnamed _ _ _ _ H Ha) in Hr. discriminate.
    + intros [H | [H | [H | (p0 & caps & f & tl & H & Ha)]]].
      * rewrite (parse_missing_fields d s H). eauto.
      * destruct (parse_unterminated d s H) as [msg ->]. eauto.
      * destruct (parse_missing_delimiter d s H) as [msg ->]. eauto.
      * rewrite (Hanon _ _ _ _ H Ha). eauto.
  - intros sts msg Hr.
    destruct Hshape as [H | [H | [H | (p0 & caps & f & tl & H)]]].
    + rewrite (parse_missing_fields d s H) in Hr. congruence.
    + destruct (parse_unterminated d s H) as [m E]. congruence.
    + destruct (parse_missing_delimiter d s H) as [m E]. congruence.
    + destruct (Hdec (map fst caps ++ [f])) as [Ha | Ha].
      * rewrite (Hanon _ _ _ _ H Ha) in Hr. congruence.
      * rewrite (Hnamed _ _ _ _ H Ha) in Hr. discriminate.
  - exact Hnamed.
  - intros sts Hr.
    destruct Hshape as [H | [H | [H | (p0 & caps & f & tl & H)]]].
    + rewrite (parse_missing_fields d s H) in Hr. discriminate.
    + destruct (parse_unterminated d s H) as [m E]. congruence.
    + destruct (parse_missing_delimiter d s H) as [m E]. congruence.
    + destruct (Hdec (map fst caps ++ [f])) as [Ha | Ha].
      * rewrite (Hanon _ _ _ _ H Ha) in Hr. discriminate.
      * rewrite (Hnamed _ _ _ _ H Ha) in Hr. exists p0, caps, f, tl.
        repeat split; [apply H | apply H | apply H | apply H | apply H | assumption | congruence].
Qed.

(** ** The matcher *)

Module MatcherFacts.

Lemma store_ret (i : nat) (v : string) (ms : list string) :
  (i < length ms)%nat -> store i v ms = Ret (<[i:=v]> ms).
Proof. intros H. unfold store. now rewrite decide_True. Qed.

Lemma store_inv (i : nat) (v : string) (ms ms' : list string) :
  store i v ms = Ret ms' -> (i < length ms)%nat /\ ms' = <[i:=v]> ms.
Proof. unfold store. case_decide; [intros [= <-]; auto | discriminate]. Qed.

Lemma tryUnquoteString_unquoted (s : string) :
  starts_quoted s = false -> tryUnquoteString s = (s, 0, false).
Proof.
  destruct s as [|c s]; [reflexivity |]. simpl. intros H.
  apply orb_false_iff in H as [-> ->]. reflexivity.
Qed.

Lemma tryUnquoteString_quoted (s qp us : string) :
  starts_quoted s = true ->
  Strconv.QuotedPrefix s = Some qp -> Strconv.Unquote qp = Some us ->
  tryUnquoteString s = (us, len qp, true).
Proof.
  destruct s as [|c s]; [discriminate |]. intros H Hq Hu.
  unfold tryUnquoteString. rewrite Hq, Hu. simpl in H.
  destruct (Ascii.eqb c dquote), (Ascii.eqb c backtick); try discriminate; reflexivity.
Qed.

(** A successful tryUnquoteString comes from a quoted prefix of strconv. *)
Lemma tryUnquoteString_true (s us : string) (n : Z) :
  tryUnquoteString s = (us, n, true) ->
  exists qp, starts_quoted s = true /\ Strconv.QuotedPrefix s = Some qp /\
             Strconv.Unquote qp = Some us /\ n = len qp.
Proof.
  destruct s as [|c s]; [discriminate |]. unfold tryUnquoteString, starts_quoted.
  destruct (Ascii.eqb c dquote || Ascii.eqb c backtick) eqn:Eq.
  - replace (negb (Ascii.eqb c dquote) && negb (Ascii.eqb c backtick)) with false
      by (rewrite <- negb_orb, Eq; reflexivity).
    destruct (Strconv.QuotedPrefix (String c s)) as [qp|]; [|discriminate].
    destruct (Strconv.Unquote qp) as [u|] eqn:Eu; [|discriminate].
    intros [= <- <-]. eauto.
  - replace (negb (Ascii.eqb c dquote) && negb (Ascii.eqb c backtick)) with true
      by (rewrite <- negb_orb, Eq; reflexivity).
    discriminate.
Qed.

(** One turn of the loop, by the two branches of the source. *)
Lemma apply_loop_quoted (st : extractFormatStep) (rest' : list extractFormatStep)
    (i : nat) (s us : string) (n : Z) (ms : list string) :
  tryUnquoteString s = (us, n, true) ->
  apply_loop (st :: rest') i s ms =
  (ms' <-- store i us ms ;;
   if negb (HasPrefix (slice_from s n) (next_prefix rest')) then Ret ms'
   else apply_loop rest' (S i)
          (slice_from (slice_from s n) (len (next_prefix rest'))) ms').
Proof. intros H. cbn [apply_loop]. now rewrite H. Qed.

Lemma apply_loop_unquoted (st : extractFormatStep) (rest' : list extractFormatStep)
    (i : nat) (s us : string) (n : Z) (ms : list string) :
  tryUnquoteString s = (us, n, false) ->
  apply_loop (st :: rest') i s ms =
  if String.eqb (next_prefix rest') EmptyString then store i s ms
  else
    let k := Index s (next_prefix rest') in
    if k <? 0 then Ret ms
    else (ms' <-- store i (slice_to s k) ms ;;
          apply_loop rest' (S i) (slice_from s (k + len (next_prefix rest'))) ms').
Proof. intros H. cbn [apply_loop]. now rewrite H. Qed.

(** The loop from turn i on returns when the matches have a slot for every
    step left; it keeps the length of the matches and writes to no slot
    below i. *)
Lemma apply_loop_returns (rest : list extractFormatStep) :
  forall (i : nat) (s : string) (ms : list string),
    (i + length rest <= length ms)%nat ->
    exists ms', apply_loop rest i s ms = Ret ms' /\
                length ms' = length ms /\
                forall j, (j < i)%nat -> ms' !! j = ms !! j.
Proof.
  induction rest as [|st rest' IH]; intros i s ms Hlen.
  - exists ms. auto.
  - simpl in Hlen.
    assert (Hst : forall v, store i v ms = Ret (<[i:=v]> ms))
      by (intros v; apply store_ret; lia).
    assert (Hframe : forall v j, (j < i)%nat -> <[i:=v]> ms !! j = ms !! j)
      by (intros v j Hj; apply list_lookup_insert_ne; lia).
    assert (Hnext : forall v s1,
               exists ms', apply_loop rest' (S i) s1 (<[i:=v]> ms) = Ret ms' /\
                           length ms' = length ms /\
                           forall j, (j < i)%nat -> ms' !! j = ms !! j).
    { intros v s1. destruct (IH (S i) s1 (<[i:=v]> ms)) as (ms' & E & Hl & Hf).
      - rewrite length_insert. lia.
      - exists ms'. rewrite length_insert in Hl. split; [exact E | split; [exact Hl |]].
        intros j Hj. rewrite Hf by lia. now apply Hframe. }
    destruct (tryUnquoteString s) as [[us n] [|]] eqn:E.
    + rewrite (apply_loop_quoted _ _ _ _ _ _ _ E), Hst. simpl.
      destruct (HasPrefix (slice_from s n) (next_prefix rest')); simpl.
      * apply Hnext.
      * exists (<[i:=us]> ms). rewrite length_insert. auto.
    + rewrite (apply_loop_unquoted _ _ _ _ _ _ _ E).
      destruct (String.eqb (next_prefix rest') EmptyString).
      * rewrite Hst. exists (<[i:=s]> ms). rewrite length_insert. auto.
      * cbv zeta. destruct (Index s (next_prefix rest') <? 0).
        -- exists ms. auto.
        -- rewrite Hst. simpl. apply Hnext.
Qed.

Lemma newExtractFormat_inv (sts : list extractFormatStep) (e : extractFormat) :
  newExtractFormat sts = Ret e ->
  sts <> [] /\ collect_fields sts 0 [] <> [] /\
  e = mkFormat sts (replicate (length sts) EmptyString) (collect_fields sts 0 []).
Proof.
  unfold newExtractFormat. destruct sts as [|st sts]; [discriminate |].
  cbn [length Nat.eqb].
  destruct (collect_fields (st :: sts) 0 []) as [|f fs] eqn:E; [discriminate |].
  cbn [length Nat.eqb]. intros [= <-]. repeat split; discriminate.
Qed.

Lemma newExtractFormat_ok (sts : list extractFormatStep) (e : extractFormat) :
  newExtractFormat sts = Ret e -> matcher_ok e /\ steps e = sts.
Proof.
  intros H. apply newExtractFormat_inv in H as (Hne & _ & ->).
  repeat split; [exact Hne | simpl; apply length_replicate].
Qed.

(** apply looks at the steps, the fields and the number of slots only. *)
Lemma apply_similar (e1 e2 : extractFormat) (s : string) :
  similar e1 e2 -> apply e1 s = apply e2 s.
Proof.
  intros (Hs & Hf & Hl). unfold apply, clear. now rewrite Hs, Hf, Hl.
Qed.

Lemma apply_returns (e : extractFormat) (s : string) :
  matcher_ok e ->
  exists e', apply e s = Ret e' /\ matcher_ok e' /\ similar e' e.
Proof.
  intros [Hne Hlen]. unfold apply.
  destruct (steps e) as [|st0 rest'] eqn:Es; [contradiction |].
  assert (Hc : length (clear (matches e)) = length (st0 :: rest'))
    by (unfold clear; rewrite length_replicate; exact Hlen).
  assert (Hloop : forall s1, exists e',
             (ms' <-- apply_loop (st0 :: rest') 0 s1 (clear (matches e)) ;;
              Ret (mkFormat (st0 :: rest') ms' (fields e))) = Ret e' /\
             matcher_ok e' /\ similar e' e).
  { intros s1.
    destruct (apply_loop_returns (st0 :: rest') 0 s1 (clear (matches e)))
      as (ms' & E & Hl & _); [rewrite Hc; simpl; lia |].
    rewrite E. simpl. eexists. split; [reflexivity |].
    unfold matcher_ok, similar. simpl. rewrite Es, Hl, Hc.
    unfold clear in Hc. rewrite length_replicate in Hc.
    repeat split; try discriminate; try reflexivity. simpl. now rewrite Hc. }
  destruct (negb (String.eqb (prefix st0) EmptyString)).
  - destruct (Index s (prefix st0) <? 0).
    + eexists. split; [reflexivity |]. unfold matcher_ok, similar. simpl.
      rewrite Es, Hc. unfold clear in Hc. rewrite length_replicate in Hc.
      repeat split; try discriminate; try reflexivity. simpl. now rewrite Hc.
    + apply Hloop.
  - apply Hloop.
Qed.


(** The input at the first occurrence of a literal that it starts with. *)
Lemma Index_at_start (p r : string) : Index (p +:+ r) p = 0.
Proof. unfold Index. now rewrite index_from_unfold, HasPrefix_app. Qed.

Lemma render_next (sts : list extractFormatStep) (vals : list string) :
  length vals = length sts ->
  render sts vals = next_prefix sts +:+ render_tail sts vals.
Proof.
  destruct sts as [|st sts], vals as [|v vals]; try discriminate; reflexivity.
Qed.

(** The loop on an input built from the steps left and their values writes
    each value to the slot of its step. *)
Lemma apply_loop_render (sts : list extractFormatStep) :
  forall (vals : list string) (i : nat) (ms : list string),
    length vals = length sts ->
    (i + length sts <= length ms)%nat ->
    inner_prefixes_nonempty sts ->
    values_delimited sts vals ->
    apply_loop sts i (render_tail sts vals) ms =
    Ret (take i ms ++ vals ++ drop (i + length sts) ms).
Proof.
  induction sts as [|st sts' IH]; intros vals i ms Hl Hms Hne Hd.
  - destruct vals; [|discriminate]. simpl. rewrite Nat.add_0_r.
    now rewrite take_drop.
  - destruct vals as [|v vals']; [discriminate |].
    injection Hl as Hl. simpl in Hms. destruct Hd as (Hq & Hi & Hd).
    unfold inner_prefixes_nonempty in Hne. cbn [tail] in Hne.
    cbn [render_tail].
    destruct (tryUnquoteString (v +:+ render sts' vals')) as [[us n] b] eqn:E.
    simpl in Hq. subst b.
    rewrite (apply_loop_unquoted _ _ _ _ _ _ _ E).
    rewrite (render_next sts' vals' Hl).
    assert (Hupd : forall w, <[i:=w]> ms = take i ms ++ w :: drop (S i) ms)
      by (intros w; apply insert_take_drop; lia).
    destruct sts' as [|nxt sts''].
    + destruct vals'; [|discriminate]. cbn [next_prefix render_tail] in *.
      rewrite !app_nil_r_s in *.
      simpl. rewrite store_ret by lia. rewrite Hupd.
      now replace (i + 1)%nat with (S i) by lia.
    + cbn [next_prefix] in *. apply Forall_cons in Hne as [Hp Hne].
      change (Index (v +:+ prefix nxt) (prefix nxt) = len v) in Hi.
      destruct (String.eqb_spec (prefix nxt) EmptyString) as [E0|_]; [contradiction |].
      cbv zeta. rewrite (Index_app_first _ _ _ Hi), len_ltb_0, slice_to_app.
      rewrite store_ret by lia. cbn [bind].
      replace (slice_from (v +:+ prefix nxt +:+ render_tail (nxt :: sts'') vals')
                 (len v + len (prefix nxt)))
        with (render_tail (nxt :: sts'') vals').
      2:{ rewrite <- len_app, <- app_assoc_s. symmetry. apply slice_from_app. }
      rewrite IH; [| exact Hl | rewrite length_insert; simpl in *; lia
                   | exact Hne | exact Hd].
      f_equal.
      rewrite (take_S_r _ _ v) by (apply list_lookup_insert_eq; lia).
      rewrite take_insert_ge, drop_insert_lt by lia.
      rewrite <- app_assoc. simpl.
      now replace (i + S (S (length sts'')))%nat with (S (i + S (length sts''))) by lia.
Qed.

(** The loop from turn i on writes to no slot below i, whatever it ends in. *)
Lemma apply_loop_frame (rest : list extractFormatStep) :
  forall (i : nat) (s : string) (ms ms' : list string),
    apply_loop rest i s ms = Ret ms' ->
    forall j, (j < i)%nat -> ms' !! j = ms !! j.
Proof.
  induction rest as [|st rest' IH]; intros i s ms ms' Hr j Hj.
  - now injection Hr as <-.
  - assert (Hcont : forall v s1,
               apply_loop rest' (S i) s1 (<[i:=v]> ms) = Ret ms' -> ms' !! j = ms !! j).
    { intros v s1 Hr'. rewrite (IH _ _ _ _ Hr' j) by lia.
      apply list_lookup_insert_ne. lia. }
    destruct (tryUnquoteString s) as [[us n] [|]] eqn:E.
    + rewrite (apply_loop_quoted _ _ _ _ _ _ _ E) in Hr.
      destruct (store i us ms) as [ms1|] eqn:Es; [|discriminate].
      apply store_inv in Es as [Hi ->]. simpl in Hr.
      destruct (HasPrefix (slice_from s n) (next_prefix rest')); simpl in Hr.
      * now apply (Hcont _ _ Hr).
      * injection Hr as <-. apply list_lookup_insert_ne. lia.
    + rewrite (apply_loop_unquoted _ _ _ _ _ _ _ E) in Hr.
      destruct (String.eqb (next_prefix rest') EmptyString).
      * apply store_inv in Hr as [Hi ->]. apply list_lookup_insert_ne. lia.
      * cbv zeta in Hr. destruct (Index s (next_prefix rest') <? 0).
        -- now injection Hr as <-.
        -- destruct (store i (slice_to s (Index s (next_prefix rest'))) ms)
             as [ms1|] eqn:Es; [|discriminate].
           apply store_inv in Es as [Hi ->]. simpl in Hr.
           now apply (Hcont _ _ Hr).
Qed.

(** The fields of a matcher read the slots of their steps. *)
Lemma collect_fields_app (sts : list extractFormatStep) :
  forall (i : nat) (acc : list extractField),
    collect_fields sts i acc = acc ++ collect_fields sts i [].
Proof.
  induction sts as [|st sts IH]; intros i acc; simpl.
  - now rewrite app_nil_r.
  - destruct (negb (String.eqb (field st) EmptyString)).
    + cbn [app]. rewrite (IH (S i) (acc ++ _)), (IH (S i) [_]).
      now rewrite <- app_assoc.
    + apply IH.
Qed.

Lemma fields_read (sts : list extractFormatStep) :
  forall (vals pre : list string),
    length vals = length sts ->
    map (fun f => (name f, default EmptyString ((pre ++ vals) !! value f)))
        (collect_fields sts (length pre) []) =
    expected_fields sts vals.
Proof.
  induction sts as [|st sts IH]; intros vals pre Hl.
  - now destruct vals.
  - destruct vals as [|v vals]; [discriminate |]. injection Hl as Hl.
    cbn [collect_fields expected_fields]. rewrite collect_fields_app, map_app.
    specialize (IH vals (pre ++ [v]) Hl).
    rewrite length_app, <- app_assoc in IH. simpl in IH.
    replace (length pre + 1)%nat with (S (length pre)) in IH by lia.
    rewrite IH.
    destruct (negb (String.eqb (field st) EmptyString)); simpl; [|reflexivity].
    now rewrite list_lookup_middle.
Qed.

Lemma field_values_read (sts : list extractFormatStep) (vals : list string) :
  length vals = length sts ->
  field_values (mkFormat sts vals (collect_fields sts 0 [])) = expected_fields sts vals.
Proof. intros Hl. apply (fields_read sts vals [] Hl). Qed.

(** The rows of a shard *)

Lemma run_rows_similar (e1 e2 : extractFormat) (rows : list string) :
  similar e1 e2 -> run_rows e1 rows = run_rows e2 rows.
Proof.
  intros H. destruct rows as [|r rows]; [reflexivity |].
  simpl. now rewrite (apply_similar e1 e2 r H).
Qed.

Lemma similar_trans (e1 e2 e3 : extractFormat) :
  similar e1 e2 -> similar e2 e3 -> similar e1 e3.
Proof. unfold similar. intuition congruence. Qed.

Lemma run_rows_app (rows1 rows2 : list string) :
  forall e : extractFormat,
    matcher_ok e ->
    run_rows e (rows1 ++ rows2) =
    (o1 <-- run_rows e rows1 ;; o2 <-- run_rows e rows2 ;; Ret (o1 ++ o2)).
Proof.
  induction rows1 as [|r rows1 IH]; intros e Hok.
  - simpl. now destruct (run_rows e rows2).
  - simpl. destruct (apply_returns e r Hok) as (e' & -> & Hok' & Hsim). simpl.
    rewrite (IH e' Hok'), (run_rows_similar e' e rows2 Hsim).
    destruct (run_rows e' rows1); simpl; [|reflexivity].
    now destruct (run_rows e rows2).
Qed.

Lemma run_rows_returns (rows : list string) :
  forall e : extractFormat,
    matcher_ok e -> exists o, run_rows e rows = Ret o /\ length o = length rows.
Proof.
  induction rows as [|r rows IH]; intros e Hok.
  - exists []. auto.
  - simpl. destruct (apply_returns e r Hok) as (e' & -> & Hok' & _). simpl.
    destruct (IH e' Hok') as (o & -> & Hl). simpl. eexists. split; [reflexivity |].
    simpl. now rewrite Hl.
Qed.

Lemma make_shards_inv (n : nat) (sts : list extractFormatStep)
    (e : extractFormat) (shs : list pipeExtractProcessorShard) :
  newExtractFormat sts = Ret e ->
  make_shards n sts = Ret shs -> shs = replicate n (mkShard e).
Proof.
  intros He. revert shs. induction n as [|n IH]; intros shs; simpl.
  - now intros [= <-].
  - rewrite He. simpl. destruct (make_shards n sts) as [rest|]; [|discriminate].
    simpl. intros [= <-]. now rewrite (IH rest eq_refl).
Qed.

Lemma run_shards_concat (e : extractFormat) (parts : list (list string)) :
  matcher_ok e ->
  exists outs,
    run_shards (replicate (length parts) (mkShard e)) parts = Ret outs /\
    run_rows e (concat parts) = Ret (concat outs) /\
    Forall2 (fun out rows => length out = length rows) outs parts.
Proof.
  intros Hok. induction parts as [|rows parts (outs & E & Ec & Hl)].
  - exists []. simpl. auto.
  - destruct (run_rows_returns rows e Hok) as (o & Eo & Hlo).
    exists (o :: outs). simpl. rewrite Eo, E. simpl.
    rewrite (run_rows_app rows (concat parts) e Hok), Eo, Ec. simpl.
    repeat split. now constructor.
Qed.

(** The needed fields *)

Lemma remove_step_fields_subseteq (sts : list extractFormatStep) :
  forall (u : fieldsSet) (x : string), x ∈ remove_step_fields sts u -> x ∈ u.
Proof.
  induction sts as [|st sts IH]; intros u x; simpl; [auto |].
  intros H. apply IH in H.
  destruct (negb (String.eqb (field st) EmptyString)); [|exact H].
  unfold fs_remove in H. now apply elem_of_difference in H as [H _].
Qed.

Lemma remove_step_fields_gone (sts : list extractFormatStep) :
  forall (u : fieldsSet) (st : extractFormatStep),
    st ∈ sts -> field st <> EmptyString -> field st ∉ remove_step_fields sts u.
Proof.
  induction sts as [|st0 sts IH]; intros u st Hin Hne.
  - now apply not_elem_of_nil in Hin.
  - apply elem_of_cons in Hin as [-> | Hin]; simpl.
    + destruct (String.eqb_spec (field st0) EmptyString) as [E|_]; [contradiction |].
      simpl. intros H. apply remove_step_fields_subseteq in H.
      unfold fs_remove in H.
      apply elem_of_difference in H as [_ H]. apply H. now apply elem_of_singleton.
    + now apply IH.
Qed.

End MatcherFacts.

Import MatcherFacts.

(** * Properties of the extract pipe *)

(** ** Facts shared by the properties *)

Lemma has_named_steps_of_chain (pfx : string) (caps : list (string * string)) (f tl : string) :
  has_named_step (steps_of_chain pfx caps f tl) =
  existsb named_field (map fst caps ++ [f]).
Proof.
  revert pfx. induction caps as [|[f1 p1] caps IH]; intros pfx.
  - unfold has_named_step, named_field. simpl.
    destruct (String.eqb tl EmptyString); simpl; now rewrite ?orb_false_r.
  - unfold has_named_step in *. simpl. now rewrite IH.
Qed.

Lemma has_named_unescape (d : string -> string) (sts : list extractFormatStep) :
  has_named_step (unescape_steps d sts) = has_named_step sts.
Proof.
  unfold has_named_step, unescape_steps.
  induction sts as [|st sts IH]; simpl; [reflexivity | now rewrite IH].
Qed.

Lemma collect_fields_named (sts : list extractFormatStep) (i : nat) :
  has_named_step sts = true -> collect_fields sts i [] <> [].
Proof.
  revert i. induction sts as [|st sts IH]; intros i; [discriminate |].
  unfold has_named_step in *. simpl.
  destruct (negb (String.eqb (field st) EmptyString)); simpl.
  - intros _. rewrite collect_fields_app. discriminate.
  - apply IH.
Qed.

Lemma newExtractFormat_named (sts : list extractFormatStep) :
  sts <> [] -> has_named_step sts = true ->
  newExtractFormat sts = Ret (matcher_of sts).
Proof.
  intros Hne Hn. unfold newExtractFormat, matcher_of.
  destruct sts as [|st sts]; [contradiction |]. cbn [length Nat.eqb].
  pose proof (collect_fields_named (st :: sts) 0 Hn) as Hf.
  destruct (collect_fields (st :: sts) 0 []); [contradiction | reflexivity].
Qed.

(** The steps that a pattern parses to are those of a complete pattern with
    a named capture. *)
Lemma parse_success_inv (d : string -> string) (s : string) (sts : list extractFormatStep) :
  parseExtractFormatSteps d s = Some (sts, None) ->
  exists p0 caps f tl,
    complete s p0 caps f tl /\
    existsb named_field (map fst caps ++ [f]) = true /\
    sts = unescape_steps d (steps_of_chain p0 caps f tl).
Proof.
  intros Hr.
  destruct (pattern_shape s) as [H | [H | [H | (p0 & caps & f & tl & H)]]].
  - rewrite (parse_missing_fields d s H) in Hr. discriminate.
  - destruct (parse_unterminated d s H) as [m E]. congruence.
  - destruct (parse_missing_delimiter d s H) as [m E]. congruence.
  - rewrite (parse_complete d _ _ _ _ _ H) in Hr.
    destruct (existsb named_field (map fst caps ++ [f])) eqn:E; [|discriminate].
    exists p0, caps, f, tl. split; [exact H | split; [exact E | congruence]].
Qed.

(** ** C8 *)

(** C8: for every step list that parseExtractFormatSteps returns without an
    error, newExtractFormat passes both of its checks: the list is not empty
    and has a step with a field name, so the call returns a matcher and
    neither panic is reached. *)
Theorem parsed_steps_compile (d : string -> string) (s : string)
    (sts : list extractFormatStep) :
  parseExtractFormatSteps d s = Some (sts, None) ->
  sts <> [] /\
  Exists (fun st => field st <> EmptyString) sts /\
  newExtractFormat sts = Ret (matcher_of sts).
Proof.
  intros Hr.
  destruct (parse_success_inv d s sts Hr) as (p0 & caps & f & tl & _ & Hn & ->).
  rewrite <- (has_named_steps_of_chain p0 caps f tl), <- (has_named_unescape d) in Hn.
  assert (Hne : unescape_steps d (steps_of_chain p0 caps f tl) <> []).
  { destruct caps as [|[f1 p1] caps]; discriminate. }
  split; [exact Hne | split; [| now apply newExtractFormat_named]].
  unfold has_named_step in Hn. apply existsb_exists in Hn as (st & Hin & Hst).
  apply Exists_exists. exists st. split; [now apply list_elem_of_In |].
  intros E. rewrite E in Hst. discriminate.
Qed.

Lemma parsed_steps_compile_witness :
  parseExtractFormatSteps no_entities "ip=<ip> msg=<msg>" = Some (steps_ip_msg, None) /\
  newExtractFormat steps_ip_msg = Ret (matcher_of steps_ip_msg).
Proof.
  split; [vm_compute; reflexivity |].
  apply (parsed_steps_compile no_entities "ip=<ip> msg=<msg>" steps_ip_msg).
  vm_compute; reflexivity.
Defined.

(** ** C9 *)

(** C9: after updateNeededFields the source field of the pipe is in the
    needed set, and the field name of every named step is not in the
    unneeded set. *)
Theorem needed_fields_updated (p : pipeExtract) (neededFields unneededFields : fieldsSet) :
  pe_field p ∈ fst (updateNeededFields p neededFields unneededFields) /\
  forall st, st ∈ pe_steps p -> field st <> EmptyString ->
             field st ∉ snd (updateNeededFields p neededFields unneededFields).
Proof.
  split.
  - simpl. unfold fs_add. apply elem_of_union_l. now apply elem_of_singleton.
  - intros st Hin Hne. simpl. now apply remove_step_fields_gone.
Qed.

Lemma needed_fields_updated_witness :
  let p := mkPipe "_msg" steps_ip_msg "ip=<ip> msg=<msg>" in
  "ip" ∉ snd (updateNeededFields p ∅ {["ip"; "msg"; "_time"]}).
Proof.
  intros p.
  apply (proj2 (needed_fields_updated p ∅ {["ip"; "msg"; "_time"]}) (mkStep "ip=" "ip")).
  - apply list_elem_of_here.
  - discriminate.
Defined.

(** ** C5 *)

(** C5: apply clears every slot of the matches before it matches, so what
    the slots held before a call has no effect on the call: on a matcher made
    by newExtractFormat, apply on the same input a second time returns the
    same matcher state again, apply on s2 after apply on s1 returns what a
    fresh matcher returns on s2, and the same holds whatever the slots are
    filled with before the call. *)
Theorem apply_overwrites (sts : list extractFormatStep) (e e1 : extractFormat)
    (s1 s2 : string) :
  newExtractFormat sts = Ret e ->
  apply e s1 = Ret e1 ->
  apply e1 s1 = Ret e1 /\
  apply e1 s2 = apply e s2 /\
  (exists e2, apply e s2 = Ret e2) /\
  (forall ms, length ms = length (matches e) ->
     apply (mkFormat (steps e) ms (fields e)) s2 =
     apply (mkFormat (steps e) (clear ms) (fields e)) s2 /\
     apply (mkFormat (steps e) ms (fields e)) s2 = apply e s2).
Proof.
  intros Hnew H1.
  destruct (newExtractFormat_ok sts e Hnew) as [Hok _].
  destruct (apply_returns e s1 Hok) as (e1' & E1 & Hok1 & Hsim).
  rewrite E1 in H1. injection H1 as ->.
  repeat split.
  - now rewrite (apply_similar e1 e s1 Hsim).
  - now apply apply_similar.
  - destruct (apply_returns e s2 Hok) as (e2 & E2 & _). eauto.
  - apply apply_similar. unfold similar, clear. simpl.
    now rewrite length_replicate.
  - apply apply_similar. unfold similar. simpl. auto.
Qed.

Lemma apply_overwrites_witness :
  let e := matcher_of steps_ip_msg in
  let e1 := mkFormat steps_ip_msg ["1.2.3.4"; "ok"] (fields e) in
  apply e1 "ip=10.0.0.1 msg=down" = apply e "ip=10.0.0.1 msg=down".
Proof.
  intros e e1.
  refine (proj1 (proj2 (apply_overwrites steps_ip_msg e e1
           ("ip=" +:+ quoted "1.2.3.4" +:+ " msg=ok") "ip=10.0.0.1 msg=down" _ _))).
  - vm_compute; reflexivity.
  - vm_compute; reflexivity.
Defined.

(** ** C7 *)

(** Every row gets the values that a fresh matcher gives it, whatever rows
    the matcher has seen before. *)
Lemma run_rows_values (sts : list extractFormatStep) (e0 : extractFormat)
    (rows : list string) :
  newExtractFormat sts = Ret e0 ->
  forall e, matcher_ok e -> similar e e0 ->
            run_rows e rows = Ret (map (row_values sts) rows).
Proof.
  intros He0. induction rows as [|r rows IH]; intros e Hok Hsim; [reflexivity |].
  simpl. unfold row_values at 1. rewrite He0, <- (apply_similar e e0 r Hsim).
  destruct (apply_returns e r Hok) as (e' & -> & Hok' & Hsim'). simpl.
  now rewrite (IH e' Hok' (similar_trans _ _ _ Hsim' Hsim)).
Qed.

Lemma similar_refl (e : extractFormat) : similar e e.
Proof. unfold similar. auto. Qed.

(** C7: for every step list and every split of the rows into one list of
    rows for each of the N shards that newPipeProcessor makes from the steps,
    running every shard with its own matcher over its own rows returns, row
    for row, the captured values that one matcher made from the same steps
    returns when it runs over all the rows one after the other: in both runs
    the values of a row are those of a fresh matcher on that row, in whatever
    order the rows come. *)
Theorem shards_agree_with_one_matcher (p : pipeExtract) (next : pipeProcessor)
    (pep : pipeExtractProcessor) (e1 : extractFormat) (parts : list (list string)) :
  newPipeProcessor p (length parts) next = Ret pep ->
  newExtractFormat (pe_steps p) = Ret e1 ->
  (exists outs,
      run_shards (shards pep) parts = Ret outs /\
      run_rows e1 (concat parts) = Ret (concat outs) /\
      outs = map (map (row_values (pe_steps p))) parts) /\
  (forall rows, run_rows e1 rows = Ret (map (row_values (pe_steps p)) rows)).
Proof.
  intros Hp He. unfold newPipeProcessor in Hp.
  destruct (make_shards (length parts) (pe_steps p)) as [shs|] eqn:Es; [|discriminate].
  injection Hp as <-. simpl.
  rewrite (make_shards_inv _ _ _ _ He Es).
  destruct (newExtractFormat_ok _ _ He) as [Hok _].
  assert (Hrows : forall rows, run_rows e1 rows = Ret (map (row_values (pe_steps p)) rows)).
  { intros rows. apply (run_rows_values _ e1 rows He e1 Hok (similar_refl e1)). }
  split; [|exact Hrows].
  destruct (run_shards_concat e1 parts Hok) as (outs & E & Ec & _).
  exists outs. split; [exact E | split; [exact Ec |]].
  clear Ec Es. revert outs E.
  induction parts as [|rows parts IH]; intros outs E; simpl in E.
  - now injection E as <-.
  - rewrite Hrows in E. simpl in E.
    destruct (run_shards (replicate (length parts) (mkShard e1)) parts) as [outs'|];
      [|discriminate].
    simpl in E. injection E as <-. simpl. f_equal. now apply IH.
Qed.

Lemma shards_agree_with_one_matcher_witness :
  let p := mkPipe "_msg" steps_a_b "a=<x> b=<y>" in
  let parts := [["a=1 b=2"; "a=1"]; ["zzz"; "a=3 b=4"]] in
  exists outs,
    run_shards (replicate 2 (mkShard (matcher_of steps_a_b))) parts = Ret outs /\
    run_rows (matcher_of steps_a_b) (concat parts) = Ret (concat outs) /\
    outs = map (map (row_values steps_a_b)) parts.
Proof.
  intros p parts.
  refine (proj1 (shards_agree_with_one_matcher p (mkNext [])
           (mkProcessor p (mkNext []) (replicate 2 (mkShard (matcher_of steps_a_b))))
           (matcher_of steps_a_b) parts _ _)).
  - vm_compute; reflexivity.
  - vm_compute; reflexivity.
Defined.

(** ** C4 *)


(** The same pattern on an input where the value of x is quoted: the quoted
    capture is kept and y is empty. *)
Example mismatch_after_quoted_value :
  apply (matcher_of steps_a_b) ("a=" +:+ quoted "1")
  = Ret (mkFormat steps_a_b ["1"; EmptyString] (fields (matcher_of steps_a_b))).
Proof. vm_compute; reflexivity. Qed.


(** ** strconv on sample inputs *)

(** A double-quoted string with an escaped quote inside, followed by text:
    the prefix ends at the closing quote, and its value has the quote. *)
Example QuotedPrefix_escaped :
  let body := "a" +:+ str1 backslash +:+ str1 dquote +:+ "b" in
  Strconv.QuotedPrefix (quoted body +:+ " tail") = Some (quoted body) /\
  Strconv.Unquote (quoted body) = Some ("a" +:+ str1 dquote +:+ "b").
Proof. split; vm_compute; reflexivity. Qed.

(** Escape sequences: a newline, a byte in hexadecimal, a rune that takes two
    bytes in UTF-8. *)
Example Unquote_escapes :
  Strconv.Unquote (quoted (str1 backslash +:+ "n" +:+ str1 backslash +:+ "x41"
                           +:+ str1 backslash +:+ "u00e9"))
  = Some (String newline ("A" +:+ String (Utf8.byte_of 0xC3) (str1 (Utf8.byte_of 0xA9)))).
Proof. vm_compute; reflexivity. Qed.

(** A raw string keeps its backslashes. *)
Example Unquote_raw :
  let raw := String backtick ("a" +:+ str1 backslash +:+ "n" +:+ str1 backtick) in
  Strconv.QuotedPrefix (raw +:+ "tail") = Some raw /\
  Strconv.Unquote raw = Some ("a" +:+ str1 backslash +:+ "n").
Proof. split; vm_compute; reflexivity. Qed.

(** No closing quote, an unknown escape, a newline inside the quotes: all are
    syntax errors, and tryUnquoteString then reports no quoted string. *)
Example QuotedPrefix_rejects :
  Strconv.QuotedPrefix (String dquote "abc") = None /\
  Strconv.QuotedPrefix (quoted (str1 backslash +:+ "q")) = None /\
  Strconv.QuotedPrefix (quoted (String newline "a")) = None /\
  tryUnquoteString (String dquote "abc") = (String dquote "abc", 0, false).
Proof. repeat split; vm_compute; reflexivity. Qed.

(** ** Facts on strconv *)

Lemma slice_to_prefix (s : string) (k : Z) :
  s = slice_to s k +:+ slice_from s (len (slice_to s k)).
Proof.
  unfold slice_to, slice_from, len. rewrite Nat2Z.id.
  generalize (Z.to_nat k) as n. intros n. revert s.
  induction n as [|n IH]; intros s; [reflexivity |].
  destruct s as [|c s]; simpl; [reflexivity | now rewrite <- IH].
Qed.

(** What unquote returns without unescaping is a prefix of its input, cut
    by a slice. *)
Lemma unquote_raw_slice (s out rem : string) :
  Strconv.unquote s false = Some (out, rem) -> exists k, out = slice_to s k.
Proof.
  unfold Strconv.unquote.
  destruct (len s <? 2); [discriminate |].
  destruct s as [|q body]; [discriminate |].
  destruct (IndexByte body q <? 0); [discriminate |].
  cbv zeta. destruct (Ascii.eqb q backtick).
  - simpl negb. cbv iota. intros [= <- _]. eauto.
  - destruct (Ascii.eqb q dquote || Ascii.eqb q squote); [|discriminate].
    match goal with |- context [if ?b then Some _ else match _ with _ => _ end] =>
      destruct b end.
    + intros [= <- _]. eauto.
    + destruct (Strconv.unquote_chars _ _ _ _ _) as [[buf rest]|]; [|discriminate].
      destruct rest as [|c rest']; [discriminate |].
      destruct (negb (Ascii.eqb c q)); [discriminate |].
      intros [= <- _]. eauto.
Qed.

(** The quoted prefix is the start of the input: after it the input goes on
    with the bytes behind the span. *)
Lemma QuotedPrefix_is_prefix (s qp : string) :
  Strconv.QuotedPrefix s = Some qp -> s = qp +:+ slice_from s (len qp).
Proof.
  unfold Strconv.QuotedPrefix.
  destruct (Strconv.unquote s false) as [[out rem]|] eqn:E; [|discriminate].
  intros [= <-]. destruct (unquote_raw_slice _ _ _ E) as [k ->].
  apply slice_to_prefix.
Qed.

Lemma contains_lacks (s : string) (c : ascii) :
  lacks c s -> Strconv.contains s c = false.
Proof.
  intros H. apply IndexByte_lacks in H. unfold Strconv.contains.
  apply Z.ltb_lt in H. apply Z.leb_gt. exact H.
Qed.

Lemma lacks_quoted (c : ascii) (body : string) :
  c <> dquote -> lacks c body -> lacks c (quoted body).
Proof.
  intros Hc Hb. unfold quoted. apply lacks_cons. split; [congruence |].
  apply lacks_app. split; [exact Hb |]. apply lacks_cons.
  split; [congruence | apply lacks_nil].
Qed.

(** unquote on a plain double-quoted string followed by any text. *)
Lemma unquote_plain (body trailing : string) (unescape : bool) :
  plain_body body ->
  Strconv.unquote (quoted body +:+ trailing) unescape =
  Some (if unescape then body else quoted body, trailing).
Proof.
  intros (Hq & Hb & Hn & Hv). unfold Strconv.unquote.
  assert (Hlen : len (quoted body) = len body + 2).
  { unfold quoted. unfold len. simpl. rewrite length_app_s. simpl. lia. }
  assert (Hin : quoted body +:+ trailing = String dquote (body +:+ String dquote trailing)).
  { unfold quoted. simpl. rewrite app_assoc_s. reflexivity. }
  replace (len (quoted body +:+ trailing) <? 2) with false.
  2:{ symmetry. apply Z.ltb_ge. rewrite len_app, Hlen.
      pose proof (len_nonneg body). pose proof (len_nonneg trailing). lia. }
  rewrite Hin at 1. rewrite (IndexByte_app body trailing dquote Hq), len_ltb_0.
  cbv zeta.
  replace (Ascii.eqb dquote backtick) with false by reflexivity.
  replace (Ascii.eqb dquote dquote || Ascii.eqb dquote squote) with true by reflexivity.
  replace (Ascii.eqb dquote dquote) with true by reflexivity.
  rewrite <- Hlen, slice_to_app, slice_from_app.
  rewrite !contains_lacks by (apply lacks_quoted; [discriminate | assumption]).
  rewrite Hlen. replace (len body + 2 - 2) with (len body) by lia.
  replace (slice_from (quoted body +:+ trailing) 1) with (body +:+ String dquote trailing)
    by (rewrite Hin; reflexivity).
  rewrite slice_to_app, Hv. reflexivity.
Qed.

Lemma tryUnquoteString_plain (body trailing : string) :
  plain_body body ->
  tryUnquoteString (quoted body +:+ trailing) = (body, len (quoted body), true).
Proof.
  intros Hp. apply tryUnquoteString_quoted.
  - reflexivity.
  - unfold Strconv.QuotedPrefix. now rewrite (unquote_plain body trailing false Hp).
  - unfold Strconv.Unquote.
    rewrite <- (app_nil_r_s (quoted body)), (unquote_plain body EmptyString true Hp).
    reflexivity.
Qed.

(** ** C3 *)

(** C3: at a turn of apply where the input left starts with a quoted string
    that strconv accepts, the quoted prefix is the start of that input, the
    slot of the step gets the unquoted string and keeps it to the end of the
    call, and the loop goes on behind the quoted prefix only when the next
    prefix follows there, with that prefix dropped too; when it does not
    follow, the call ends with this one slot written and every later slot as
    it was, that is empty; and the pattern ip=<ip> msg=<msg> on the input
    ip=, quoted 1.2.3.4, msg=ok gives 1.2.3.4 for ip and ok for msg. *)
Theorem quoted_capture (st : extractFormatStep) (rest' : list extractFormatStep)
    (i : nat) (s qp us : string) (ms : list string) :
  (starts_quoted s = true ->
   Strconv.QuotedPrefix s = Some qp ->
   Strconv.Unquote qp = Some us ->
   (i + length (st :: rest') <= length ms)%nat ->
   s = qp +:+ slice_from s (len qp) /\
   exists ms',
     apply_loop (st :: rest') i s ms = Ret ms' /\
     ms' !! i = Some us /\
     (HasPrefix (slice_from s (len qp)) (next_prefix rest') = true ->
      apply_loop rest' (S i)
        (slice_from (slice_from s (len qp)) (len (next_prefix rest')))
        (<[i:=us]> ms) = Ret ms') /\
     (HasPrefix (slice_from s (len qp)) (next_prefix rest') = false ->
      ms' = <[i:=us]> ms /\
      ((forall j, (i < j < length ms)%nat -> ms !! j = Some EmptyString) ->
       forall j, (i < j < length ms)%nat -> ms' !! j = Some EmptyString))) /\
  (forall d, exists e0 e1,
      parseExtractFormatSteps d "ip=<ip> msg=<msg>" = Some (steps_ip_msg, None) /\
      newExtractFormat steps_ip_msg = Ret e0 /\
      apply e0 ("ip=" +:+ quoted "1.2.3.4" +:+ " msg=ok") = Ret e1 /\
      field_values e1 = [("ip", "1.2.3.4"); ("msg", "ok")]).
Proof.
  split.
  - intros Hs Hq Hu Hlen. split; [now apply QuotedPrefix_is_prefix |].
    simpl in Hlen.
    pose proof (tryUnquoteString_quoted s qp us Hs Hq Hu) as E.
    rewrite (apply_loop_quoted _ _ _ _ _ _ _ E), store_ret by lia. cbn [bind].
    destruct (HasPrefix (slice_from s (len qp)) (next_prefix rest')) eqn:Ep; cbn [negb].
    + destruct (apply_loop_returns rest' (S i)
                  (slice_from (slice_from s (len qp)) (len (next_prefix rest')))
                  (<[i:=us]> ms)) as (ms' & El & _ & Hf);
        [rewrite length_insert; lia |].
      exists ms'. split; [exact El | split; [| split; [auto | discriminate]]].
      rewrite Hf by lia. apply list_lookup_insert_eq. lia.
    + exists (<[i:=us]> ms). split; [reflexivity | split; [| split; [discriminate |]]].
      * apply list_lookup_insert_eq. lia.
      * intros _. split; [reflexivity |]. intros He j Hj.
        rewrite list_lookup_insert_ne by lia. now apply He.
  - intros d. exists (matcher_of steps_ip_msg). eexists.
    repeat split; vm_compute; reflexivity.
Qed.

Lemma quoted_capture_witness :
  exists ms',
    apply_loop steps_ip_msg 0 (quoted "1.2.3.4" +:+ " msg=ok")
      [EmptyString; EmptyString] = Ret ms' /\
    ms' !! 0%nat = Some "1.2.3.4".
Proof.
  destruct (proj1 (quoted_capture (mkStep "ip=" "ip") [mkStep " msg=" "msg"] 0
                     (quoted "1.2.3.4" +:+ " msg=ok") (quoted "1.2.3.4") "1.2.3.4"
                     [EmptyString; EmptyString]))
    as (_ & ms' & El & Hi & _).
  - vm_compute; reflexivity.
  - vm_compute; reflexivity.
  - vm_compute; reflexivity.
  - simpl; lia.
  - exists ms'. split; [exact El | exact Hi].
Defined.

(** ** C10 *)

(** C10: at the last step, when the input left starts with a quoted string
    that strconv accepts, apply captures the unquoted string and returns, and
    whatever follows the closing quote is dropped: for every plain
    double-quoted text and every text after it the capture is the text
    between the quotes; when tryUnquoteString does not accept the input
    left, the capture of the last step is all of that input. *)
Theorem last_step_capture (st : extractFormatStep) (i : nat) (s : string)
    (ms : list string) :
  ((i < length ms)%nat ->
   (forall qp us,
       starts_quoted s = true ->
       Strconv.QuotedPrefix s = Some qp ->
       Strconv.Unquote qp = Some us ->
       s = qp +:+ slice_from s (len qp) /\
       apply_loop [st] i s ms = Ret (<[i:=us]> ms)) /\
   (forall body trailing,
       plain_body body ->
       apply_loop [st] i (quoted body +:+ trailing) ms = Ret (<[i:=body]> ms)) /\
   (snd (tryUnquoteString s) = false ->
    apply_loop [st] i s ms = Ret (<[i:=s]> ms))) /\
  (exists e1 e2,
      apply (matcher_of steps_x_v) ("x=" +:+ quoted "a" +:+ " trailing text") = Ret e1 /\
      field_values e1 = [("v", "a")] /\
      apply (matcher_of steps_x_v) "x=a trailing text" = Ret e2 /\
      field_values e2 = [("v", "a trailing text")]).
Proof.
  split.
  - intros Hi.
    assert (Hq : forall s0 us n,
               tryUnquoteString s0 = (us, n, true) ->
               apply_loop [st] i s0 ms = Ret (<[i:=us]> ms)).
    { intros s0 us n E.
      rewrite (apply_loop_quoted _ _ _ _ _ _ _ E), store_ret by lia. reflexivity. }
    split; [|split].
    + intros qp us Hs Hqp Hu. split; [now apply QuotedPrefix_is_prefix |].
      apply (Hq s us (len qp)). now apply tryUnquoteString_quoted.
    + intros body trailing Hp.
      apply (Hq _ body (len (quoted body))). now apply tryUnquoteString_plain.
    + intros Hn. destruct (tryUnquoteString s) as [[us n] b] eqn:E.
      simpl in Hn. subst b.
      rewrite (apply_loop_unquoted _ _ _ _ _ _ _ E). simpl. now apply store_ret.
  - do 2 eexists. repeat split; vm_compute; reflexivity.
Qed.

Lemma last_step_capture_witness :
  apply_loop steps_x_v 0 (quoted "a" +:+ " trailing text") [EmptyString]
  = Ret [ "a" ].
Proof.
  refine (proj1 (proj2 (proj1 (last_step_capture (mkStep "x=" "v") 0
            (quoted "a" +:+ " trailing text") [EmptyString]) _))
            "a" " trailing text" _).
  - simpl; lia.
  - repeat split; apply index_byte_None; reflexivity.
Defined.

(** ** C6 *)

(** The values of the counterexample: pattern <x> <y>, the value of x a
    quoted a, the value of y the letter b. *)
Example roundtrip_quoted_value :
  let vals := [quoted "a"; "b"] in
  parseExtractFormatSteps no_entities "<x> <y>" = Some (steps_x_y, None) /\
  values_avoid_next steps_x_y vals /\
  apply (matcher_of steps_x_y) (render steps_x_y vals)
  = Ret (mkFormat steps_x_y ["a"; "b"] (fields (matcher_of steps_x_y))) /\
  expected_fields steps_x_y vals = [("x", quoted "a"); ("y", "b")].
Proof. repeat split; vm_compute; reflexivity. Qed.

(** A value that does not contain the next prefix and still is cut short:
    pattern <x>==<y>, the value of x ending in the first byte of the prefix. *)
Example roundtrip_overlapping_value :
  let sts := [mkStep EmptyString "x"; mkStep "==" "y"] in
  let vals := ["x="; "b"] in
  parseExtractFormatSteps no_entities "<x>==<y>" = Some (sts, None) /\
  values_avoid_next sts vals /\
  apply (matcher_of sts) (render sts vals)
  = Ret (mkFormat sts ["x"; "=b"] (fields (matcher_of sts))).
Proof. repeat split; vm_compute; reflexivity. Qed.

(** C6, as the spec states it, fails: the value of x is a quoted a, which
    does not contain the next prefix, and apply gives the unquoted a back. *)
Lemma roundtrip_as_stated_fails : ~ roundtrip_as_stated.
Proof.
  intros H.
  destruct (H no_entities "<x> <y>" steps_x_y [quoted "a"; "b"] (matcher_of steps_x_y))
    as (e' & Ha & Hf).
  - vm_compute; reflexivity.
  - reflexivity.
  - repeat split; vm_compute; reflexivity.
  - vm_compute; reflexivity.
  - assert (E : apply (matcher_of steps_x_y) (render steps_x_y [quoted "a"; "b"])
                = Ret (mkFormat steps_x_y ["a"; "b"] (fields (matcher_of steps_x_y))))
      by (vm_compute; reflexivity).
    rewrite E in Ha. injection Ha as <-. vm_compute in Hf. discriminate.
Qed.

(** The round trip on a step list whose literal prefixes after the first are
    not empty. *)
Lemma apply_render (sts : list extractFormatStep) (vals : list string)
    (e : extractFormat) :
  newExtractFormat sts = Ret e ->
  length vals = length sts ->
  inner_prefixes_nonempty sts ->
  values_delimited sts vals ->
  exists e',
    apply e (render sts vals) = Ret e' /\
    matches e' = vals /\
    field_values e' = expected_fields sts vals.
Proof.
  intros Hnew Hl Hne Hd.
  apply newExtractFormat_inv in Hnew as (Hnil & _ & ->).
  exists (mkFormat sts vals (collect_fields sts 0 [])).
  split; [| split; [reflexivity | now apply field_values_read]].
  unfold apply. cbn [steps matches fields].
  destruct sts as [|st0 rest']; [contradiction |].
  destruct vals as [|v0 vals']; [discriminate |].
  assert (Hloop : (ms' <-- apply_loop (st0 :: rest') 0
                             (render_tail (st0 :: rest') (v0 :: vals'))
                             (clear (replicate (length (st0 :: rest')) EmptyString)) ;;
                   Ret (mkFormat (st0 :: rest') ms' (collect_fields (st0 :: rest') 0 [])))
                  = Ret (mkFormat (st0 :: rest') (v0 :: vals')
                           (collect_fields (st0 :: rest') 0 []))).
  { rewrite apply_loop_render; try assumption.
    - cbn [bind]. rewrite take_0. cbn [app].
      rewrite drop_ge, app_nil_r; [reflexivity |].
      unfold clear. rewrite !length_replicate. lia.
    - unfold clear. rewrite !length_replicate. lia. }
  cbn [render]. fold (render_tail (st0 :: rest') (v0 :: vals')).
  destruct (String.eqb_spec (prefix st0) EmptyString) as [E|_]; cbn [negb].
  - rewrite E. exact Hloop.
  - rewrite Index_at_start. change (0 <? 0) with false. cbv iota.
    rewrite Z.add_0_l, slice_from_app. exact Hloop.
Qed.

(** The literal prefixes after the first one of a parsed pattern are not
    empty, as long as unescaping makes no literal empty. *)
Lemma steps_of_chain_nonempty (caps : list (string * string)) :
  inner_ok caps ->
  forall pfx f tl,
    pfx <> EmptyString ->
    Forall (fun st => prefix st <> EmptyString) (steps_of_chain pfx caps f tl).
Proof.
  induction 1 as [|[f1 p1] caps [_ [Hp _]] _ IH]; intros pfx f tl Hpfx; simpl.
  - constructor; [exact Hpfx |].
    destruct (String.eqb_spec tl EmptyString); constructor; [assumption | constructor].
  - constructor; [exact Hpfx | now apply IH].
Qed.

Lemma parsed_inner_prefixes (d : string -> string) (s : string)
    (sts : list extractFormatStep) :
  (forall x, x <> EmptyString -> d x <> EmptyString) ->
  parseExtractFormatSteps d s = Some (sts, None) ->
  inner_prefixes_nonempty sts.
Proof.
  intros Hd Hr.
  destruct (parse_success_inv d s sts Hr) as (p0 & caps & f & tl & Hc & _ & ->).
  destruct Hc as (_ & Hok & _ & _ & _).
  assert (Hu : forall l, Forall (fun st => prefix st <> EmptyString) l ->
                         Forall (fun st => prefix st <> EmptyString) (unescape_steps d l)).
  { induction 1 as [|st l Hst _ IH]; simpl; constructor; [|exact IH].
    simpl. unfold Html.UnescapeString.
    destruct (IndexByte (prefix st) "&" <? 0); [exact Hst | now apply Hd]. }
  assert (Ht : Forall (fun st => prefix st <> EmptyString)
                 (tail (steps_of_chain p0 caps f tl))).
  { destruct caps as [|[f1 p1] caps]; simpl.
    - destruct (String.eqb_spec tl EmptyString);
        [constructor | constructor; [assumption | constructor]].
    - apply Forall_cons in Hok as [[_ [Hp _]] Hok]. simpl in Hp.
      now apply steps_of_chain_nonempty. }
  unfold inner_prefixes_nonempty.
  replace (tail (unescape_steps d (steps_of_chain p0 caps f tl)))
    with (unescape_steps d (tail (steps_of_chain p0 caps f tl)))
    by (destruct (steps_of_chain p0 caps f tl); reflexivity).
  apply Hu, Ht.
Qed.

(** C6, amended: for every pattern that parses (unescaping making no
    literal empty) and every value for each of its steps such that no capture
    starts at a quoted string that tryUnquoteString accepts and, for every
    step but the last, the first place where the next literal prefix occurs
    in the value followed by that prefix is the end of the value, apply on
    the prefixes and values put together in order returns with exactly these
    values in the slots, and so in the named fields. *)
Theorem roundtrip_delimited (d : string -> string) (pattern : string)
    (sts : list extractFormatStep) (vals : list string) (e : extractFormat) :
  (forall x, x <> EmptyString -> d x <> EmptyString) ->
  parseExtractFormatSteps d pattern = Some (sts, None) ->
  newExtractFormat sts = Ret e ->
  length vals = length sts ->
  values_delimited sts vals ->
  exists e',
    apply e (render sts vals) = Ret e' /\
    matches e' = vals /\
    field_values e' = expected_fields sts vals.
Proof.
  intros Hd Hr Hnew Hl Hv.
  apply (apply_render sts vals e Hnew Hl); [|exact Hv].
  exact (parsed_inner_prefixes d pattern sts Hd Hr).
Qed.

Lemma roundtrip_delimited_witness :
  exists e',
    apply (matcher_of steps_ip_msg) (render steps_ip_msg ["10.0.0.1"; "down"]) = Ret e' /\
    matches e' = ["10.0.0.1"; "down"] /\
    field_values e' = expected_fields steps_ip_msg ["10.0.0.1"; "down"].
Proof.
  apply (roundtrip_delimited no_entities "ip=<ip> msg=<msg>" steps_ip_msg
           ["10.0.0.1"; "down"] (matcher_of steps_ip_msg)).
  - intros x Hx. exact Hx.
  - vm_compute; reflexivity.
  - vm_compute; reflexivity.
  - reflexivity.
  - repeat split; vm_compute; reflexivity.
Defined.

(** ** C1 *)

(** C1, on the code: writeBlock gives nothing to the next stage.  Whatever
    the block, the record of the blocks that the next stage has received is
    the same after the call as before it, where the contract has the block
    with the extracted columns added to it. *)
Theorem writeBlock_forwards_nothing (pep pep' : pipeExtractProcessor)
    (workerID : nat) (br : blockResult) :
  writeBlock pep workerID br = Ret pep' ->
  received (ppBase pep') = received (ppBase pep) /\
  received (ppBase pep') <> received (ppBase pep) ++ [(workerID, forwarded_block pep br)].
Proof.
  intros H.
  assert (E : received (ppBase pep') = received (ppBase pep)).
  { unfold writeBlock in H.
    destruct (Nat.eqb (length (timestamps br)) 0); [now injection H as <- |].
    destruct (shards pep !! workerID) as [sh|]; [|discriminate].
    destruct (apply_values (ef sh) _) as [e'|]; [|discriminate].
    now injection H as <-. }
  split; [exact E |]. rewrite E. intros Heq.
  apply (f_equal length) in Heq. rewrite length_app in Heq. simpl in Heq. lia.
Qed.

Lemma writeBlock_forwards_nothing_witness :
  let p := mkPipe "_msg" steps_a_b "a=<x> b=<y>" in
  let pep := mkProcessor p (mkNext []) [mkShard (matcher_of steps_a_b)] in
  let br := mkBlock [1700000000] [("_msg", ["a=1 b=2"])] in
  exists pep',
    writeBlock pep 0 br = Ret pep' /\
    received (ppBase pep') = [] /\
    forwarded_block pep br
    = mkBlock [1700000000] [("_msg", ["a=1 b=2"]); ("x", ["1"]); ("y", ["2"])].
Proof.
  intros p pep br. eexists. split; [vm_compute; reflexivity |].
  split; [| vm_compute; reflexivity].
  refine (proj1 (writeBlock_forwards_nothing pep _ 0 br _)).
  vm_compute; reflexivity.
Defined.

(** ** C2, at a pattern *)

Lemma parse_error_iff_witness :
  (exists sts msg,
      parseExtractFormatSteps no_entities "<a><b>" = Some (sts, Some msg)) /\
  parseExtractFormatSteps no_entities "ip=<ip> msg=<msg>" = Some (steps_ip_msg, None).
Proof.
  split.
  - apply (proj1 (proj2 (parse_error_iff no_entities "<a><b>"))).
    right; right; left. exists EmptyString, [], "a", "b>".
    repeat split; try (apply index_byte_None; reflexivity). constructor.
  - apply (proj1 (proj2 (proj2 (proj2 (parse_error_iff no_entities "ip=<ip> msg=<msg>"))))
             "ip=" [("ip", " msg=")] "msg" EmptyString).
    + repeat split; try (apply index_byte_None; reflexivity).
      repeat constructor; try (apply index_byte_None; reflexivity). discriminate.
    + intros Hf. apply Forall_cons in Hf as [[H | [H | H]] _]; discriminate.
Defined.

(** * More properties of the matcher *)

(** ** Facts on slices *)

Lemma lacks_slice_from (c : ascii) (s : string) (a : Z) :
  lacks c s -> lacks c (slice_from s a).
Proof.
  intros H. unfold slice_from.
  rewrite <- (take_drop_bytes (Z.to_nat a) s) in H. now apply lacks_app in H.
Qed.

Lemma quote_free_slice_from (s : string) (a : Z) :
  quote_free s -> quote_free (slice_from s a).
Proof. intros [H1 H2]. split; now apply lacks_slice_from. Qed.

Lemma quote_free_unquoted (s : string) :
  quote_free s -> tryUnquoteString s = (s, 0, false).
Proof.
  intros [H1 H2]. apply tryUnquoteString_unquoted.
  destruct s as [|c s]; [reflexivity |]. simpl.
  apply lacks_cons in H1 as [H1 _]. apply lacks_cons in H2 as [H2 _].
  destruct (Ascii.eqb_spec c dquote); [contradiction |].
  destruct (Ascii.eqb_spec c backtick); [contradiction | reflexivity].
Qed.

(** The input splits at the place that Index finds. *)
Lemma Index_split (s p : string) :
  0 <= Index s p ->
  s = slice_to s (Index s p) +:+ p +:+ slice_from s (Index s p + len p).
Proof.
  unfold Index, slice_to, slice_from, len.
  destruct (index_from s p) as [n|] eqn:E; [|lia]. intros _.
  rewrite <- Nat2Z.inj_add, !Nat2Z.id.
  pose proof (index_from_found _ _ _ E) as Hp. apply HasPrefix_true in Hp.
  rewrite drop_bytes_add in Hp.
  rewrite <- (take_drop_bytes n s) at 1. now rewrite Hp at 1.
Qed.

(** Index finds the first place: the substring starts nowhere before it. *)
Lemma index_from_least (s p : string) (n : nat) :
  index_from s p = Some n ->
  forall m, (m < n)%nat -> HasPrefix (drop_bytes m s) p = false.
Proof.
  revert n. induction s as [|x s IH]; intros n; simpl.
  - destruct p; simpl; [intros [= <-]; lia | discriminate].
  - destruct (HasPrefix (String x s) p) eqn:E.
    + intros [= <-]. lia.
    + destruct (index_from s p) as [k|]; simpl; [|discriminate].
      intros [= <-] m Hm. destruct m as [|m]; [exact E |].
      simpl. apply (IH k eq_refl). lia.
Qed.

Lemma drop_take_bytes (m n : nat) (s : string) :
  (m <= n)%nat ->
  drop_bytes m s = drop_bytes m (take_bytes n s) +:+ drop_bytes n s.
Proof.
  revert n s. induction m as [|m IH]; intros n s Hmn.
  - simpl. now rewrite take_drop_bytes.
  - destruct n as [|n]; [lia |]. destruct s as [|x s]; [reflexivity |].
    simpl. apply IH. lia.
Qed.

Lemma HasPrefix_take (s p : string) (n m : nat) :
  (m <= n)%nat ->
  HasPrefix (drop_bytes m (take_bytes n s)) p = true ->
  HasPrefix (drop_bytes m s) p = true.
Proof.
  intros Hmn H. apply HasPrefix_iff in H as [r Hr]. apply HasPrefix_iff.
  exists (r +:+ drop_bytes n s).
  now rewrite (drop_take_bytes m n s Hmn), Hr, app_assoc_s.
Qed.

(** What lies before the first occurrence does not contain the substring. *)
Lemma Index_before (s p : string) :
  p <> EmptyString -> 0 <= Index s p -> Index (slice_to s (Index s p)) p < 0.
Proof.
  intros Hp H0.
  destruct (index_from s p) as [n|] eqn:E;
    [| unfold Index in H0; rewrite E in H0; lia].
  assert (Hn : Index s p = Z.of_nat n) by (unfold Index; now rewrite E).
  rewrite Hn. unfold slice_to. rewrite Nat2Z.id. unfold Index.
  destruct (index_from (take_bytes n s) p) as [m|] eqn:E2; [|lia].
  exfalso. pose proof (index_from_bound _ _ _ E2) as Hb.
  pose proof (index_from_bound _ _ _ E) as Hb1.
  rewrite length_take_bytes in Hb by lia.
  assert (Hm : (m < n)%nat) by (destruct p; [contradiction | simpl in Hb; lia]).
  apply index_from_found, HasPrefix_take in E2; [|lia].
  now rewrite (index_from_least _ _ _ E m Hm) in E2.
Qed.

Lemma Index_empty_input (p : string) : p <> EmptyString -> Index EmptyString p < 0.
Proof. destruct p; [contradiction | intros _; reflexivity]. Qed.

Lemma substring_of_refl (s : string) : substring_of s s.
Proof. exists EmptyString, EmptyString. now rewrite app_nil_r_s. Qed.

Lemma substring_of_empty (s : string) : substring_of EmptyString s.
Proof. exists EmptyString, s. reflexivity. Qed.

Lemma substring_of_slice_to (s : string) (n : Z) : substring_of (slice_to s n) s.
Proof.
  exists EmptyString, (slice_from s n). unfold slice_to, slice_from.
  simpl. now rewrite take_drop_bytes.
Qed.

Lemma substring_of_slice_from (v s : string) (a : Z) :
  substring_of v (slice_from s a) -> substring_of v s.
Proof.
  intros (x & y & H). exists (slice_to s a +:+ x), y.
  rewrite app_assoc_s, <- H. unfold slice_to, slice_from.
  now rewrite take_drop_bytes.
Qed.

(** ** The loop of apply on an input without quotes *)

(** One turn on an input without quotes: the unquoted branch alone. *)
Lemma apply_loop_quote_free (st : extractFormatStep) (rest' : list extractFormatStep)
    (i : nat) (s : string) (ms : list string) :
  quote_free s ->
  apply_loop (st :: rest') i s ms =
  if String.eqb (next_prefix rest') EmptyString then store i s ms
  else
    let k := Index s (next_prefix rest') in
    if k <? 0 then Ret ms
    else (ms' <-- store i (slice_to s k) ms ;;
          apply_loop rest' (S i) (slice_from s (k + len (next_prefix rest'))) ms').
Proof. intros H. exact (apply_loop_unquoted _ _ _ _ _ _ _ (quote_free_unquoted s H)). Qed.

(** Every slot after the loop holds what it held before, or a run of bytes
    of the input. *)
Lemma apply_loop_substrings (rest : list extractFormatStep) :
  forall (i : nat) (s : string) (ms ms' : list string),
    quote_free s ->
    apply_loop rest i s ms = Ret ms' ->
    forall j v, ms' !! j = Some v -> ms !! j = Some v \/ substring_of v s.
Proof.
  induction rest as [|st rest' IH]; intros i s ms ms' Hq Hr j v Hv.
  - injection Hr as <-. now left.
  - rewrite (apply_loop_quote_free _ _ _ _ _ Hq) in Hr.
    assert (Hst : forall w ms1, store i w ms = Ret ms1 -> substring_of w s ->
                                ms1 !! j = Some v -> ms !! j = Some v \/ substring_of v s).
    { intros w ms1 Hs Hw H1. apply store_inv in Hs as [Hi ->].
      destruct (decide (i = j)) as [<-|Hne].
      - rewrite list_lookup_insert_eq in H1 by lia. injection H1 as <-. now right.
      - rewrite list_lookup_insert_ne in H1 by assumption. now left. }
    destruct (String.eqb (next_prefix rest') EmptyString).
    + apply (Hst s ms' Hr (substring_of_refl s) Hv).
    + cbv zeta in Hr. destruct (Index s (next_prefix rest') <? 0).
      * injection Hr as <-. now left.
      * destruct (store i _ ms) as [ms1|] eqn:Es; [|discriminate]. cbn [bind] in Hr.
        destruct (IH _ _ _ _ (quote_free_slice_from _ _ Hq) Hr j v Hv) as [H1 | H1].
        -- apply (Hst _ ms1 Es (substring_of_slice_to _ _) H1).
        -- right. now apply substring_of_slice_from in H1.
Qed.

(** With every slot from turn i on empty before the loop, the slot of a step
    that has a next step holds nothing that contains the prefix of that next
    step. *)
Lemma apply_loop_leftmost (rest : list extractFormatStep) :
  forall (i : nat) (s : string) (ms ms' : list string),
    quote_free s ->
    Forall (fun st => prefix st <> EmptyString) (tail rest) ->
    (forall j, (i <= j)%nat -> forall v, ms !! j = Some v -> v = EmptyString) ->
    apply_loop rest i s ms = Ret ms' ->
    forall j nxt v,
      (i <= j)%nat -> rest !! S (j - i) = Some nxt -> ms' !! j = Some v ->
      Index v (prefix nxt) < 0.
Proof.
  induction rest as [|st rest' IH]; intros i s ms ms' Hq Hne Hem Hr j nxt v Hij Hn Hv;
    [discriminate |].
  cbn [tail] in Hne. simpl in Hn.
  assert (Hnxt : prefix nxt <> EmptyString).
  { apply list_elem_of_lookup_2 in Hn. rewrite Forall_forall in Hne. now apply Hne. }
  assert (Hold : ms !! j = Some v -> Index v (prefix nxt) < 0).
  { intros H. rewrite (Hem j Hij v H). now apply Index_empty_input. }
  rewrite (apply_loop_quote_free _ _ _ _ _ Hq) in Hr.
  destruct (String.eqb_spec (next_prefix rest') EmptyString) as [E|E].
  { destruct rest' as [|n0 rest'']; [discriminate |].
    apply Forall_cons in Hne as [Hn0 _]. contradiction. }
  cbv zeta in Hr. destruct (Index s (next_prefix rest') <? 0) eqn:En.
  { injection Hr as <-. now apply Hold. }
  destruct (store i _ ms) as [ms1|] eqn:Es; [|discriminate]. cbn [bind] in Hr.
  apply store_inv in Es as [Hi ->].
  destruct (decide (i = j)) as [<-|Hij'].
  - rewrite Nat.sub_diag in Hn.
    destruct rest' as [|n0 rest'']; [discriminate |]. injection Hn as ->.
    rewrite (apply_loop_frame _ _ _ _ _ Hr i) in Hv by lia.
    rewrite list_lookup_insert_eq in Hv by lia. injection Hv as <-.
    apply Index_before; [exact Hnxt |]. apply Z.ltb_ge in En. exact En.
  - refine (IH (S i) _ _ ms' (quote_free_slice_from _ _ Hq) _ _ Hr j nxt v _ _ Hv).
    + destruct rest'; [constructor | now apply Forall_cons in Hne as [_ ?]].
    + intros j' Hj' w Hw. rewrite list_lookup_insert_ne in Hw by lia.
      apply (Hem j'); [lia | exact Hw].
    + lia.
    + replace (S (j - S i)) with (j - i)%nat by lia. exact Hn.
Qed.

(** When the slot of the last step is not empty after the loop, every turn
    has found its next prefix, and the input is the captured values with the
    prefixes between them. *)
Lemma apply_loop_sound (rest : list extractFormatStep) :
  forall (i : nat) (s : string) (ms ms' : list string) (v : string),
    quote_free s ->
    Forall (fun st => prefix st <> EmptyString) (tail rest) ->
    rest <> [] ->
    (forall j, (i <= j)%nat -> forall w, ms !! j = Some w -> w = EmptyString) ->
    apply_loop rest i s ms = Ret ms' ->
    ms' !! (i + length rest - 1)%nat = Some v -> v <> EmptyString ->
    s = render_tail rest (drop i ms').
Proof.
  induction rest as [|st rest' IH]; intros i s ms ms' v Hq Hne Hnil Hem Hr Hv Hnon;
    [contradiction |].
  cbn [tail] in Hne. simpl length in Hv.
  assert (Hlast : ms !! (i + S (length rest') - 1)%nat = Some v -> False).
  { intros H. apply Hnon, (Hem (i + S (length rest') - 1)%nat); [lia | exact H]. }
  rewrite (apply_loop_quote_free _ _ _ _ _ Hq) in Hr.
  destruct rest' as [|nxt rest''].
  - simpl in Hr. apply store_inv in Hr as [Hi ->].
    rewrite (drop_S _ s i) by (apply list_lookup_insert_eq; lia).
    simpl. now rewrite app_nil_r_s.
  - apply Forall_cons in Hne as [Hp Hne]. cbn [next_prefix] in Hr.
    destruct (String.eqb_spec (prefix nxt) EmptyString) as [E|_]; [contradiction |].
    cbv zeta in Hr. destruct (Index s (prefix nxt) <? 0) eqn:En.
    { injection Hr as <-. now apply Hlast in Hv. }
    destruct (store i _ ms) as [ms1|] eqn:Es; [|discriminate]. cbn [bind] in Hr.
    apply store_inv in Es as [Hi ->].
    assert (Hi' : ms' !! i = Some (slice_to s (Index s (prefix nxt)))).
    { rewrite (apply_loop_frame _ _ _ _ _ Hr i) by lia.
      apply list_lookup_insert_eq. lia. }
    rewrite (drop_S _ _ i Hi'). cbn [render_tail].
    assert (Hrest : slice_from s (Index s (prefix nxt) + len (prefix nxt))
                    = render_tail (nxt :: rest'') (drop (S i) ms')).
    { refine (IH (S i) _ _ ms' v (quote_free_slice_from _ _ Hq) _ _ _ Hr _ Hnon).
      - destruct rest''; [constructor | exact Hne].
      - discriminate.
      - intros j Hj w Hw. rewrite list_lookup_insert_ne in Hw by lia.
        apply (Hem j); [lia | exact Hw].
      - replace (S i + length (nxt :: rest'') - 1)%nat
          with (i + S (length (nxt :: rest'')) - 1)%nat by (simpl; lia).
        exact Hv. }
    apply Z.ltb_ge in En. rewrite (Index_split s (prefix nxt) En) at 1.
    rewrite Hrest. f_equal.
    destruct (drop (S i) ms') as [|w ws] eqn:Ed.
    + exfalso. apply (f_equal length) in Ed. rewrite length_drop in Ed. simpl in Ed.
      apply lookup_lt_Some in Hv. simpl in Hv. lia.
    + reflexivity.
Qed.

(** ** newExtractFormat and the fields of a matcher *)

Lemma collect_fields_unnamed (sts : list extractFormatStep) (i : nat) :
  has_named_step sts = false -> collect_fields sts i [] = [].
Proof.
  revert i. induction sts as [|st sts IH]; intros i; [reflexivity |].
  unfold has_named_step in *. simpl.
  destruct (negb (String.eqb (field st) EmptyString)); [discriminate |].
  apply IH.
Qed.

(** X1: newExtractFormat panics with its first message exactly on the empty
    step list, with its second message exactly on a step list that is not
    empty and has no step with a field name, and on every other step list it
    returns the matcher of these steps with one empty slot for every step. *)
Theorem newExtractFormat_cases (sts : list extractFormatStep) :
  (sts = [] -> newExtractFormat sts = Panic "BUG: steps cannot be empty") /\
  (sts <> [] -> has_named_step sts = false ->
   newExtractFormat sts = Panic "BUG: fields cannot be empty") /\
  (sts <> [] -> has_named_step sts = true ->
   newExtractFormat sts = Ret (matcher_of sts) /\
   matches (matcher_of sts) = replicate (length sts) EmptyString) /\
  (forall e, newExtractFormat sts = Ret e ->
             sts <> [] /\ has_named_step sts = true).
Proof.
  split; [|split; [|split]].
  - now intros ->.
  - intros Hne Hn. unfold newExtractFormat.
    destruct sts as [|st sts]; [contradiction |]. cbn [length Nat.eqb].
    now rewrite (collect_fields_unnamed _ 0 Hn).
  - intros Hne Hn. split; [now apply newExtractFormat_named | reflexivity].
  - intros e He. apply newExtractFormat_inv in He as (Hne & Hf & _).
    split; [exact Hne |].
    destruct (has_named_step sts) eqn:E; [reflexivity |].
    now rewrite (collect_fields_unnamed _ 0 E) in Hf.
Qed.

Lemma newExtractFormat_cases_witness :
  newExtractFormat [mkStep "x=" EmptyString; mkStep ";" EmptyString]
  = Panic "BUG: fields cannot be empty" /\
  newExtractFormat steps_a_b = Ret (matcher_of steps_a_b).
Proof.
  split.
  - apply (proj1 (proj2 (newExtractFormat_cases
                           [mkStep "x=" EmptyString; mkStep ";" EmptyString])));
      [discriminate | reflexivity].
  - apply (proj1 (proj2 (proj2 (newExtractFormat_cases steps_a_b))));
      [discriminate | reflexivity].
Defined.

(** X2: after any call of apply on a matcher from newExtractFormat, reading
    the fields of the matcher gives the named steps in the order of the
    steps, each with the string in the slot of its own step; the steps
    without a name are not among them. *)
Theorem fields_expose_named_steps (sts : list extractFormatStep)
    (e e' : extractFormat) (s : string) :
  newExtractFormat sts = Ret e ->
  apply e s = Ret e' ->
  length (matches e') = length sts /\
  field_values e' = expected_fields sts (matches e') /\
  map fst (field_values e') =
  filter (fun f => f <> EmptyString) (map field sts).
Proof.
  intros He Ha.
  destruct (newExtractFormat_ok _ _ He) as [Hok Hst].
  destruct (apply_returns e s Hok) as (e1 & E & [_ Hl] & (Hs & Hf & _)).
  rewrite E in Ha. injection Ha as <-.
  apply newExtractFormat_inv in He as (_ & _ & ->). simpl in *.
  rewrite Hs in Hl.
  assert (Hfv : field_values e1 = expected_fields sts (matches e1)).
  { rewrite <- (field_values_read sts (matches e1) Hl).
    unfold field_values. simpl. now rewrite Hf. }
  split; [exact Hl | split; [exact Hfv |]].
  rewrite Hfv. generalize (matches e1) Hl. clear.
  induction sts as [|st sts IH]; intros ms Hl; [now destruct ms |].
  destruct ms as [|m ms]; [discriminate |]. injection Hl as Hl.
  cbn [expected_fields map]. rewrite filter_cons.
  destruct (String.eqb_spec (field st) EmptyString) as [E|E]; simpl.
  - rewrite decide_False by (intros H; now apply H). now apply IH.
  - rewrite decide_True by assumption. simpl. f_equal. now apply IH.
Qed.

Lemma fields_expose_named_steps_witness :
  let sts := [mkStep EmptyString EmptyString; mkStep " " "name"] in
  exists e',
    apply (matcher_of sts) "skip kept" = Ret e' /\
    field_values e' = [("name", "kept")].
Proof.
  intros sts. eexists. split; [vm_compute; reflexivity |].
  refine (eq_trans (proj1 (proj2 (fields_expose_named_steps sts (matcher_of sts) _
                                    "skip kept" _ _))) _);
    vm_compute; reflexivity.
Defined.

(** ** tryUnquoteString *)

Lemma Unquote_length (qp us : string) :
  Strconv.Unquote qp = Some us -> 2 <= len qp.
Proof.
  unfold Strconv.Unquote, Strconv.unquote.
  destruct (len qp <? 2) eqn:E; [discriminate |]. intros _. now apply Z.ltb_ge.
Qed.

(** X3: tryUnquoteString either reports no quoted string, and then returns
    its input with the offset 0, or reports one, and then the offset is the
    length of a quoted prefix of the input: at least the two quotes, at most
    the whole input, so that the slice of apply at this offset is in range
    and strictly shorter than the input. *)
Theorem tryUnquoteString_offsets (s us : string) (n : Z) (b : bool) :
  tryUnquoteString s = (us, n, b) ->
  (b = false -> us = s /\ n = 0) /\
  (b = true ->
   2 <= n <= len s /\ starts_quoted s = true /\
   len (slice_from s n) < len s /\
   exists qp, s = qp +:+ slice_from s n /\ len qp = n /\
              Strconv.Unquote qp = Some us).
Proof.
  intros H. destruct b.
  - split; [discriminate |]. intros _.
    destruct (tryUnquoteString_true _ _ _ H) as (qp & Hs & Hq & Hu & ->).
    pose proof (QuotedPrefix_is_prefix _ _ Hq) as Hp.
    pose proof (Unquote_length _ _ Hu) as Hl.
    assert (Hlen : len s = len qp + len (slice_from s (len qp)))
      by (rewrite Hp at 1; apply len_app).
    pose proof (len_nonneg (slice_from s (len qp))).
    repeat split; try lia; try assumption. exists qp. auto.
  - split; [|discriminate]. intros _.
    destruct s as [|c s]; [now injection H as <- <- |].
    unfold tryUnquoteString in H.
    destruct (negb (Ascii.eqb c dquote) && negb (Ascii.eqb c backtick));
      [now injection H as <- <- |].
    destruct (Strconv.QuotedPrefix (String c s)) as [qp|]; [|now injection H as <- <-].
    destruct (Strconv.Unquote qp); [discriminate | now injection H as <- <-].
Qed.

Lemma tryUnquoteString_offsets_witness :
  2 <= len (quoted "a") <= len (quoted "a" +:+ " b").
Proof.
  refine (proj1 (proj2 (tryUnquoteString_offsets (quoted "a" +:+ " b") "a"
                          (len (quoted "a")) true _) eq_refl)).
  vm_compute; reflexivity.
Defined.

(** ** apply on an input without quotes *)

Lemma clear_empty (ms : list string) (j : nat) (w : string) :
  clear ms !! j = Some w -> w = EmptyString.
Proof. unfold clear. intros H. now apply lookup_replicate in H as [-> _]. Qed.

(** The inputs of the loop of apply, for the cases of the first prefix. *)
Lemma apply_cases (e e' : extractFormat) (s : string) (st0 : extractFormatStep)
    (rest' : list extractFormatStep) :
  steps e = st0 :: rest' ->
  apply e s = Ret e' ->
  (prefix st0 <> EmptyString /\ Index s (prefix st0) < 0 /\
   matches e' = clear (matches e)) \/
  (exists pre s1,
      s = pre +:+ prefix st0 +:+ s1 /\
      (prefix st0 = EmptyString -> pre = EmptyString) /\
      (prefix st0 <> EmptyString -> Index pre (prefix st0) < 0) /\
      (exists a, s1 = slice_from s a) /\
      apply_loop (st0 :: rest') 0 s1 (clear (matches e)) = Ret (matches e')).
Proof.
  intros Hs Ha. unfold apply in Ha. rewrite Hs in Ha.
  destruct (String.eqb_spec (prefix st0) EmptyString) as [E|E]; cbn [negb] in Ha.
  - right. exists EmptyString, s. rewrite E.
    destruct (apply_loop _ 0 s _) as [ms'|] eqn:El; [|discriminate].
    injection Ha as <-. repeat split; try reflexivity; try contradiction.
    exists 0. reflexivity.
  - destruct (Index s (prefix st0) <? 0) eqn:En.
    + left. injection Ha as <-. apply Z.ltb_lt in En. auto.
    + right. apply Z.ltb_ge in En.
      exists (slice_to s (Index s (prefix st0))),
             (slice_from s (Index s (prefix st0) + len (prefix st0))).
      destruct (apply_loop _ 0 _ _) as [ms'|] eqn:El; [|discriminate].
      injection Ha as <-.
      split; [now apply Index_split | split; [contradiction | split]].
      * intros _. now apply Index_before.
      * split; [eauto | reflexivity].
Qed.

Lemma apply_substrings (sts : list extractFormatStep)
    (e e' : extractFormat) (s : string) :
  newExtractFormat sts = Ret e ->
  quote_free s ->
  apply e s = Ret e' ->
  forall j v, matches e' !! j = Some v -> substring_of v s.
Proof.
  intros He Hq Ha j v Hv.
  destruct (newExtractFormat_ok _ _ He) as [[Hne _] Hst].
  destruct (steps e) as [|st0 rest'] eqn:Es; [contradiction |].
  destruct (apply_cases e e' s st0 rest' Es Ha)
    as [(_ & _ & Hm) | (pre & s1 & _ & _ & _ & [a ->] & Hl)].
  - rewrite Hm in Hv. rewrite (clear_empty _ _ _ Hv). apply substring_of_empty.
  - destruct (apply_loop_substrings _ _ _ _ _ (quote_free_slice_from _ a Hq) Hl j v Hv)
      as [H | H].
    + rewrite (clear_empty _ _ _ H). apply substring_of_empty.
    + now apply substring_of_slice_from in H.
Qed.

(** X4: on an input without a double quote or backtick, every captured
    value is a run of bytes of the input: apply makes up no text. *)
Theorem captures_are_substrings (sts : list extractFormatStep)
    (e e' : extractFormat) (s : string) :
  newExtractFormat sts = Ret e ->
  quote_free s ->
  apply e s = Ret e' ->
  forall j v, matches e' !! j = Some v -> substring_of v s.
Proof. exact (apply_substrings sts e e' s). Qed.

Lemma captures_are_substrings_witness :
  substring_of "1" "zz a=1 b=2".
Proof.
  refine (captures_are_substrings steps_a_b (matcher_of steps_a_b)
            (mkFormat steps_a_b ["1"; "2"] (fields (matcher_of steps_a_b)))
            "zz a=1 b=2" _ _ _ 0%nat "1" _).
  - vm_compute; reflexivity.
  - split; apply index_byte_None; reflexivity.
  - vm_compute; reflexivity.
  - reflexivity.
Defined.

Lemma all_empty_replicate (l : list string) :
  (forall j x, l !! j = Some x -> x = EmptyString) ->
  l = replicate (length l) EmptyString.
Proof.
  induction l as [|x l IH]; intros H; [reflexivity |].
  simpl. rewrite (H 0%nat x eq_refl). f_equal. apply IH.
  intros j y Hy. exact (H (S j) y Hy).
Qed.

(** X5: apply on the empty input leaves every slot empty, whatever the
    steps are. *)
Theorem apply_empty_input (sts : list extractFormatStep) (e : extractFormat) :
  newExtractFormat sts = Ret e ->
  apply e EmptyString = Ret e.
Proof.
  intros He.
  destruct (newExtractFormat_ok _ _ He) as [Hok Hst].
  destruct (apply_returns e EmptyString Hok) as (e' & Ha & [_ Hl] & (Hs & Hf & Hlm)).
  rewrite Ha. f_equal.
  assert (Hq : quote_free EmptyString) by (split; apply lacks_nil).
  assert (Hm : matches e' = replicate (length (matches e')) EmptyString).
  { apply all_empty_replicate. intros j x Hx.
    destruct (apply_substrings sts e e' EmptyString He Hq Ha j x Hx) as (a & b & Hab).
    destruct a; [|discriminate]. destruct x; [reflexivity | discriminate]. }
  apply newExtractFormat_inv in He as (_ & _ & ->).
  destruct e' as [s' m' f']. simpl in *. subst s' f'.
  rewrite Hm, Hl. reflexivity.
Qed.

Lemma apply_empty_input_witness :
  apply (matcher_of steps_x_y) EmptyString = Ret (matcher_of steps_x_y).
Proof.
  apply (apply_empty_input steps_x_y). vm_compute; reflexivity.
Defined.

Lemma apply_leftmost (sts : list extractFormatStep)
    (e e' : extractFormat) (s : string) :
  newExtractFormat sts = Ret e ->
  quote_free s ->
  inner_prefixes_nonempty sts ->
  apply e s = Ret e' ->
  forall j nxt v,
    sts !! S j = Some nxt -> matches e' !! j = Some v ->
    Index v (prefix nxt) < 0.
Proof.
  intros He Hq Hne Ha j nxt v Hn Hv.
  destruct (newExtractFormat_ok _ _ He) as [[Hnil _] Hst]. rewrite Hst in Hnil.
  destruct sts as [|st0 rest']; [contradiction |].
  assert (Hnxt : prefix nxt <> EmptyString).
  { unfold inner_prefixes_nonempty in Hne. cbn [tail] in Hne. simpl in Hn.
    apply list_elem_of_lookup_2 in Hn. rewrite Forall_forall in Hne. now apply Hne. }
  destruct (apply_cases e e' s st0 rest' Hst Ha)
    as [(_ & _ & Hm) | (pre & s1 & _ & _ & _ & [a ->] & Hl)].
  - rewrite Hm in Hv. rewrite (clear_empty _ _ _ Hv). now apply Index_empty_input.
  - refine (apply_loop_leftmost _ 0 _ _ _ (quote_free_slice_from _ a Hq) Hne _ Hl
              j nxt v _ _ Hv).
    + intros j' _ w Hw. exact (clear_empty _ _ _ Hw).
    + lia.
    + now rewrite Nat.sub_0_r.
Qed.

(** X6: on an input without quotes and steps whose prefixes after the first
    are not empty, no captured value holds the literal prefix of the step
    after it: each capture ends at the first place where that prefix
    occurs. *)
Theorem captures_exclude_next_prefix (sts : list extractFormatStep)
    (e e' : extractFormat) (s : string) :
  newExtractFormat sts = Ret e ->
  quote_free s ->
  inner_prefixes_nonempty sts ->
  apply e s = Ret e' ->
  forall j nxt v,
    sts !! S j = Some nxt -> matches e' !! j = Some v ->
    Index v (prefix nxt) < 0.
Proof. exact (apply_leftmost sts e e' s). Qed.

Lemma captures_exclude_next_prefix_witness :
  Index "1 b=2" " b=" >= 0 /\ Index "1" " b=" < 0.
Proof.
  split; [vm_compute; discriminate |].
  refine (captures_exclude_next_prefix steps_a_b (matcher_of steps_a_b)
            (mkFormat steps_a_b ["1"; "2 b=3"] (fields (matcher_of steps_a_b)))
            "a=1 b=2 b=3" _ _ _ _ 0%nat (mkStep " b=" "y") "1" _ _).
  - vm_compute; reflexivity.
  - split; apply index_byte_None; reflexivity.
  - repeat constructor. discriminate.
  - vm_compute; reflexivity.
  - reflexivity.
  - reflexivity.
Defined.

Lemma render_cons_tail (st0 : extractFormatStep) (rest' : list extractFormatStep)
    (ms : list string) :
  ms <> [] ->
  render (st0 :: rest') ms = prefix st0 +:+ render_tail (st0 :: rest') ms.
Proof. destruct ms; [contradiction | reflexivity]. Qed.

Lemma apply_sound (sts : list extractFormatStep)
    (e e' : extractFormat) (s v : string) :
  newExtractFormat sts = Ret e ->
  quote_free s ->
  inner_prefixes_nonempty sts ->
  apply e s = Ret e' ->
  matches e' !! (length sts - 1)%nat = Some v -> v <> EmptyString ->
  exists pre,
    s = pre +:+ render sts (matches e') /\
    forall st0, head sts = Some st0 ->
                (prefix st0 = EmptyString -> pre = EmptyString) /\
                (prefix st0 <> EmptyString -> Index pre (prefix st0) < 0).
Proof.
  intros He Hq Hne Ha Hv Hnon.
  destruct (newExtractFormat_ok _ _ He) as [[Hnil _] Hst]. rewrite Hst in Hnil.
  destruct sts as [|st0 rest']; [contradiction |].
  destruct (apply_cases e e' s st0 rest' Hst Ha)
    as [(_ & _ & Hm) | (pre & s1 & Hs & Hp0 & Hp1 & [a Hs1] & Hl)].
  - rewrite Hm in Hv. now apply clear_empty in Hv.
  - exists pre. split.
    + rewrite render_cons_tail by (intros E; rewrite E in Hv; discriminate).
      rewrite Hs. do 2 f_equal. subst s1.
      rewrite (apply_loop_sound _ 0 _ _ _ v (quote_free_slice_from _ a Hq) Hne
                 ltac:(discriminate) (fun j _ w Hw => clear_empty _ _ _ Hw) Hl);
        [reflexivity | | exact Hnon].
      simpl in *. now rewrite Nat.sub_0_r in Hv |- *.
    + intros st [= <-]. auto.
Qed.

(** X7: on an input without quotes and steps whose prefixes after the first
    are not empty, a last slot that is not empty shows a full match: the
    input is some text, in which the first prefix does not occur, followed by
    the prefixes of the steps with the captured values between them, in
    order. *)
Theorem match_sound (sts : list extractFormatStep)
    (e e' : extractFormat) (s v : string) :
  newExtractFormat sts = Ret e ->
  quote_free s ->
  inner_prefixes_nonempty sts ->
  apply e s = Ret e' ->
  matches e' !! (length sts - 1)%nat = Some v -> v <> EmptyString ->
  exists pre,
    s = pre +:+ render sts (matches e') /\
    forall st0, head sts = Some st0 ->
                (prefix st0 = EmptyString -> pre = EmptyString) /\
                (prefix st0 <> EmptyString -> Index pre (prefix st0) < 0).
Proof. exact (apply_sound sts e e' s v). Qed.

Lemma match_sound_witness :
  exists pre, "zz a=1 b=2" = pre +:+ render steps_a_b ["1"; "2"].
Proof.
  destruct (match_sound steps_a_b (matcher_of steps_a_b)
              (mkFormat steps_a_b ["1"; "2"] (fields (matcher_of steps_a_b)))
              "zz a=1 b=2" "2") as (pre & Hs & _).
  - vm_compute; reflexivity.
  - split; apply index_byte_None; reflexivity.
  - repeat constructor. discriminate.
  - vm_compute; reflexivity.
  - reflexivity.
  - discriminate.
  - exists pre. exact Hs.
Defined.

(** ** The processor *)

Lemma apply_values_returns (values : list string) :
  forall e : extractFormat,
    matcher_ok e ->
    exists e', apply_values e values = Ret e' /\ matcher_ok e' /\ similar e' e.
Proof.
  induction values as [|v values IH]; intros e Hok.
  - exists e. split; [reflexivity | split; [exact Hok | apply similar_refl]].
  - simpl. destruct (apply_returns e v Hok) as (e1 & -> & Hok1 & Hs1). simpl.
    destruct (IH e1 Hok1) as (e' & -> & Hok' & Hs').
    exists e'. split; [reflexivity | split; [exact Hok' |]].
    exact (similar_trans _ _ _ Hs' Hs1).
Qed.

(** After the values of a column, the matcher is as after its last value. *)
Lemma apply_values_last (values : list string) (v : string) :
  forall e : extractFormat,
    matcher_ok e ->
    apply_values e (values ++ [v]) = apply e v.
Proof.
  induction values as [|w values IH]; intros e Hok.
  - simpl. now destruct (apply e v).
  - simpl. destruct (apply_returns e w Hok) as (e1 & -> & Hok1 & Hs1). simpl.
    rewrite (IH e1 Hok1). now apply apply_similar.
Qed.

Lemma make_shards_cases (n : nat) (sts : list extractFormatStep) :
  (forall e, newExtractFormat sts = Ret e ->
             make_shards n sts = Ret (replicate n (mkShard e))) /\
  (forall msg, newExtractFormat sts = Panic msg -> n <> O ->
               make_shards n sts = Panic msg).
Proof.
  split.
  - intros e He. induction n as [|n IH]; [reflexivity |].
    simpl. now rewrite He, IH.
  - intros msg He Hn. destruct n as [|n]; [contradiction |]. simpl. now rewrite He.
Qed.

(** X8: newPipeProcessor makes no matcher for zero workers and so returns
    even for steps that newExtractFormat refuses; for one worker or more it
    panics with the message of newExtractFormat when the steps are refused,
    and otherwise returns as many shards as workers, each with a fresh
    matcher of the steps of the pipe. *)
Theorem newPipeProcessor_cases (p : pipeExtract) (workersCount : nat)
    (next : pipeProcessor) :
  newPipeProcessor p 0 next = Ret (mkProcessor p next []) /\
  (forall msg, newExtractFormat (pe_steps p) = Panic msg -> workersCount <> O ->
               newPipeProcessor p workersCount next = Panic msg) /\
  (forall e, newExtractFormat (pe_steps p) = Ret e ->
             newPipeProcessor p workersCount next =
             Ret (mkProcessor p next (replicate workersCount (mkShard e)))) /\
  (forall pep, newPipeProcessor p workersCount next = Ret pep ->
               processor_ok pep /\ length (shards pep) = workersCount /\
               pe pep = p /\ ppBase pep = next).
Proof.
  destruct (make_shards_cases workersCount (pe_steps p)) as [Hret Hpanic].
  split; [reflexivity | split; [|split]].
  - intros msg He Hn. unfold newPipeProcessor. now rewrite (Hpanic msg He Hn).
  - intros e He. unfold newPipeProcessor. now rewrite (Hret e He).
  - intros pep Hp. unfold newPipeProcessor in Hp.
    destruct (newExtractFormat (pe_steps p)) as [e|msg] eqn:He.
    + rewrite (Hret e eq_refl) in Hp. injection Hp as <-. simpl.
      split; [|split; [apply length_replicate | auto]].
      unfold processor_ok. simpl. apply Forall_replicate.
      now apply (newExtractFormat_ok (pe_steps p)).
    + destruct workersCount as [|n].
      * injection Hp as <-. repeat split. constructor.
      * rewrite (Hpanic msg eq_refl) in Hp; discriminate.
Qed.

Lemma newPipeProcessor_cases_witness :
  let p := mkPipe "_msg" [] EmptyString in
  newPipeProcessor p 2 (mkNext []) = Panic "BUG: steps cannot be empty".
Proof.
  intros p.
  apply (proj1 (proj2 (newPipeProcessor_cases p 2 (mkNext [])))); [reflexivity | discriminate].
Defined.

(** X9: writeBlock on a block without rows returns the processor as it is,
    whatever the worker.  On a block with rows it panics for a worker that
    has no shard; for a worker that has one, on a processor whose shards are
    as newPipeProcessor and earlier calls of writeBlock leave them, it
    returns, whatever the column holds, and changes nothing but the matcher
    of the shard of that worker: the pipe, the next stage, the number of
    shards and every other shard are as before, and the shards can run
    again. *)
Theorem writeBlock_cases (pep : pipeExtractProcessor) (workerID : nat)
    (br : blockResult) :
  (timestamps br = [] -> writeBlock pep workerID br = Ret pep) /\
  (timestamps br <> [] -> (length (shards pep) <= workerID)%nat ->
   writeBlock pep workerID br = Panic "index out of range") /\
  (timestamps br <> [] -> processor_ok pep ->
   (workerID < length (shards pep))%nat ->
   exists pep',
     writeBlock pep workerID br = Ret pep' /\
     processor_ok pep' /\
     pe pep' = pe pep /\ ppBase pep' = ppBase pep /\
     length (shards pep') = length (shards pep) /\
     forall w, w <> workerID -> shards pep' !! w = shards pep !! w).
Proof.
  unfold writeBlock. split; [|split].
  - now intros ->.
  - intros Hne Hw. destruct (timestamps br); [contradiction |]. cbn [length Nat.eqb].
    now rewrite (lookup_ge_None_2 _ _ Hw).
  - intros Hne Hok Hw. destruct (timestamps br); [contradiction |]. cbn [length Nat.eqb].
    destruct (lookup_lt_is_Some_2 _ _ Hw) as [sh Hsh]. rewrite Hsh.
    assert (Hm : matcher_ok (ef sh)).
    { unfold processor_ok in Hok. rewrite Forall_forall in Hok.
      apply Hok. now apply list_elem_of_lookup_2 in Hsh. }
    destruct (apply_values_returns (getValues br (pe_field (pe pep))) (ef sh) Hm)
      as (e' & -> & Hok' & _).
    simpl. eexists. split; [reflexivity |]. simpl.
    split; [| split; [reflexivity | split; [reflexivity | split]]].
    + unfold processor_ok. simpl. apply Forall_insert; assumption.
    + apply length_insert.
    + intros w Hne'. apply list_lookup_insert_ne. congruence.
Qed.

Lemma writeBlock_cases_witness :
  let p := mkPipe "_msg" steps_a_b "a=<x> b=<y>" in
  let pep := mkProcessor p (mkNext []) (replicate 2 (mkShard (matcher_of steps_a_b))) in
  let br := mkBlock [1; 2] [("_msg", ["a=1 b=2"; "a=3"])] in
  writeBlock pep 2 br = Panic "index out of range" /\
  exists pep', writeBlock pep 1 br = Ret pep' /\
               shards pep' !! 0%nat = shards pep !! 0%nat.
Proof.
  intros p pep br. split.
  - apply (proj1 (proj2 (writeBlock_cases pep 2 br))); [discriminate | simpl; lia].
  - destruct (proj2 (proj2 (writeBlock_cases pep 1 br))) as (pep' & Hw & _ & _ & _ & _ & Ho).
    + discriminate.
    + repeat constructor; discriminate.
    + simpl; lia.
    + exists pep'. split; [exact Hw | apply Ho; discriminate].
Defined.

(** X10: after writeBlock on a block whose column has a last value, the
    matcher of the shard is what one call of apply on that last value alone
    leaves: the captures of every row before the last one are gone. *)
Theorem writeBlock_keeps_last_row (pep : pipeExtractProcessor) (workerID : nat)
    (br : blockResult) (sh : pipeExtractProcessorShard) (values : list string)
    (v : string) :
  timestamps br <> [] ->
  shards pep !! workerID = Some sh ->
  matcher_ok (ef sh) ->
  getValues br (pe_field (pe pep)) = values ++ [v] ->
  exists e',
    apply (ef sh) v = Ret e' /\
    writeBlock pep workerID br =
    Ret (mkProcessor (pe pep) (ppBase pep) (<[workerID := mkShard e']> (shards pep))).
Proof.
  intros Hne Hsh Hok Hv. unfold writeBlock.
  destruct (timestamps br); [contradiction |]. cbn [length Nat.eqb].
  rewrite Hsh, Hv, (apply_values_last values v (ef sh) Hok).
  destruct (apply_returns (ef sh) v Hok) as (e' & -> & _). eauto.
Qed.

Lemma writeBlock_keeps_last_row_witness :
  let p := mkPipe "_msg" steps_a_b "a=<x> b=<y>" in
  let pep := mkProcessor p (mkNext []) [mkShard (matcher_of steps_a_b)] in
  let br := mkBlock [1; 2] [("_msg", ["a=1 b=2"; "a=3 b=4"])] in
  exists e',
    apply (matcher_of steps_a_b) "a=3 b=4" = Ret e' /\
    writeBlock pep 0 br = Ret (mkProcessor p (mkNext []) [mkShard e']).
Proof.
  intros p pep br.
  refine (writeBlock_keeps_last_row pep 0 br (mkShard (matcher_of steps_a_b))
            ["a=1 b=2"] "a=3 b=4" _ _ _ _).
  - discriminate.
  - reflexivity.
  - split; [discriminate | reflexivity].
  - reflexivity.
Defined.

(** ** The needed fields, exactly *)

Lemma remove_step_fields_elem (sts : list extractFormatStep) :
  forall (u : fieldsSet) (x : string),
    x ∈ remove_step_fields sts u <-> x ∈ u /\ x ∉ named_fields sts.
Proof.
  unfold named_fields.
  induction sts as [|st sts IH]; intros u x; simpl.
  - split; [intros H; split; [exact H | apply not_elem_of_nil] | tauto].
  - rewrite IH, filter_cons.
    destruct (String.eqb_spec (field st) EmptyString) as [E|E]; simpl.
    + rewrite decide_False by (intros H; now apply H). reflexivity.
    + rewrite decide_True by assumption. unfold fs_remove.
      rewrite elem_of_difference, elem_of_singleton, not_elem_of_cons. tauto.
Qed.

(** X11: updateNeededFields adds the source field of the pipe to the needed
    set and nothing else, and takes the named fields of the steps out of the
    unneeded set and nothing else. *)
Theorem updateNeededFields_exact (p : pipeExtract) (neededFields unneededFields : fieldsSet)
    (x : string) :
  (x ∈ fst (updateNeededFields p neededFields unneededFields) <->
   x = pe_field p \/ x ∈ neededFields) /\
  (x ∈ snd (updateNeededFields p neededFields unneededFields) <->
   x ∈ unneededFields /\ x ∉ named_fields (pe_steps p)).
Proof.
  split.
  - simpl. unfold fs_add. now rewrite elem_of_union, elem_of_singleton.
  - simpl. apply remove_step_fields_elem.
Qed.

(** ** Patterns written from step lists, parsed again *)

Lemma normalize_step_name (st : extractFormatStep) :
  field_ok st -> normalize (step_name st) = field st.
Proof.
  intros (_ & H1 & H2). unfold step_name, normalize.
  destruct (String.eqb_spec (field st) EmptyString) as [E|E]; [now rewrite E |].
  destruct (String.eqb_spec (field st) "_"); [contradiction |].
  destruct (String.eqb_spec (field st) "*"); [contradiction | reflexivity].
Qed.

Lemma named_step_name (st : extractFormatStep) :
  field_ok st -> named_field (step_name st) = negb (String.eqb (field st) EmptyString).
Proof. intros H. unfold named_field. now rewrite normalize_step_name. Qed.

Lemma lacks_step_name (st : extractFormatStep) :
  field_ok st -> lacks ">" (step_name st).
Proof.
  intros (H & _). unfold step_name.
  destruct (String.eqb (field st) EmptyString); [|exact H].
  apply index_byte_None. reflexivity.
Qed.

Lemma print_steps_length (sts : list extractFormatStep) :
  Forall inner_prefix_ok sts -> (length sts <= String.length (print_steps sts))%nat.
Proof.
  induction 1 as [|st sts [Hp _] _ IH]; simpl; [lia |].
  rewrite length_app_s. destruct (prefix st); [contradiction |]. simpl. 
  rewrite length_app_s. lia.
Qed.

(** The loop on the name of a step and the steps written after it. *)
Lemma parse_loop_print (rest : list extractFormatStep) :
  forall (st : extractFormatStep) (pfx : string) (acc : list extractFormatStep)
         (h : bool) (t : nat),
    (length rest < t)%nat ->
    field_ok st ->
    Forall inner_prefix_ok rest ->
    Forall field_ok rest ->
    parse_loop t pfx (step_name st +:+ ">" +:+ print_steps rest) acc h =
    Some (Break (acc ++ mkStep pfx (field st) :: rest)
                (h || negb (String.eqb (field st) EmptyString) || has_named_step rest)).
Proof.
  induction rest as [|nxt rest' IH]; intros st pfx acc h t Ht Hst Hin Hf.
  - destruct t as [|t]; [simpl in Ht; lia |].
    change (step_name st +:+ ">" +:+ print_steps []) with (step_name st +:+ ">" +:+ EmptyString).
    rewrite parse_loop_last by (apply lacks_step_name || apply lacks_nil; assumption).
    simpl. rewrite normalize_step_name, named_step_name by assumption.
    now rewrite orb_false_r.
  - destruct t as [|t]; [simpl in Ht; lia |]. simpl in Ht.
    apply Forall_cons in Hin as [[Hp Hlt] Hin]. apply Forall_cons in Hf as [Hnf Hf].
    destruct nxt as [np nf]. simpl in Hp, Hlt.
    cbn [print_steps prefix].
    destruct (match rest' with [] => true | _ :: _ => false end
              && String.eqb nf EmptyString) eqn:Elast.
    + (* the last step, without a name: the literal after the last capture *)
      apply andb_true_iff in Elast as [Hl He].
      destruct rest'; [|discriminate]. apply String.eqb_eq in He. subst nf.
      assert (Hs : np +:+ capture_text (mkStep np EmptyString) true +:+ print_steps [] = np)
        by (unfold capture_text; cbn [field andb print_steps]; rewrite String.eqb_refl;
            now rewrite !app_nil_r_s).
      cbv beta iota. rewrite Hs.
      rewrite parse_loop_last by (apply lacks_step_name || idtac; assumption).
      rewrite normalize_step_name, named_step_name by assumption.
      destruct (String.eqb_spec np EmptyString); [contradiction |].
      unfold has_named_step. simpl. now rewrite !orb_false_r.
    + unfold capture_text at 1. cbn [field]. rewrite Elast.
      change (step_name st +:+ ">" +:+ np +:+
              ("<" +:+ step_name (mkStep np nf) +:+ ">") +:+ print_steps rest')
        with (step_name st +:+
              String ">" (np +:+ String "<" ((step_name (mkStep np nf) +:+ ">")
                                             +:+ print_steps rest'))).
      rewrite parse_loop_turn by (now apply lacks_step_name). cbv zeta.
      destruct (String.eqb_spec (np +:+ String "<" ((step_name (mkStep np nf) +:+ ">")
                                                     +:+ print_steps rest')) EmptyString)
        as [E|_]; [destruct np; discriminate |].
      rewrite (IndexByte_app np _ "<" Hlt), len_ltb_0, len_eqb_0.
      destruct (String.eqb_spec np EmptyString); [contradiction |].
      rewrite slice_to_app, slice_from_app_cons, app_assoc_s.
      rewrite (IH (mkStep np nf) np _ _ t) by (assumption || lia).
      rewrite normalize_step_name, named_step_name by assumption.
      rewrite <- app_assoc. unfold has_named_step. simpl.
      now rewrite !orb_assoc.
Qed.

Lemma unescape_steps_id (d : string -> string) (sts : list extractFormatStep) :
  Forall (fun st => lacks "&" (prefix st)) sts -> unescape_steps d sts = sts.
Proof.
  induction 1 as [|[p f] sts Hp _ IH]; [reflexivity |].
  simpl in *. rewrite IH. unfold Html.UnescapeString.
  apply IndexByte_lacks in Hp. now rewrite Hp.
Qed.

Lemma parse_print (d : string -> string) (sts : list extractFormatStep) :
  wf_steps sts ->
  parseExtractFormatSteps d (print_steps sts) = Some (sts, None).
Proof.
  intros (Hn & Hp0 & Hin & Hf & Hamp).
  destruct sts as [|[p0 f0] rest]; [discriminate |].
  specialize (Hp0 _ eq_refl). simpl in Hp0. cbn [tail] in Hin.
  pose proof Hf as Hf'. apply Forall_cons in Hf' as [Hf0 Hfr].
  assert (Hcap : capture_text (mkStep p0 f0)
                   (match rest with [] => true | _ :: _ => false end)
                 = "<" +:+ step_name (mkStep p0 f0) +:+ ">").
  { unfold capture_text.
    destruct rest; [|reflexivity]. simpl.
    unfold has_named_step in Hn. simpl in Hn. rewrite orb_false_r in Hn.
    apply negb_true_iff in Hn. now rewrite Hn. }
  cbn [print_steps prefix]. rewrite Hcap.
  change (p0 +:+ ("<" +:+ step_name (mkStep p0 f0) +:+ ">") +:+ print_steps rest)
    with (p0 +:+ "<" +:+ ((step_name (mkStep p0 f0) +:+ ">") +:+ print_steps rest)).
  rewrite parse_at_bracket by assumption. rewrite app_assoc_s.
  rewrite (parse_loop_print rest (mkStep p0 f0) p0 [] false); try assumption.
  - cbn [orb field].
    change (negb (String.eqb f0 EmptyString) || has_named_step rest)
      with (has_named_step (mkStep p0 f0 :: rest)).
    rewrite Hn. cbn [negb app]. now rewrite unescape_steps_id.
  - pose proof (print_steps_length rest Hin). rewrite length_app_s. simpl. lia.
Qed.



Lemma field_ok_normalize (pfx f : string) :
  lacks ">" f -> field_ok (mkStep pfx (normalize f)).
Proof.
  intros Hf. unfold field_ok, normalize. simpl.
  destruct (String.eqb_spec f "_") as [->|H1]; simpl.
  { repeat split; [apply lacks_nil | discriminate | discriminate]. }
  destruct (String.eqb_spec f "*") as [->|H2]; simpl.
  { repeat split; [apply lacks_nil | discriminate | discriminate]. }
  auto.
Qed.

Lemma steps_of_chain_props (caps : list (string * string)) :
  inner_ok caps ->
  Forall (fun fp => lacks "&" (snd fp)) caps ->
  forall pfx f tl,
    lacks ">" f -> lacks "<" tl -> lacks "&" tl -> lacks "&" pfx ->
    (inner_prefix_ok (mkStep pfx EmptyString) ->
     Forall inner_prefix_ok (steps_of_chain pfx caps f tl)) /\
    Forall field_ok (steps_of_chain pfx caps f tl) /\
    Forall (fun st => lacks "&" (prefix st)) (steps_of_chain pfx caps f tl).
Proof.
  induction 1 as [|[f1 p1] caps (Hf1 & Hp1 & Hlt1) _ IH]; intros Hamp pfx f tl Hf Ht Hta Hpa.
  - pose proof (field_ok_normalize pfx f Hf) as Hfo.
    assert (Hto : field_ok (mkStep tl EmptyString))
      by (split; [apply lacks_nil | split; discriminate]).
    simpl. destruct (String.eqb_spec tl EmptyString) as [E|E].
    + split; [|split].
      * intros Hp. constructor; [exact Hp | constructor].
      * constructor; [exact Hfo | constructor].
      * constructor; [exact Hpa | constructor].
    + split; [|split].
      * intros Hp. constructor; [exact Hp |]. constructor; [|constructor].
        split; assumption.
      * constructor; [exact Hfo |]. constructor; [exact Hto | constructor].
      * constructor; [exact Hpa |]. constructor; [exact Hta | constructor].
  - apply Forall_cons in Hamp as [Ha1 Hamp]. simpl in *.
    destruct (IH Hamp p1 f tl Hf Ht Hta Ha1) as (I1 & I2 & I3).
    repeat split.
    + intros Hp. constructor; [exact Hp | apply I1; split; assumption].
    + constructor; [now apply field_ok_normalize | exact I2].
    + constructor; [exact Hpa | exact I3].
Qed.

Lemma chain_lacks (c : ascii) (caps : list (string * string)) :
  lacks c (chain caps) -> Forall (fun fp => lacks c (snd fp)) caps.
Proof.
  induction caps as [|[f p] caps IH]; intros H; [constructor |].
  simpl in H. apply lacks_app in H as [_ H].
  change (">" +:+ p +:+ "<" +:+ chain caps) with (String ">" (p +:+ String "<" (chain caps))) in H.
  apply lacks_cons in H as [_ H]. apply lacks_app in H as [Hp H].
  apply lacks_cons in H as [_ H]. constructor; [exact Hp | now apply IH].
Qed.

Lemma parsed_wf (d : string -> string) (s : string) (sts : list extractFormatStep) :
  lacks "&" s ->
  parseExtractFormatSteps d s = Some (sts, None) ->
  wf_steps sts.
Proof.
  intros Hamp Hr.
  destruct (parse_success_inv d s sts Hr) as (p0 & caps & f & tl & Hc & Hn & ->).
  destruct Hc as (Hp0 & Hok & Hf & Ht & ->).
  apply lacks_app in Hamp as [Ha0 Hamp].
  change ("<" +:+ chain caps +:+ f +:+ ">" +:+ tl)
    with (String "<" (chain caps +:+ f +:+ String ">" tl)) in Hamp.
  apply lacks_cons in Hamp as [_ Hamp]. apply lacks_app in Hamp as [Hac Hamp].
  apply lacks_app in Hamp as [_ Hamp]. apply lacks_cons in Hamp as [_ Hat].
  destruct (steps_of_chain_props caps Hok (chain_lacks _ _ Hac) p0 f tl Hf Ht Hat Ha0)
    as (I1 & I2 & I3).
  rewrite (unescape_steps_id d _ I3).
  split; [now rewrite has_named_steps_of_chain | split; [|split; [|split]]];
    try assumption.
  - intros st0 Hh. destruct caps as [|[f1 p1] caps]; injection Hh as <-; exact Hp0.
  - destruct caps as [|[f1 p1] caps]; simpl.
    + destruct (String.eqb_spec tl EmptyString); [constructor |].
      constructor; [split; assumption | constructor].
    + apply Forall_cons in Hok as [(_ & Hp1 & Hl1) Hok]. simpl in *.
      apply lacks_app in Hac as [_ Hac].
      change (">" +:+ p1 +:+ "<" +:+ chain caps)
        with (String ">" (p1 +:+ String "<" (chain caps))) in Hac.
      apply lacks_cons in Hac as [_ Hac]. apply lacks_app in Hac as [Hap Hac].
      apply lacks_cons in Hac as [_ Hac].
      apply (steps_of_chain_props caps Hok (chain_lacks _ _ Hac) p1 f tl Hf Ht Hat Hap).
      split; assumption.
Qed.

(** X13: the steps parsed from a pattern without an ampersand have the form
    that the parser keeps: a named step among them, a first prefix without
    an opening bracket, later prefixes that are not empty and have no opening
    bracket, and field names without a closing bracket that are never the
    underscore or the star.  Written as a pattern again they parse to
    themselves, so parsing twice gives what parsing once gives. *)
Theorem parsed_steps_wf (d : string -> string) (s : string)
    (sts : list extractFormatStep) :
  lacks "&" s ->
  parseExtractFormatSteps d s = Some (sts, None) ->
  wf_steps sts /\
  parseExtractFormatSteps d (print_steps sts) = Some (sts, None).
Proof.
  intros Hamp Hr. pose proof (parsed_wf d s sts Hamp Hr) as Hwf.
  split; [exact Hwf | now apply parse_print].
Qed.

Lemma parsed_steps_wf_witness :
  let sts := [mkStep "a=" "x"; mkStep "," EmptyString; mkStep ";" EmptyString] in
  parseExtractFormatSteps no_entities "a=<x>,<*>;" = Some (sts, None) /\
  print_steps sts = "a=<x>,<_>;" /\
  parseExtractFormatSteps no_entities (print_steps sts) = Some (sts, None).
Proof.
  intros sts. split; [vm_compute; reflexivity | split; [reflexivity |]].
  apply (parsed_steps_wf no_entities "a=<x>,<*>;" sts).
  - apply index_byte_None. reflexivity.
  - vm_compute; reflexivity.
Defined.

(** ** The JSON integers *)

Import StrconvNum.

Lemma byte_val_range (c : ascii) : 0 <= Utf8.byte_val c < 256.
Proof.
  unfold Utf8.byte_val. pose proof (N_ascii_bounded c). lia.
Qed.

Lemma digits_value_ge (s : string) (acc : Z) :
  all_digits s = true -> 0 <= acc -> acc <= digits_value s acc.
Proof.
  revert acc. induction s as [|c s IH]; intros acc Hd Ha; simpl; [lia |].
  simpl in Hd. apply andb_true_iff in Hd as [Hc Hd].
  unfold is_digit in Hc. apply andb_true_iff in Hc as [H0 H9].
  apply Z.leb_le in H0, H9.
  etransitivity; [|apply IH; [assumption | lia]]. lia.
Qed.

(** A byte that is no digit stops ParseUint with a syntax error. *)
Lemma parse_digits_not_digit (c : ascii) (rest : string) (n : Z) :
  is_digit c = false -> parse_digits (String c rest) n = (0, Some ErrSyntax).
Proof.
  intros H. unfold is_digit in H. cbn [parse_digits]. rewrite H.
  destruct ((Utf8.byte_val "a" <=? lower (Utf8.byte_val c))
            && (lower (Utf8.byte_val c) <=? Utf8.byte_val "z")) eqn:E; [|reflexivity].
  apply andb_true_iff in E as [Ea _]. apply Z.leb_le in Ea.
  replace (10 <=? lower (Utf8.byte_val c) - Utf8.byte_val "a" + 10) with true; [reflexivity |].
  symmetry. apply Z.leb_le. lia.
Qed.

(** The loop on digits: the number they write, or a range error when that
    number does not fit 64 bits. *)
Lemma parse_digits_digits (s : string) :
  forall n, 0 <= n <= maxUint64 -> all_digits s = true ->
            parse_digits s n =
            if digits_value s n <=? maxUint64 then (digits_value s n, None)
            else (maxUint64, Some ErrRange).
Proof.
  induction s as [|c s IH]; intros n Hn Hd.
  - simpl. replace (n <=? maxUint64) with true by (symmetry; apply Z.leb_le; lia).
    reflexivity.
  - simpl in Hd. apply andb_true_iff in Hd as [Hc Hd].
    pose proof Hc as Hc'. unfold is_digit in Hc'. cbn [parse_digits digits_value].
    rewrite Hc'. apply andb_true_iff in Hc' as [H0 H9]. apply Z.leb_le in H0, H9.
    set (d := Utf8.byte_val c - Utf8.byte_val "0") in *.
    assert (Hdr : 0 <= d <= 9) by (unfold d; change (Utf8.byte_val "0") with 48 in *;
                                  change (Utf8.byte_val "9") with 57 in *; lia).
    replace (10 <=? d) with false by (symmetry; apply Z.leb_gt; lia).
    pose proof (digits_value_ge s (n * 10 + d) Hd ltac:(lia)) as Hge.
    unfold maxUint64 in *.
    destruct (Z.leb_spec ((2 ^ 64 - 1) / 10 + 1) n) as [Hcut|Hcut].
    + change ((2 ^ 64 - 1) / 10 + 1) with 1844674407370955162 in Hcut.
      replace (digits_value s (n * 10 + d) <=? 2 ^ 64 - 1) with false; [reflexivity |].
      symmetry. apply Z.leb_gt. change (2 ^ 64 - 1) with 18446744073709551615. lia.
    + change ((2 ^ 64 - 1) / 10 + 1) with 1844674407370955162 in Hcut.
      change (2 ^ 64) with 18446744073709551616 in *.
      rewrite (Z.mod_small (n * 10)) by lia.
      destruct (Z_lt_le_dec (n * 10 + d) 18446744073709551616) as [Hfit|Hover].
      * rewrite (Z.mod_small (n * 10 + d)) by lia.
        replace (n * 10 + d <? n * 10) with false by (symmetry; apply Z.ltb_ge; lia).
        replace (18446744073709551616 - 1 <? n * 10 + d) with false
          by (symmetry; apply Z.ltb_ge; lia).
        cbn [orb]. apply IH; [lia | exact Hd].
      * assert (Hm : (n * 10 + d) mod 18446744073709551616
                     = n * 10 + d - 18446744073709551616)
          by (symmetry; apply (Z.mod_unique _ _ 1); lia).
        rewrite Hm.
        replace (n * 10 + d - 18446744073709551616 <? n * 10) with true
          by (symmetry; apply Z.ltb_lt; lia).
        cbn [orb].
        replace (digits_value s (n * 10 + d) <=? 18446744073709551616 - 1) with false;
          [reflexivity |].
        symmetry. apply Z.leb_gt. lia.
Qed.

Lemma parse_digits_success (s : string) :
  forall n v, parse_digits s n = (v, None) -> all_digits s = true.
Proof.
  induction s as [|c s IH]; intros n v H; [reflexivity |].
  simpl. destruct (is_digit c) eqn:Hc.
  - simpl. cbn [parse_digits] in H. unfold is_digit in Hc. rewrite Hc in H.
    destruct (10 <=? _); [discriminate |].
    destruct (_ <=? n); [discriminate |].
    destruct (_ || _); [discriminate |]. exact (IH _ _ H).
  - rewrite parse_digits_not_digit in H by assumption. discriminate.
Qed.

(** ParseUint(s, 10, 64) returns a value without an error exactly for the
    decimal numerals that write a number below 2^64. *)
Lemma ParseUint64_spec (s : string) (v : Z) :
  ParseUint64 s = (v, None) <->
  numeral_value s = Some v /\ 0 <= v <= maxUint64.
Proof.
  destruct s as [|c s]; [split; [discriminate | intros [H _]; discriminate] |].
  unfold ParseUint64, numeral_value. split.
  - intros H. pose proof (parse_digits_success _ _ _ H) as Hd. rewrite Hd.
    rewrite parse_digits_digits in H by (unfold maxUint64; assumption || lia).
    destruct (Z.leb_spec (digits_value (String c s) 0) maxUint64); [|discriminate].
    injection H as <-. split; [reflexivity |].
    pose proof (digits_value_ge _ 0 Hd ltac:(lia)) as Hge. exact (conj Hge H0).
  - intros [H Hv]. destruct (all_digits (String c s)) eqn:Hd; [|discriminate].
    injection H as <-.
    rewrite parse_digits_digits by (unfold maxUint64; assumption || lia).
    replace (_ <=? maxUint64) with true by (symmetry; apply Z.leb_le; apply Hv).
    reflexivity.
Qed.

Lemma parse_digits_range (s : string) :
  forall n un, parse_digits s n = (un, Some ErrRange) -> un = maxUint64.
Proof.
  induction s as [|c s IH]; intros n un H; [discriminate |].
  cbn [parse_digits] in H.
  destruct (if _ && _ then _ else _) as [d|]; [|discriminate].
  destruct (10 <=? d); [discriminate |].
  destruct (_ <=? n); [now injection H as <- |].
  destruct (_ || _); [now injection H as <- |]. exact (IH _ _ H).
Qed.

(** ParseUint(s, 10, 64) on a decimal numeral. *)
Lemma ParseUint64_numeral (s : string) (w : Z) :
  numeral_value s = Some w ->
  0 <= w /\
  ParseUint64 s = if w <=? maxUint64 then (w, None) else (maxUint64, Some ErrRange).
Proof.
  destruct s as [|c s]; [discriminate |]. unfold numeral_value, ParseUint64.
  destruct (all_digits (String c s)) eqn:Hd; [|discriminate]. intros [= <-].
  split; [exact (digits_value_ge (String c s) 0 Hd (Z.le_refl 0)) |].
  assert (H0 : 0 <= 0 <= maxUint64) by (unfold maxUint64; lia).
  exact (parse_digits_digits (String c s) 0 H0 Hd).
Qed.

Lemma parse_range_absurd (s : string) (un : Z) :
  ParseUint64 s = (un, Some ErrRange) -> un = maxUint64.
Proof.
  destruct s as [|c s]; [discriminate |]. apply parse_digits_range.
Qed.

Lemma to_int64_small (v : Z) : - 2 ^ 63 <= v < 2 ^ 63 -> to_int64 v = v.
Proof.
  intros H. unfold to_int64. rewrite Z.mod_small; lia.
Qed.

(** ParseInt(s, 10, 64) returns a value without an error exactly for the
    numerals with an optional sign that write a number of 64 bits. *)
Lemma ParseInt64_spec (s : string) (v : Z) :
  ParseInt64 s = (v, None) <->
  signed_value s = Some v /\ - 2 ^ 63 <= v <= 2 ^ 63 - 1.
Proof.
  destruct s as [|c rest]; [split; [discriminate | intros [H _]; discriminate] |].
  unfold ParseInt64, signed_value.
  set (s' := if Ascii.eqb c "+" || Ascii.eqb c "-" then rest else String c rest).
  assert (Hsv : (if Ascii.eqb c "+" then numeral_value rest
                 else if Ascii.eqb c "-"
                      then match numeral_value rest with
                           | Some w => Some (- w) | None => None end
                      else numeral_value (String c rest))
                = match numeral_value s' with
                  | Some w => Some (if Ascii.eqb c "-" then - w else w)
                  | None => None
                  end).
  { unfold s'. destruct (Ascii.eqb_spec c "+") as [->|_].
    - change (Ascii.eqb "+" "-") with false. cbn [orb].
      now destruct (numeral_value rest).
    - destruct (Ascii.eqb c "-"); cbn [orb].
      + reflexivity.
      + now destruct (numeral_value (String c rest)). }
  rewrite Hsv. clear Hsv. generalize s'. clear s'. intros s'.
  set (neg := Ascii.eqb c "-").
  change (2 ^ 63) with 9223372036854775808.
  split.
  - intros H.
    destruct (ParseUint64 s') as [un [[|]|]] eqn:Eu; [discriminate | |].
    + apply parse_range_absurd in Eu. subst un. unfold maxUint64 in H.
      destruct neg; simpl in H; discriminate.
    + apply ParseUint64_spec in Eu as [-> [Hu0 Hu1]]. unfold maxUint64 in Hu1.
      destruct neg; cbn [negb andb] in H.
      * destruct (Z.ltb_spec 9223372036854775808 un); [discriminate |].
        injection H as <-.
        destruct (Z.eq_dec un 9223372036854775808) as [->|Hne].
        { change (to_int64 (- to_int64 9223372036854775808))
            with (- 9223372036854775808). split; [reflexivity | lia]. }
        rewrite (to_int64_small un), to_int64_small
          by (change (2 ^ 63) with 9223372036854775808; lia).
        split; [reflexivity | lia].
      * destruct (Z.leb_spec 9223372036854775808 un); [discriminate |].
        injection H as <-.
        rewrite to_int64_small by (change (2 ^ 63) with 9223372036854775808; lia).
        split; [reflexivity | lia].
  - intros [H Hv]. destruct (numeral_value s') as [w|] eqn:Ew; [|discriminate].
    injection H as <-.
    destruct (ParseUint64_numeral _ _ Ew) as [Hw ->].
    destruct (Z.leb_spec w maxUint64) as [Hle|Hgt].
    + destruct neg; cbn [negb andb].
      * replace (9223372036854775808 <? w) with false by (symmetry; apply Z.ltb_ge; lia).
        destruct (Z.eq_dec w 9223372036854775808) as [->|Hne]; [reflexivity |].
        rewrite (to_int64_small w), to_int64_small
          by (change (2 ^ 63) with 9223372036854775808; lia).
        reflexivity.
      * replace (9223372036854775808 <=? w) with false by (symmetry; apply Z.leb_gt; lia).
        rewrite to_int64_small by (change (2 ^ 63) with 9223372036854775808; lia).
        reflexivity.
    + unfold maxUint64 in Hgt. destruct neg; lia.
Qed.

(** A numeral with an optional sign is no syntax error for ParseInt. *)
Lemma ParseInt64_no_syntax_error (s : string) (w x : Z) :
  signed_value s = Some w -> ParseInt64 s = (x, Some ErrSyntax) -> False.
Proof.
  destruct s as [|c rest]; [discriminate |]. unfold ParseInt64, signed_value.
  intros Hs.
  assert (Hn : exists w', numeral_value
                            (if Ascii.eqb c "+" || Ascii.eqb c "-" then rest
                             else String c rest) = Some w').
  { destruct (Ascii.eqb c "+"); cbn [orb]; [eauto |].
    destruct (Ascii.eqb c "-"); cbn [orb]; [|eauto].
    destruct (numeral_value rest); [eauto | discriminate]. }
  destruct Hn as [w' Hn]. destruct (ParseUint64_numeral _ _ Hn) as [_ ->].
  destruct (w' <=? maxUint64).
  - destruct (negb _ && _); [discriminate |].
    destruct (_ && _); discriminate.
  - destruct (negb _ && _); [discriminate |].
    destruct (_ && _); discriminate.
Qed.

(** A text of bytes below 128 is valid UTF-8. *)
Lemma valid_from_ascii (s : string) :
  forall turns, (String.length s <= turns)%nat -> all_ascii s = true ->
                Utf8.valid_from turns s = true.
Proof.
  induction s as [|c s IH]; intros turns Ht Ha; [now destruct turns |].
  destruct turns as [|turns]; [simpl in Ht; lia |].
  simpl in Ha. apply andb_true_iff in Ha as [Hc Ha].
  cbn [Utf8.valid_from Utf8.DecodeRuneInString]. rewrite Hc.
  replace (Utf8.byte_val c =? Utf8.RuneError) with false.
  - simpl. apply IH; [simpl in Ht; lia | exact Ha].
  - symmetry. apply Z.eqb_neq. apply Z.ltb_lt in Hc.
    unfold Utf8.RuneSelf, Utf8.RuneError in *. lia.
Qed.

Lemma numeral_text_lacks (c : ascii) (s : string) :
  numeral_byte c = false -> numeral_text s = true -> lacks c s.
Proof.
  intros Hc. induction s as [|x s IH]; intros H; [apply lacks_nil |].
  simpl in H. apply andb_true_iff in H as [Hx H]. apply lacks_cons.
  split; [intros ->; congruence | now apply IH].
Qed.

Lemma numeral_byte_ascii (c : ascii) :
  numeral_byte c = true -> (Utf8.byte_val c <? Utf8.RuneSelf) = true.
Proof.
  unfold numeral_byte, is_digit. intros H. apply Z.ltb_lt. unfold Utf8.RuneSelf.
  apply orb_true_iff in H as [H | H]; [apply orb_true_iff in H as [H | H] |].
  - apply andb_true_iff in H as [_ H]. apply Z.leb_le in H.
    change (Utf8.byte_val "9") with 57 in H. lia.
  - apply Ascii.eqb_eq in H. subst c. reflexivity.
  - apply Ascii.eqb_eq in H. subst c. reflexivity.
Qed.

Lemma numeral_text_ascii (s : string) : numeral_text s = true -> all_ascii s = true.
Proof.
  induction s as [|c s IH]; intros H; [reflexivity |].
  simpl in *. apply andb_true_iff in H as [Hc H].
  now rewrite (numeral_byte_ascii c Hc), IH.
Qed.

(** A numeral between double quotes needs no unescaping. *)
Lemma numeral_text_plain (s : string) : numeral_text s = true -> plain_body s.
Proof.
  intros H. repeat split; try (apply numeral_text_lacks; [reflexivity | exact H]).
  apply valid_from_ascii; [lia | now apply numeral_text_ascii].
Qed.

Lemma all_digits_numeral_text (s : string) : all_digits s = true -> numeral_text s = true.
Proof.
  induction s as [|c s IH]; intros H; [reflexivity |].
  simpl in *. apply andb_true_iff in H as [Hc H]. unfold numeral_byte.
  now rewrite Hc, IH.
Qed.

Lemma numeral_value_text (s : string) (w : Z) :
  numeral_value s = Some w -> numeral_text s = true.
Proof.
  destruct s as [|c s]; [discriminate |]. unfold numeral_value.
  destruct (all_digits (String c s)) eqn:E; [|discriminate].
  intros _. now apply all_digits_numeral_text.
Qed.

Lemma signed_value_text (s : string) (w : Z) :
  signed_value s = Some w -> numeral_text s = true.
Proof.
  destruct s as [|c s]; [discriminate |]. unfold signed_value.
  destruct (Ascii.eqb_spec c "+") as [->|_].
  { intros H. apply numeral_value_text in H. simpl. exact H. }
  destruct (Ascii.eqb_spec c "-") as [->|_].
  { destruct (numeral_value s) eqn:E; [|discriminate].
    intros _. apply numeral_value_text in E. simpl. exact E. }
  apply numeral_value_text.
Qed.

Lemma Unquote_quoted_plain (s : string) :
  plain_body s -> Strconv.Unquote (quoted s) = Some s.
Proof.
  intros Hp. unfold Strconv.Unquote.
  rewrite <- (app_nil_r_s (quoted s)), (unquote_plain s EmptyString true Hp).
  reflexivity.
Qed.

(** Unquote takes no input that does not start with one of the three
    quotes. *)
Lemma Unquote_bare (c : ascii) (rest : string) :
  c <> dquote -> c <> squote -> c <> backtick ->
  Strconv.Unquote (String c rest) = None.
Proof.
  intros H1 H2 H3. unfold Strconv.Unquote, Strconv.unquote.
  destruct (len (String c rest) <? 2); [reflexivity |].
  destruct (IndexByte rest c <? 0); [reflexivity |]. cbv zeta.
  destruct (Ascii.eqb_spec c backtick); [contradiction |].
  destruct (Ascii.eqb_spec c dquote); [contradiction |].
  destruct (Ascii.eqb_spec c squote); [contradiction | reflexivity].
Qed.

(** X14: Uint64.UnmarshalJSON sets the value without an error exactly when
    the input unquotes to a decimal numeral, digits alone and at least one,
    that writes a number below 2^64, and the value is then that number; with
    an error the value stays as it was.  On a numeral between double quotes
    it gives the number, or the range error when the number has more than 64
    bits. *)
Theorem Uint64_UnmarshalJSON_spec (u : Z) (src : string) :
  (forall v,
      Uint64_UnmarshalJSON u src = (v, None) <->
      exists vStr, Strconv.Unquote src = Some vStr /\
                   numeral_value vStr = Some v /\ 0 <= v < 2 ^ 64) /\
  (forall v e, Uint64_UnmarshalJSON u src = (v, Some e) -> v = u) /\
  (forall s w,
      numeral_value s = Some w ->
      Uint64_UnmarshalJSON u (quoted s) =
      if w <? 2 ^ 64 then (w, None) else (u, Some (FailedParse ErrRange))).
Proof.
  split; [|split].
  - intros v. unfold Uint64_UnmarshalJSON. split.
    + destruct (Strconv.Unquote src) as [vStr|]; [|discriminate].
      destruct (ParseUint64 vStr) as [w [e|]] eqn:E; [discriminate |].
      intros [= <-]. apply ParseUint64_spec in E as [Hn Hr].
      exists vStr. unfold maxUint64 in Hr. repeat split; try assumption; lia.
    + intros (vStr & -> & Hn & Hr).
      assert (E : ParseUint64 vStr = (v, None))
        by (apply ParseUint64_spec; unfold maxUint64; split; [assumption | lia]).
      now rewrite E.
  - intros v e. unfold Uint64_UnmarshalJSON.
    destruct (Strconv.Unquote src) as [vStr|]; [|now intros [= <- _]].
    destruct (ParseUint64 vStr) as [w [e'|]]; [now intros [= <- _] | discriminate].
  - intros s w Hn. unfold Uint64_UnmarshalJSON.
    rewrite (Unquote_quoted_plain s)
      by (apply numeral_text_plain; now apply (numeral_value_text s w)).
    destruct (ParseUint64_numeral s w Hn) as [Hw ->]. unfold maxUint64.
    destruct (Z.leb_spec w (2 ^ 64 - 1)); destruct (Z.ltb_spec w (2 ^ 64));
      try lia; reflexivity.
Qed.

Lemma Uint64_UnmarshalJSON_spec_witness :
  Uint64_UnmarshalJSON 7 (quoted "18446744073709551615") = (18446744073709551615, None) /\
  Uint64_UnmarshalJSON 7 (quoted "18446744073709551616") = (7, Some (FailedParse ErrRange)).
Proof.
  split.
  - exact (proj2 (proj2 (Uint64_UnmarshalJSON_spec 7 EmptyString))
             "18446744073709551615" 18446744073709551615 eq_refl).
  - exact (proj2 (proj2 (Uint64_UnmarshalJSON_spec 7 EmptyString))
             "18446744073709551616" 18446744073709551616 eq_refl).
Defined.

(** X15: Int64.UnmarshalJSON sets the value without an error exactly when
    the input unquotes to a decimal numeral with an optional sign that writes
    a number from -2^63 to 2^63 - 1, and the value is then that number; with
    an error the value stays as it was.  On such a numeral between double
    quotes it gives the number, or the range error when the number is
    outside these bounds. *)
Theorem Int64_UnmarshalJSON_spec (i : Z) (src : string) :
  (forall v,
      Int64_UnmarshalJSON i src = (v, None) <->
      exists vStr, Strconv.Unquote src = Some vStr /\
                   signed_value vStr = Some v /\ - 2 ^ 63 <= v < 2 ^ 63) /\
  (forall v e, Int64_UnmarshalJSON i src = (v, Some e) -> v = i) /\
  (forall s w,
      signed_value s = Some w ->
      Int64_UnmarshalJSON i (quoted s) =
      if (- 2 ^ 63 <=? w) && (w <? 2 ^ 63) then (w, None)
      else (i, Some (FailedParse ErrRange))).
Proof.
  split; [|split].
  - intros v. unfold Int64_UnmarshalJSON. split.
    + destruct (Strconv.Unquote src) as [vStr|]; [|discriminate].
      destruct (ParseInt64 vStr) as [w [e|]] eqn:E; [discriminate |].
      intros [= <-]. apply ParseInt64_spec in E as [Hn Hr].
      exists vStr. repeat split; try assumption; lia.
    + intros (vStr & -> & Hn & Hr).
      assert (E : ParseInt64 vStr = (v, None))
        by (apply ParseInt64_spec; split; [assumption | lia]).
      now rewrite E.
  - intros v e. unfold Int64_UnmarshalJSON.
    destruct (Strconv.Unquote src) as [vStr|]; [|now intros [= <- _]].
    destruct (ParseInt64 vStr) as [w [e'|]]; [now intros [= <- _] | discriminate].
  - intros s w Hn. unfold Int64_UnmarshalJSON.
    rewrite (Unquote_quoted_plain s)
      by (apply numeral_text_plain; now apply (signed_value_text s w)).
    destruct ((- 2 ^ 63 <=? w) && (w <? 2 ^ 63)) eqn:Er.
    + apply andb_true_iff in Er as [H1 H2]. apply Z.leb_le in H1. apply Z.ltb_lt in H2.
      assert (E : ParseInt64 s = (w, None))
        by (apply ParseInt64_spec; split; [assumption | lia]).
      now rewrite E.
    + destruct (ParseInt64 s) as [x [e|]] eqn:E.
      * destruct e; [|reflexivity].
        exfalso. revert E. apply ParseInt64_no_syntax_error with w. exact Hn.
      * apply ParseInt64_spec in E as [E Hr]. rewrite Hn in E. injection E as ->.
        apply andb_false_iff in Er as [Er | Er];
          [apply Z.leb_gt in Er | apply Z.ltb_ge in Er]; lia.
Qed.

Lemma Int64_UnmarshalJSON_spec_witness :
  Int64_UnmarshalJSON 7 (quoted "-9223372036854775808") = (-9223372036854775808, None) /\
  Int64_UnmarshalJSON 7 (quoted "9223372036854775808") = (7, Some (FailedParse ErrRange)).
Proof.
  split.
  - exact (proj2 (proj2 (Int64_UnmarshalJSON_spec 7 EmptyString))
             "-9223372036854775808" (-9223372036854775808) eq_refl).
  - exact (proj2 (proj2 (Int64_UnmarshalJSON_spec 7 EmptyString))
             "9223372036854775808" 9223372036854775808 eq_refl).
Defined.

(** X16: both UnmarshalJSON functions refuse an input that does not start
    with a double quote, a single quote or a backtick, such as a bare JSON
    number, with the unquote error, and leave the value as it was. *)
Theorem UnmarshalJSON_needs_quotes (v : Z) (c : ascii) (rest : string) :
  c <> dquote -> c <> squote -> c <> backtick ->
  Uint64_UnmarshalJSON v (String c rest) = (v, Some FailedUnquote) /\
  Int64_UnmarshalJSON v (String c rest) = (v, Some FailedUnquote).
Proof.
  intros H1 H2 H3. unfold Uint64_UnmarshalJSON, Int64_UnmarshalJSON.
  now rewrite (Unquote_bare c rest H1 H2 H3).
Qed.

Lemma UnmarshalJSON_needs_quotes_witness :
  Uint64_UnmarshalJSON 7 "123" = (7, Some FailedUnquote) /\
  Int64_UnmarshalJSON 7 "123" = (7, Some FailedUnquote).
Proof.
  apply (UnmarshalJSON_needs_quotes 7 "1" "23"); discriminate.
Defined.

(** ** RemoveIf of the vendored slice *)

(** The loop keeps, below newLen, the elements passed so far that f does
    not remove, in their order, and leaves the elements from i on as they
    are. *)
Lemma removeIf_loop_filter {A : Type} (f : A -> bool) (l0 : list A) :
  forall (todo i newLen : nat) (l : list A),
    (i + todo = length l0)%nat ->
    length l = length l0 ->
    (newLen <= i)%nat ->
    take newLen l = filter (fun x => f x = false) (take i l0) ->
    drop i l = drop i l0 ->
    exists l' n,
      ScopeMetricsSlice.removeIf_loop f todo i newLen l = Ret (l', n) /\
      take n l' = filter (fun x => f x = false) l0.
Proof.
  induction todo as [|todo IH]; intros i newLen l Hi Hl Hn Ht Hd.
  - exists l, newLen. split; [reflexivity |].
    rewrite Ht, take_ge by lia. reflexivity.
  - assert (Hlt : (i < length l0)%nat) by lia.
    destruct (lookup_lt_is_Some_2 l0 i Hlt) as [x Hx].
    assert (Hlx : l !! i = Some x).
    { rewrite <- (Nat.add_0_r i), <- lookup_drop, Hd, lookup_drop, Nat.add_0_r.
      exact Hx. }
    cbn [ScopeMetricsSlice.removeIf_loop]. rewrite Hlx.
    assert (Hti : take (S i) l0 = take i l0 ++ [x]) by now apply take_S_r.
    assert (Hdi : forall l1, drop i l1 = drop i l0 -> drop (S i) l1 = drop (S i) l0).
    { intros l1 H. replace (S i) with (i + 1)%nat by lia.
      rewrite <- !drop_drop, H. reflexivity. }
    destruct (f x) eqn:Hf.
    + apply IH; try assumption; try lia.
      * rewrite Hti, filter_app, filter_cons, decide_False, filter_nil, app_nil_r
          by congruence. exact Ht.
      * now apply Hdi.
    + assert (Hkeep : filter (fun y => f y = false) (take (S i) l0)
                      = filter (fun y => f y = false) (take i l0) ++ [x]).
      { rewrite Hti, filter_app, filter_cons, decide_True, filter_nil by assumption.
        reflexivity. }
      destruct (Nat.eqb_spec newLen i) as [->|Hne].
      * apply IH; try assumption; try lia.
        -- rewrite (take_S_r l i x Hlx), Hkeep, Ht. reflexivity.
        -- now apply Hdi.
      * rewrite decide_True by lia.
        apply IH; try lia.
        -- now rewrite length_insert.
        -- rewrite (take_S_r _ newLen x) by (apply list_lookup_insert_eq; lia).
           rewrite take_insert_ge, Hkeep, Ht by lia. reflexivity.
        -- rewrite drop_insert_lt by lia. now apply Hdi.
Qed.

(** X17: RemoveIf on a slice that may be changed returns, and leaves exactly
    the elements that f does not remove, in the order they had; a nil slice
    stays nil; on a slice that may not be changed it panics and removes
    nothing. *)
Theorem RemoveIf_filter {A : Type} (es : ScopeMetricsSlice.t A) (f : A -> bool) :
  (ScopeMetricsSlice.mutable es = true ->
   ScopeMetricsSlice.RemoveIf es f =
   Ret (ScopeMetricsSlice.mk
          (filter (fun x => f x = false) <$> ScopeMetricsSlice.orig es) true)) /\
  (ScopeMetricsSlice.mutable es = false ->
   ScopeMetricsSlice.RemoveIf es f = Panic "invalid access to shared data").
Proof.
  destruct es as [o m]. unfold ScopeMetricsSlice.RemoveIf. simpl. split.
  - intros ->. simpl. destruct o as [l|]; [|reflexivity].
    destruct (removeIf_loop_filter f l (length l) 0 0 l) as (l' & n & -> & Hr);
      try reflexivity; try lia.
    simpl. now rewrite Hr.
  - now intros ->.
Qed.

Lemma RemoveIf_filter_witness :
  ScopeMetricsSlice.RemoveIf (ScopeMetricsSlice.mk (Some [1; 8; 2; 9; 3]) true)
    (fun x => 5 <? x)
  = Ret (ScopeMetricsSlice.mk (Some [1; 2; 3]) true).
Proof.
  exact (proj1 (RemoveIf_filter (ScopeMetricsSlice.mk (Some [1; 8; 2; 9; 3]) true)
                  (fun x => 5 <? x)) eq_refl).
Defined.
